(** * SSSI finite-difference kernel: a shallow embedding of [src/fd_cmex]

    The development follows the two C sources

      - [finiteDifference.c]: [dCoef], [diffOperator], [dampPml];
      - [fwdTimeCpmlFor2dAw_openmpi_mex.c]: the set-up part of [mexFunction]
        (arguments, scatter tables, x-axis and z-axis damping profiles).

    Modelling conventions.

      - A C [double] is a real number of the Standard Library ([R]); [log],
        [exp] and [pow] are [ln], [exp] and [powerRZ].  Rounding is not
        modelled.
      - C integers ([int], [mwSize]) are mathematical integers ([Z]).  A
        negative value that reaches an unsigned position of the MATLAB API
        (an array extent) is the image of an unsigned wrap-around.  C
        defines the wrapped value and MATLAB ends the MEX-file when it
        cannot allocate it; the model describes no result there and the run
        is [Undefined].
      - Every access [p[i]] is checked against the extent of the buffer it
        goes to; an access outside it makes the run [Undefined].
      - [mxArray]s live in a heap indexed by handles (the [mxArray*] of the
        C code); [mxCreate*] appends a cell, [mxDestroyArray] empties one.
      - [mexErrMsgTxt], a failed [mxAssert] and [MPI_Abort] end the run with
        [Failed msg].
      - [for] loops are [for_loop lo hi body]: the body runs for
        [lo, lo+1, ..., hi-1] and threads the state.
      - [mxFree] and the [mexPrintf] traces do not change a value that is
        read afterwards and are left out; the number of MPI processes and
        the rank of the process are parameters. *)

From HB Require Import structures.
From Stdlib Require Import ZArith Reals Lra Lia String.
From Stdlib Require Import ClassicalEpsilon FunctionalExtensionality.
From mathcomp Require Import ssreflect ssrfun ssrbool eqtype ssrnat seq.
From mathcomp Require Import choice fintype bigop ssralg poly matrix mxalgebra.

Set Implicit Arguments.
Unset Strict Implicit.
Unset Printing Implicit Defensive.

Delimit Scope R_scope with Re.
Local Open Scope string_scope.
Local Open Scope Z_scope.

(** ** Outcomes of a run *)

Inductive outcome (T : Type) : Type :=
| Returned (x : T)
| Failed (msg : string)
| Undefined.

Arguments Returned {T} x.
Arguments Failed {T} msg.
Arguments Undefined {T}.

Definition bind {A B : Type} (m : outcome A) (k : A -> outcome B) : outcome B :=
  match m with
  | Returned x => k x
  | Failed msg => Failed msg
  | Undefined => Undefined
  end.

Notation "'let*' x ':=' m 'in' k" := (bind m (fun x => k))
  (at level 200, x name, m at level 100, k at level 200, right associativity).
Notation "'let*' ' p ':=' m 'in' k" :=
  (bind m (fun x => match x with p => k end))
  (at level 200, p strict pattern, m at level 100, k at level 200,
   right associativity).

(** ** [for] loops *)

Fixpoint iterate {S : Type} (n : nat) (i : Z) (body : Z -> S -> outcome S)
    (s : S) : outcome S :=
  match n with
  | O => Returned s
  | n'.+1 => let* s' := body i s in iterate n' (i + 1) body s'
  end.

(** [for (i = lo; i < hi; i++) body] *)
Definition for_loop {S : Type} (lo hi : Z) (body : Z -> S -> outcome S)
    (s : S) : outcome S :=
  iterate (Z.to_nat (hi - lo)) lo body s.

(** ** Buffers with checked accesses *)

Definition Zsize {T : Type} (p : seq T) : Z := Z.of_nat (size p).

Definition get {T : Type} (d : T) (p : seq T) (i : Z) : T :=
  nth d p (Z.to_nat i).

Definition upd {T : Type} (d : T) (p : seq T) (i : Z) (x : T) : seq T :=
  set_nth d p (Z.to_nat i) x.

Definition in_bounds {T : Type} (p : seq T) (i : Z) : bool :=
  (0 <=? i) && (i <? Zsize p).

(** [p[i]] as an rvalue *)
Definition load {T : Type} (d : T) (p : seq T) (i : Z) : outcome T :=
  if in_bounds p i then Returned (get d p i) else Undefined.

(** [p[i] = x] *)
Definition store {T : Type} (d : T) (p : seq T) (i : Z) (x : T)
    : outcome (seq T) :=
  if in_bounds p i then Returned (upd d p i x) else Undefined.

(** [mxCalloc(n, sizeof ...)]: [n] zeroed cells *)
Definition mxCalloc {T : Type} (d : T) (n : Z) : outcome (seq T) :=
  if 0 <=? n then Returned (nseq (Z.to_nat n) d) else Undefined.

(** ** The MATLAB array heap *)

Record mxArray : Type := MxArray {
  mxGetDimensions : seq Z;
  mxGetPr : seq R
}.

Definition handle : Type := nat.
Definition heap : Type := seq (option mxArray).

Definition numel (dims : seq Z) : Z := foldr Z.mul 1 dims.

Definition mxGetNumberOfDimensions (a : mxArray) : Z :=
  Zsize (mxGetDimensions a).
Definition mxGetNumberOfElements (a : mxArray) : Z :=
  numel (mxGetDimensions a).
Definition mxGetM (a : mxArray) : Z := get 0 (mxGetDimensions a) 0.
Definition mxGetN (a : mxArray) : Z := numel (behead (mxGetDimensions a)).

Definition deref (h : heap) (p : handle) : outcome mxArray :=
  match nth None h p with
  | Some a => Returned a
  | None => Undefined
  end.

Definition alloc (a : mxArray) (h : heap) : handle * heap :=
  (size h, rcons h (Some a)).

(** [mxCreateNumericArray(ndim, dims, mxDOUBLE_CLASS, mxREAL)]: reads [ndim]
    extents from [dims] and creates a zero-filled array.  The extents are
    [mwSize] values, which are unsigned: an extent that is negative here is
    in C the wrapped, huge extent, for which MATLAB cannot allocate and ends
    the MEX-file.  That end is outside the model: the result is [Undefined],
    which here stands for "no result described", not for undefined
    behaviour of C. *)
Definition mxCreateNumericArray (ndim : Z) (dims : seq Z) (h : heap)
    : outcome (handle * heap) :=
  if (ndim <=? Zsize dims) && all (Z.leb 0) (take (Z.to_nat ndim) dims) then
    let ds := take (Z.to_nat ndim) dims in
    Returned (alloc (MxArray ds (nseq (Z.to_nat (numel ds)) 0%Re)) h)
  else Undefined.

(** [mxCreateDoubleMatrix(m, n, mxREAL)] *)
Definition mxCreateDoubleMatrix (m n : Z) (h : heap)
    : outcome (handle * heap) :=
  mxCreateNumericArray 2 [:: m; n] h.

Definition mxDestroyArray (p : handle) (h : heap) : outcome heap :=
  let* _ := deref h p in Returned (set_nth None h p None).

(** [mxGetPr(p)[i]] as an rvalue *)
Definition rd (p : handle) (i : Z) (h : heap) : outcome R :=
  let* a := deref h p in load 0%Re (mxGetPr a) i.

(** [mxGetPr(p)[i] = x] *)
Definition wr (p : handle) (i : Z) (x : R) (h : heap) : outcome heap :=
  let* a := deref h p in
  let* pr := store 0%Re (mxGetPr a) i x in
  Returned (set_nth None h p (Some (MxArray (mxGetDimensions a) pr))).

(** ** [finiteDifference.c] *)

(** [strcmp] of <string.h>: zero exactly on equal strings. *)
Definition strcmp (a b : string) : Z :=
  match String.compare a b with
  | Eq => 0
  | Lt => -1
  | Gt => 1
  end.

(** Views of a column-major buffer as a square matrix and as a column. *)
Definition mx_of_buf (n : nat) (p : seq R) : 'M[R]_n :=
  \matrix_(i < n, j < n) nth 0%Re p (j * n + i)%N.

Definition col_of_buf (n : nat) (p : seq R) : 'cV[R]_n :=
  \col_(i < n) nth 0%Re p i.

Definition buf_of_col (n : nat) (c : 'cV[R]_n) : seq R :=
  [seq c i ord0 | i <- enum 'I_n].

Definition same_dims (s t : seq Z) : bool := all2 Z.eqb s t.

Section FiniteDifference.

(** MATLAB's [mldivide] ([A \ b]) is not part of the sources: it is a
    parameter of the embedding. *)
Variable mldivide : forall n : nat, 'M[R]_n -> 'cV[R]_n -> 'cV[R]_n.

(** [mexCallMATLAB(1, lhs, 2, rhs, "mldivide")] on a square system; other
    shapes are not used by the sources and are left out of the model. *)
Definition mexCallMATLAB_mldivide (A b : handle) (h : heap)
    : outcome (handle * heap) :=
  let* MA := deref h A in
  let* Mb := deref h b in
  let n := Z.to_nat (mxGetM MA) in
  if same_dims (mxGetDimensions MA) [:: Z.of_nat n; Z.of_nat n]
     && same_dims (mxGetDimensions Mb) [:: Z.of_nat n; 1] then
    let c := mldivide (mx_of_buf n (mxGetPr MA)) (col_of_buf n (mxGetPr Mb)) in
    Returned (alloc (MxArray [:: Z.of_nat n; 1] (buf_of_col c)) h)
  else Undefined.

(** Lines 34-64 of [dCoef]: allocation of [A] and [b] and the two fill
    loops selected by [type]. *)
Definition dCoef_system (order : Z) (type : string) (h : heap)
    : outcome (handle * handle * heap) :=
  let* '(A, h) := mxCreateDoubleMatrix order order h in
  let* '(b, h) := mxCreateDoubleMatrix order 1 h in
  let* h :=
    if strcmp type "r" =? 0 then
      let* h := wr b 0 (1 / 2)%Re h in
      for_loop 0 order (fun j => for_loop 0 order (fun i =>
        wr A (j * order + i)
           (powerRZ (IZR (j + 1)) (2 * (i + 1) - 1)))) h
    else if strcmp type "s" =? 0 then
      let* h := wr b 0 1%Re h in
      for_loop 0 order (fun j => for_loop 0 order (fun i =>
        wr A (j * order + i)
           (powerRZ (IZR (2 * (j + 1) - 1)) (2 * (i + 1) - 1)))) h
    else Failed "Type must be 's' or 'r'!" in
  Returned (A, b, h).

Definition dCoef (order : Z) (type : string) (h : heap)
    : outcome (handle * heap) :=
  let* '(A, b, h) := dCoef_system order type h in
  let* '(lhs_mldivide, h) := mexCallMATLAB_mldivide A b h in
  let* h := mxDestroyArray A h in
  let* h := mxDestroyArray b h in
  Returned (lhs_mldivide, h).

End FiniteDifference.

(** The statement of the innermost loops of [diffOperator]:
    [pDiffData[o] = pDiffData[o] + pCoeff[iOrder] * (pData[x1] - pData[x2]) / dist] *)
Definition stencil_step (diffData data coeff : handle) (dist : R)
    (iOrder o x1 x2 : Z) (h : heap) : outcome heap :=
  let* acc := rd diffData o h in
  let* c := rd coeff iOrder h in
  let* a := rd data x1 h in
  let* b := rd data x2 h in
  wr diffData o (acc + c * (a - b) / dist)%Re h.

(** The innermost loop header of [diffOperator]:
    [cnt = 0; idx2 = start2;
     for (idx1 = first; idx1 <= last; idx1++) { step; cnt++; idx2++; }] *)
Definition stencil_sweep (first last start2 : Z)
    (step : Z -> Z -> Z -> heap -> outcome heap) (h : heap) : outcome heap :=
  let* '(_, _, h) :=
    for_loop first (last + 1)
      (fun idx1 '(cnt, idx2, h) =>
         let* h := step cnt idx1 idx2 h in Returned (cnt + 1, idx2 + 1, h))
      (0, start2, h) in
  Returned h.

Definition diffOperator (data coeff : handle) (dist : R) (dim : Z) (h : heap)
    : outcome (handle * heap) :=
  let* D := deref h data in
  let* C := deref h coeff in
  let dim := if dim <? 1 then 1 else dim in
  let ndims := mxGetNumberOfDimensions D in
  let order := mxGetNumberOfElements C in
  let l := 2 * order - 1 in
  let pDimsData := mxGetDimensions D in
  if ndims <=? 2 then
    let* n1 := load 0 pDimsData 0 in
    let* n2 := load 0 pDimsData 1 in
    if dim =? 1 then
      let* '(diffData, h) := mxCreateDoubleMatrix (n1 - l) n2 h in
      let* h :=
        for_loop 0 order (fun iOrder => for_loop 0 n2 (fun j =>
          stencil_sweep (order + iOrder) (n1 - order + iOrder)
            (order - (iOrder + 1))
            (fun i idx1 idx2 =>
               stencil_step diffData data coeff dist iOrder
                 (j * (n1 - l) + i) (j * n1 + idx1) (j * n1 + idx2)))) h in
      Returned (diffData, h)
    else
      let* '(diffData, h) := mxCreateDoubleMatrix n1 (n2 - l) h in
      let* h :=
        for_loop 0 order (fun iOrder => for_loop 0 n1 (fun i =>
          stencil_sweep (order + iOrder) (n2 - order + iOrder)
            (order - (iOrder + 1))
            (fun j idx1 idx2 =>
               stencil_step diffData data coeff dist iOrder
                 (j * n1 + i) (idx1 * n1 + i) (idx2 * n1 + i)))) h in
      Returned (diffData, h)
  else
    let* n1 := load 0 pDimsData 0 in
    let* n2 := load 0 pDimsData 1 in
    let* n3 := load 0 pDimsData 2 in
    if dim =? 1 then
      let* '(diffData, h) :=
        mxCreateNumericArray ndims [:: n1 - l; n2; n3] h in
      let* h :=
        for_loop 0 order (fun iOrder =>
          for_loop 0 n3 (fun k => for_loop 0 n2 (fun j =>
            stencil_sweep (order + iOrder) (n1 - order + iOrder)
              (order - (iOrder + 1))
              (fun i idx1 idx2 =>
                 stencil_step diffData data coeff dist iOrder
                   (k * ((n1 - l) * n2) + j * (n1 - l) + i)
                   (k * (n1 * n2) + j * n1 + idx1)
                   (k * (n1 * n2) + j * n1 + idx2))))) h in
      Returned (diffData, h)
    else if dim =? 2 then
      let* '(diffData, h) :=
        mxCreateNumericArray ndims [:: n1; n2 - l; n3] h in
      let* h :=
        for_loop 0 order (fun iOrder =>
          for_loop 0 n3 (fun k => for_loop 0 n1 (fun i =>
            stencil_sweep (order + iOrder) (n2 - order + iOrder)
              (order - (iOrder + 1))
              (fun j idx1 idx2 =>
                 stencil_step diffData data coeff dist iOrder
                   (k * (n1 * (n2 - l)) + j * n1 + i)
                   (k * (n1 * n2) + idx1 * n1 + i)
                   (k * (n1 * n2) + idx2 * n1 + i))))) h in
      Returned (diffData, h)
    else
      let* '(diffData, h) :=
        mxCreateNumericArray ndims [:: n1; n2; n3 - l] h in
      let* h :=
        for_loop 0 order (fun iOrder =>
          for_loop 0 n2 (fun j => for_loop 0 n1 (fun i =>
            stencil_sweep (order + iOrder) (n3 - order + iOrder)
              (order - (iOrder + 1))
              (fun k idx1 idx2 =>
                 stencil_step diffData data coeff dist iOrder
                   (k * (n1 * n2) + j * n1 + i)
                   (idx1 * (n1 * n2) + j * n1 + i)
                   (idx2 * (n1 * n2) + j * n1 + i))))) h in
      Returned (diffData, h).

(** [const double R = 1e-6; const double logR = log(R);] *)
Definition Rcoef : R := (1 / 1000000)%Re.
Definition logR : R := ln Rcoef.

Definition dampPml (u v : handle) (L : R) (h : heap)
    : outcome (handle * heap) :=
  let* U := deref h u in
  let* V := deref h v in
  let m := mxGetM U in
  let n := mxGetN U in
  if ~~ (m =? mxGetM V) then Failed "Rows of u and v should be the same!"
  else if ~~ (n =? mxGetN V)
  then Failed "Columns of u and v should be the same!"
  else
    let* '(d0, h) := mxCreateDoubleMatrix m n h in
    let* h :=
      for_loop 0 n (fun j => for_loop 0 m (fun i h =>
        let* pv := rd v (j * m + i) h in
        wr d0 (j * m + i) (- (3 * pv) / (2 * L) * logR)%Re h)) h in
    let* '(d, h) := mxCreateDoubleMatrix m n h in
    let* h :=
      for_loop 0 n (fun j => for_loop 0 m (fun i h =>
        let* pd0 := rd d0 (j * m + i) h in
        let* pu := rd u (j * m + i) h in
        wr d (j * m + i) (pd0 * (pu / L) * (pu / L))%Re h)) h in
    let* h := mxDestroyArray d0 h in
    Returned (d, h).

(** ** [fwdTimeCpmlFor2dAw_openmpi_mex.c], set-up part of [mexFunction] *)

Record scatter_tables : Type := ScatterTables {
  sendcounts_block_nx : seq Z;
  displs_block_nx : seq Z;
  sendcounts_band_nx : seq Z;
  displs_band_nx : seq Z;
  offset_block_nx : Z
}.

(** Lines 113-138: the guard on the number of processes and the loop that
    fills the [MPI_Scatterv] tables.  [numProcesses > nx] is an unsigned
    comparison, so a negative count is rejected as well. *)
Definition scatter_layout (nz nx numProcesses : Z) : outcome scatter_tables :=
  if (numProcesses <? 0) || (nx <? numProcesses) then
    Failed "MPI System: Too much MPI tasks, terminating..."
  else if numProcesses =? 0 then Undefined
  else
    let avg_nx := Z.quot nx numProcesses in
    let rem_nx := Z.rem nx numProcesses in
    let* sc_block := mxCalloc 0 numProcesses in
    let* ds_block := mxCalloc 0 numProcesses in
    let* sc_band := mxCalloc 0 numProcesses in
    let* ds_band := mxCalloc 0 numProcesses in
    for_loop 0 numProcesses (fun irank t =>
      let block_nx := if irank <? rem_nx then avg_nx + 1 else avg_nx in
      let* sc_block := store 0 (sendcounts_block_nx t) irank block_nx in
      let* sc_band := store 0 (sendcounts_band_nx t) irank (nz * block_nx) in
      let* ds_block :=
        store 0 (displs_block_nx t) irank (offset_block_nx t) in
      let* ds_band :=
        store 0 (displs_band_nx t) irank (nz * offset_block_nx t) in
      let* cnt := load 0 sc_block irank in
      Returned (ScatterTables sc_block ds_block sc_band ds_band
                  (offset_block_nx t + cnt)))
      (ScatterTables sc_block ds_block sc_band ds_band 0).

(** [mexFunction] calls [dampPml] on raw buffers, with the shape passed
    explicitly: [dampPml(pu, pv, m, n, L)].  The sources hold the [mxArray]
    version of [finiteDifference.c] only (the header is not among them), so
    the call is that function on two [m x n] arrays that hold the buffers;
    it returns the buffer of the result. *)
Definition dampPml_buffers (pu pv : seq R) (m n : Z) (L : R)
    : outcome (seq R) :=
  let h := [:: Some (MxArray [:: m; n] pu); Some (MxArray [:: m; n] pv)] in
  let* '(d, h') := dampPml 0%N 1%N L h in
  let* a := deref h' d in
  Returned (mxGetPr a).

(** Lines 308-327: the z-axis damping profile [pzDamp_local] and the decay
    factors [pzb_local] of the worker [taskId]. *)
Definition zDamp (nz boundary : Z) (dz dt : R) (sendcounts : seq Z)
    (taskId : Z) (pVelocityModel_local : seq R) : outcome (seq R * seq R) :=
  let* cnt := load 0 sendcounts taskId in
  let* puDampDown_local := mxCalloc 0%Re (boundary * cnt) in
  let* puDampDown_local :=
    for_loop 0 cnt (fun j => for_loop 0 boundary (fun i pu =>
      store 0%Re pu (j * boundary + i) (IZR (i + 1) * dz)%Re))
      puDampDown_local in
  let* pvDampDown_local := mxCalloc 0%Re (boundary * cnt) in
  let* pvDampDown_local :=
    for_loop 0 cnt (fun j => for_loop 0 boundary (fun i pv =>
      let* x := load 0%Re pVelocityModel_local
                  (j * nz + (nz - boundary + i)) in
      store 0%Re pv (j * boundary + i) x))
      pvDampDown_local in
  let* pzDampDown_local :=
    dampPml_buffers puDampDown_local pvDampDown_local boundary cnt
      (IZR boundary * dz)%Re in
  let* pzDamp_local := mxCalloc 0%Re (nz * cnt) in
  let* pzDamp_local :=
    for_loop 0 cnt (fun j => for_loop (nz - boundary) nz (fun i pz =>
      let* x := load 0%Re pzDampDown_local
                  (j * boundary + i - (nz - boundary)) in
      store 0%Re pz (j * nz + i) x))
      pzDamp_local in
  let* pzb_local := mxCalloc 0%Re (nz * cnt) in
  let* pzb_local :=
    for_loop 0 cnt (fun j => for_loop 0 nz (fun i pzb =>
      let* x := load 0%Re pzDamp_local (j * nz + i) in
      store 0%Re pzb (j * nz + i) (exp (- x * dt))%Re))
      pzb_local in
  Returned (pzDamp_local, pzb_local).

(** [memcpy(dst + doff, src + soff, sizeof(double) * n)].  The count is a
    [size_t]: a negative [n] is the image of a wrap-around. *)
Definition memcpy (dst : seq R) (doff : Z) (src : seq R) (soff n : Z)
    : outcome (seq R) :=
  if n <? 0 then Undefined
  else
    for_loop 0 n (fun k dst =>
      let* x := load 0%Re src (soff + k) in
      store 0%Re dst (doff + k) x) dst.

(** [a - b] on [mwSize] operands.  In C the difference of unsigned operands
    wraps around and the program goes on with the wrapped value; the model
    does not follow it there and gives [Undefined], which for [a < b]
    stands for "no result described". *)
Definition mwSize_sub (a b : Z) : outcome Z :=
  if a <? b then Undefined else Returned (a - b).

(** The block that lines 190-202, 210-222, 231-243, 255-267 and 275-287
    repeat: [block_nx_dampPml] columns of distances [u j * dx], the
    velocities of the columns from offset [off] of the local model, their
    damping, copied into [pxDamp_local] at the same offset. *)
Definition damp_block (nz block_nx_dampPml : Z) (u : Z -> Z) (dx L : R)
    (pVelocityModel_local : seq R) (off : Z) (pxDamp_local : seq R)
    : outcome (seq R) :=
  let* puDamp_local := mxCalloc 0%Re (nz * block_nx_dampPml) in
  let* puDamp_local :=
    for_loop 0 block_nx_dampPml (fun j => for_loop 0 nz (fun i pu =>
      store 0%Re pu (j * nz + i) (IZR (u j) * dx)%Re)) puDamp_local in
  let* pvDamp_local := mxCalloc 0%Re (nz * block_nx_dampPml) in
  let* pvDamp_local :=
    memcpy pvDamp_local 0 pVelocityModel_local off (nz * block_nx_dampPml) in
  let* pxDampSide_local :=
    dampPml_buffers puDamp_local pvDamp_local nz block_nx_dampPml L in
  memcpy pxDamp_local off pxDampSide_local 0 (nz * block_nx_dampPml).

(** Lines 182-296: the branches on the position of the block
    [[dsp, dsp + cnt)] of the worker with respect to the left padding
    [[0, boundary)] and the right padding [[nx - boundary, nx)]. *)
Definition xDamp_sides (nz nx boundary : Z) (dx : R) (cnt dsp : Z)
    (pVelocityModel_local pxDamp_local : seq R) : outcome (seq R) :=
  let L := (IZR boundary * dx)%Re in
  if dsp <? boundary then
    let* pxDamp_local :=
      if dsp + cnt <=? boundary then
        damp_block nz cnt (fun j => boundary - dsp - j) dx L
          pVelocityModel_local 0 pxDamp_local
      else
        damp_block nz (boundary - dsp) (fun j => boundary - dsp - j) dx L
          pVelocityModel_local 0 pxDamp_local in
    let* inner := mwSize_sub nx boundary in
    if inner <? dsp + cnt then
      let* first := mwSize_sub inner dsp in
      damp_block nz (dsp + cnt - inner) (fun j => j + 1) dx L
        pVelocityModel_local (nz * first) pxDamp_local
    else Returned pxDamp_local
  else
    let* inner := mwSize_sub nx boundary in
    if inner <? dsp + cnt then
      if inner <=? dsp then
        damp_block nz cnt (fun j => dsp - inner + j + 1) dx L
          pVelocityModel_local 0 pxDamp_local
      else
        let* first := mwSize_sub inner dsp in
        damp_block nz (dsp + cnt - inner) (fun j => j + 1) dx L
          pVelocityModel_local (nz * first) pxDamp_local
    else Returned pxDamp_local.

(** Lines 180-301: the x-axis damping profile [pxDamp_local] and the decay
    factors [pxb_local] of the worker [taskId]. *)
Definition xDamp (nz nx boundary : Z) (dx dt : R) (sendcounts displs : seq Z)
    (taskId : Z) (pVelocityModel_local : seq R) : outcome (seq R * seq R) :=
  let* cnt := load 0 sendcounts taskId in
  let* dsp := load 0 displs taskId in
  let* pxDamp_local := mxCalloc 0%Re (nz * cnt) in
  let* pxDamp_local :=
    xDamp_sides nz nx boundary dx cnt dsp pVelocityModel_local pxDamp_local in
  let* pxb_local := mxCalloc 0%Re (nz * cnt) in
  let* pxb_local :=
    for_loop 0 cnt (fun j => for_loop 0 nz (fun i pxb =>
      let* x := load 0%Re pxDamp_local (j * nz + i) in
      store 0%Re pxb (j * nz + i) (exp (- x * dt))%Re))
      pxb_local in
  Returned (pxDamp_local, pxb_local).

(** A C conversion from [double] to [int]: the value is truncated toward
    zero; a result outside the range of [int] is undefined. *)
Definition trunc (x : R) : Z :=
  if Rle_dec 0 x then Int_part x else - Int_part (- x).

Definition int_of_double (x : R) : outcome Z :=
  let z := trunc x in
  if (-2147483648 <=? z) && (z <=? 2147483647) then Returned z
  else Undefined.

(** The values that lines 79-99 of [mexFunction] read from its arguments,
    with the coefficient vector and the stencil length. *)
Record mex_inputs : Type := MexInputs {
  in_nz : Z;
  in_nx : Z;
  in_nt : Z;
  in_diffOrder : Z;
  in_boundary : Z;
  in_dz : R;
  in_dx : R;
  in_dt : R;
  in_pCoeff : handle;
  in_l : Z
}.

Section MexFunction.

Variable mldivide : forall n : nat, 'M[R]_n -> 'cV[R]_n -> 'cV[R]_n.

(** Lines 79-99: the check of the number of arguments, the scalars, the
    extents of the source and the two assertions on the shape of the
    velocity model, then the staggered coefficients. *)
Definition mexFunction_inputs (nrhs : Z) (prhs : seq handle) (h : heap)
    : outcome (mex_inputs * heap) :=
  if nrhs <? 7 then Failed "All 7 input arguments shall be provided!"
  else
    let* VM_IN := load 0%N prhs 0 in
    let* SOURCE_IN := load 0%N prhs 1 in
    let* DIFFORDER_IN := load 0%N prhs 2 in
    let* BOUNDARY_IN := load 0%N prhs 3 in
    let* DZ_IN := load 0%N prhs 4 in
    let* DX_IN := load 0%N prhs 5 in
    let* DT_IN := load 0%N prhs 6 in
    let* VM := deref h VM_IN in
    let* SOURCE := deref h SOURCE_IN in
    let* diffOrder := (let* x := rd DIFFORDER_IN 0 h in int_of_double x) in
    let* boundary := (let* x := rd BOUNDARY_IN 0 h in int_of_double x) in
    let* dz := rd DZ_IN 0 h in
    let* dx := rd DX_IN 0 h in
    let* dt := rd DT_IN 0 h in
    let pDimsSource := mxGetDimensions SOURCE in
    let* nz := load 0 pDimsSource 0 in
    let* nx := load 0 pDimsSource 1 in
    let* nt := load 0 pDimsSource 2 in
    if ~~ (nz =? mxGetM VM) then
      Failed
        "Velocity model and source grids should have the same z-axis grids!"
    else if ~~ (nx =? mxGetN VM) then
      Failed
        "Velocity model and source grids should have the same x-axis grids!"
    else
      let* '(pCoeff, h) := dCoef mldivide diffOrder "s" h in
      let l := 2 * diffOrder - 1 in
      Returned (MexInputs nz nx nt diffOrder boundary dz dx dt pCoeff l, h).

End MexFunction.

(** ** Specification vocabulary *)

(** [sumR n f] is [((0 + f 0) + f 1) + ... + f (n-1)], in this order. *)
Fixpoint sumR (n : nat) (f : Z -> R) : R :=
  match n with
  | O => 0%Re
  | n'.+1 => (sumR n' f + f (Z.of_nat n'))%Re
  end.

(** Column-major offset of the multi-index [idx] in an array of extents
    [dims]. *)
Fixpoint lin (dims idx : seq Z) : Z :=
  match dims, idx with
  | n :: dims', i :: idx' => i + n * lin dims' idx'
  | _, _ => 0
  end.

(** [idx] is a multi-index of an array of extents [dims]. *)
Fixpoint inside (dims idx : seq Z) : bool :=
  match dims, idx with
  | [::], [::] => true
  | n :: dims', i :: idx' => (0 <=? i) && (i <? n) && inside dims' idx'
  | _, _ => false
  end.

(** The multi-index [idx] moved to position [p] along [axis] (0-based). *)
Definition along (axis : nat) (idx : seq Z) (p : Z) : seq Z :=
  set_nth 0 idx axis p.

(** A heap cell holds an array whose buffer has one entry per element. *)
Definition well_formed (a : mxArray) : Prop :=
  [/\ (2 <= size (mxGetDimensions a))%N,
      all (Z.leb 0) (mxGetDimensions a)
    & Zsize (mxGetPr a) = numel (mxGetDimensions a)].

(** ** Definitions of the proofs and of the examples *)

(** The heap [h] with the cell [p] set to the array [(ds, buf)]. *)
Definition with_cell (h : heap) (p : handle) (ds : seq Z) (buf : seq R)
    : heap :=
  set_nth None h p (Some (MxArray ds buf)).

(** The two loop nests of [dampPml], on buffers. *)
Definition dampPml_loops (pu pv : seq R) (m n : Z) (L : R) : outcome (seq R) :=
  let* pd0 := mxCalloc 0%Re (m * n) in
  let* pd0 :=
    for_loop 0 n (fun j => for_loop 0 m (fun i pd0 =>
      let* x := load 0%Re pv (j * m + i) in
      store 0%Re pd0 (j * m + i) (- (3 * x) / (2 * L) * logR)%Re)) pd0 in
  let* pd := mxCalloc 0%Re (m * n) in
  for_loop 0 n (fun j => for_loop 0 m (fun i pd =>
    let* x0 := load 0%Re pd0 (j * m + i) in
    let* x := load 0%Re pu (j * m + i) in
    store 0%Re pd (j * m + i) (x0 * (x / L) * (x / L))%Re)) pd.

(** [d0 = -(3*v)/(2*L) * ln(R)]. *)
Definition d0_value (v L : R) : R := (- (3 * v) / (2 * L) * logR)%Re.

(** The quadratic profile [d0 * (u/L)^2]. *)
Definition damping (u v L : R) : R := (d0_value v L * (u / L) ^ 2)%Re.

(** Size and first column of the block of worker [irank]. *)
Definition block_size (nx numProcesses irank : Z) : Z :=
  if irank <? nx mod numProcesses then nx / numProcesses + 1
  else nx / numProcesses.

Definition block_offset (nx numProcesses irank : Z) : Z :=
  irank * (nx / numProcesses) + Z.min irank (nx mod numProcesses).

(** [stencil_step] on the buffer of the array being written. *)
Definition stencil_step_buf (pData pCoeff : seq R) (dist : R)
    (iOrder o x1 x2 : Z) (buf : seq R) : outcome (seq R) :=
  let* acc := load 0%Re buf o in
  let* c := load 0%Re pCoeff iOrder in
  let* a := load 0%Re pData x1 in
  let* b := load 0%Re pData x2 in
  store 0%Re buf o (acc + c * (a - b) / dist)%Re.

(** The run did not end with an error message. *)
Definition no_fail {A : Type} (m : outcome A) : bool :=
  if m is Failed _ then false else true.

(** The two grid types and the strings that select them. *)
Inductive grid : Type := Regular | Staggered.

Definition type_name (g : grid) : string :=
  match g with
  | Regular => "r"
  | Staggered => "s"
  end.

(** The generating system of the specification:
    regular, [A[i][j] = (j+1)^(2*(i+1)-1)] and [b = [0.5, 0, ...]];
    staggered, [A[i][j] = (2*(j+1)-1)^(2*(i+1)-1)] and [b = [1, 0, ...]]. *)
Definition node (g : grid) (j : Z) : Z :=
  match g with
  | Regular => j + 1
  | Staggered => 2 * (j + 1) - 1
  end.

Definition system_entry (g : grid) (i j : Z) : R :=
  powerRZ (IZR (node g j)) (2 * (i + 1) - 1).

Definition system_rhs (g : grid) (i : Z) : R :=
  if i =? 0 then
    match g with
    | Regular => (1 / 2)%Re
    | Staggered => 1%Re
    end
  else 0%Re.

(** The x-axis damping of the grid column [g] (global index) at a point of
    velocity [v]: the quadratic profile of the distance to the inner edge of
    the padding, in the left padding [[0, boundary)] and in the right
    padding [[nx - boundary, nx)]; zero between the two. *)
Definition x_damping (nx boundary : Z) (dx : R) (g : Z) (v : R) : R :=
  if g <? boundary then
    damping (IZR (boundary - g) * dx) v (IZR boundary * dx)
  else if nx - boundary <=? g then
    damping (IZR (g - (nx - boundary) + 1) * dx) v (IZR boundary * dx)
  else 0%Re.

(** The polynomial [b 0 + b 1 * t + ... + b (n-1) * t^(n-1)]. *)
Definition poly_value (b : Z -> R) (n : nat) (t : R) : R :=
  sumR n (fun r => (b r * t ^ Z.to_nat r)%Re).

(** Heaps of the examples: [u] and [v] of shape [1 x 2]; an array [data]
    and a coefficient vector. *)
Definition heap_uv (pu pv : seq R) : heap :=
  [:: Some (MxArray [:: 1; 2] pu); Some (MxArray [:: 1; 2] pv)].

Definition heap_dc (dims : seq Z) (pData pCoeff : seq R) : heap :=
  [:: Some (MxArray dims pData);
      Some (MxArray [:: Zsize pCoeff; 1] pCoeff)].

(** ** Loops *)

Lemma bind_Returned {A : Type} (m : outcome A) :
  (let* x := m in Returned x) = m.
Proof. by case: m. Qed.

Lemma iterate_inv {S : Type} (I : Z -> S -> Prop) (body : Z -> S -> outcome S)
    (n : nat) (lo : Z) (s : S) :
  I lo s ->
  (forall i s0, lo <= i < lo + Z.of_nat n -> I i s0 ->
     exists s1, body i s0 = Returned s1 /\ I (i + 1) s1) ->
  exists s', iterate n lo body s = Returned s' /\ I (lo + Z.of_nat n) s'.
Proof.
elim: n lo s => [|n IH] lo s Hs Hstep.
  by exists s; split=> //; rewrite Z.add_0_r.
have Hlo : lo <= lo < lo + Z.of_nat n.+1 by lia.
have [s1 [E1 H1]] := Hstep lo s Hlo Hs.
have Hrest : forall i s0, lo + 1 <= i < lo + 1 + Z.of_nat n -> I i s0 ->
    exists s2, body i s0 = Returned s2 /\ I (i + 1) s2.
  by move=> i s0 Hi H0; apply: Hstep => //; lia.
have [s' [E' H']] := IH (lo + 1) s1 H1 Hrest.
exists s'; split; first by rewrite /= E1.
by have -> : lo + Z.of_nat n.+1 = lo + 1 + Z.of_nat n by lia.
Qed.

Lemma for_loop_inv {S : Type} (I : Z -> S -> Prop)
    (body : Z -> S -> outcome S) (lo hi : Z) (s : S) :
  lo <= hi -> I lo s ->
  (forall i s0, lo <= i < hi -> I i s0 ->
     exists s1, body i s0 = Returned s1 /\ I (i + 1) s1) ->
  exists s', for_loop lo hi body s = Returned s' /\ I hi s'.
Proof.
move=> Hle Hs Hstep.
have Hrest : forall i s0, lo <= i < lo + Z.of_nat (Z.to_nat (hi - lo)) ->
    I i s0 -> exists s1, body i s0 = Returned s1 /\ I (i + 1) s1.
  by move=> i s0 Hi H0; apply: Hstep => //; lia.
have [s' [E' H']] := iterate_inv Hs Hrest.
exists s'; split=> //.
by have <- : lo + Z.of_nat (Z.to_nat (hi - lo)) = hi by lia.
Qed.

Lemma for_loop_empty {S : Type} (body : Z -> S -> outcome S) (lo hi : Z)
    (s : S) :
  hi <= lo -> for_loop lo hi body s = Returned s.
Proof.
by move=> Hle; rewrite /for_loop; have -> : Z.to_nat (hi - lo) = 0%N by lia.
Qed.

Lemma iterate_ext {S : Type} (f g : Z -> S -> outcome S) (n : nat) (lo : Z)
    (s : S) :
  (forall i s0, lo <= i < lo + Z.of_nat n -> f i s0 = g i s0) ->
  iterate n lo f s = iterate n lo g s.
Proof.
elim: n lo s => [|n IH] lo s Hfg //=.
have Hlo : lo <= lo < lo + Z.of_nat n.+1 by lia.
rewrite (Hfg _ _ Hlo).
case: (g lo s) => //= s1.
by apply: IH => i s0 Hi; apply: Hfg; lia.
Qed.

Lemma for_loop_ext {S : Type} (f g : Z -> S -> outcome S) (lo hi : Z) (s : S) :
  (forall i s0, lo <= i < hi -> f i s0 = g i s0) ->
  for_loop lo hi f s = for_loop lo hi g s.
Proof.
move=> Hfg; apply: iterate_ext => i s0 Hi; apply: Hfg; lia.
Qed.

(** A loop on a state [H t] that only changes the component [t]. *)
Lemma iterate_lift {S T : Type} (H : T -> S) (f : Z -> S -> outcome S)
    (g : Z -> T -> outcome T) (n : nat) (lo : Z) (t : T) :
  (forall i t0, lo <= i < lo + Z.of_nat n ->
     f i (H t0) = let* t1 := g i t0 in Returned (H t1)) ->
  iterate n lo f (H t) = let* t' := iterate n lo g t in Returned (H t').
Proof.
elim: n lo t => [|n IH] lo t Hfg //=.
have Hlo : lo <= lo < lo + Z.of_nat n.+1 by lia.
rewrite (Hfg _ _ Hlo).
case: (g lo t) => //= t1.
by apply: IH => i t0 Hi; apply: Hfg; lia.
Qed.

Lemma for_loop_lift {S T : Type} (H : T -> S) (f : Z -> S -> outcome S)
    (g : Z -> T -> outcome T) (lo hi : Z) (t : T) :
  (forall i t0, lo <= i < hi ->
     f i (H t0) = let* t1 := g i t0 in Returned (H t1)) ->
  for_loop lo hi f (H t) = let* t' := for_loop lo hi g t in Returned (H t').
Proof.
move=> Hfg; apply: iterate_lift => i t0 Hi; apply: Hfg; lia.
Qed.

Lemma iterate_shift {S : Type} (f : Z -> S -> outcome S) (n : nat)
    (lo d : Z) (s : S) :
  iterate n (lo + d) f s = iterate n lo (fun i => f (i + d)) s.
Proof.
elim: n lo s => [|n IH] lo s //=.
case: (f (lo + d) s) => //= s1.
by rewrite -IH; congr (iterate _ _ _ _); lia.
Qed.

Lemma for_loop_shift {S : Type} (f : Z -> S -> outcome S) (lo hi : Z) (s : S) :
  for_loop lo hi f s = for_loop 0 (hi - lo) (fun i => f (lo + i)) s.
Proof.
rewrite /for_loop Z.sub_0_r -[lo in LHS]Z.add_0_l iterate_shift.
by apply: iterate_ext => i s0 _; rewrite Z.add_comm.
Qed.

Lemma for_loop_once {S : Type} (f : Z -> S -> outcome S) (s : S) :
  for_loop 0 1 f s = f 0 s.
Proof. by rewrite /for_loop /= bind_Returned. Qed.

(** ** Buffers *)

Section Buffers.
Variable T : Type.
Variable d : T.
Implicit Types (p : seq T) (i j : Z) (x : T).

Lemma Zsize_ge0 p : 0 <= Zsize p.
Proof. rewrite /Zsize; lia. Qed.

Lemma in_bounds_true p i : 0 <= i < Zsize p -> in_bounds p i = true.
Proof. rewrite /in_bounds; lia. Qed.

Lemma in_bounds_false p i : ~ (0 <= i < Zsize p) -> in_bounds p i = false.
Proof. rewrite /in_bounds; lia. Qed.

Lemma load_ok p i : 0 <= i < Zsize p -> load d p i = Returned (get d p i).
Proof. by move=> Hi; rewrite /load in_bounds_true. Qed.

Lemma store_ok p i x :
  0 <= i < Zsize p -> store d p i x = Returned (upd d p i x).
Proof. by move=> Hi; rewrite /store in_bounds_true. Qed.

Lemma Zsize_upd p i x : 0 <= i < Zsize p -> Zsize (upd d p i x) = Zsize p.
Proof.
rewrite /Zsize /upd size_set_nth => Hi.
have /maxn_idPr -> // : ((Z.to_nat i).+1 <= size p)%N.
by apply/ltP; lia.
Qed.

Lemma get_upd p i j x :
  0 <= i -> 0 <= j ->
  get d (upd d p i x) j = if j =? i then x else get d p j.
Proof.
move=> Hi Hj; rewrite /get /upd nth_set_nth /=.
case: eqP => [E|NE]; case: Z.eqb_spec => //; lia.
Qed.

Lemma get_upd_same p i x : 0 <= i -> get d (upd d p i x) i = x.
Proof. by move=> Hi; rewrite get_upd // Z.eqb_refl. Qed.

Lemma get_upd_other p i j x :
  0 <= i -> 0 <= j -> j <> i -> get d (upd d p i x) j = get d p j.
Proof. by move=> Hi Hj NE; rewrite get_upd //; case: Z.eqb_spec. Qed.

Lemma Zsize_nseq (n : Z) : 0 <= n -> Zsize (nseq (Z.to_nat n) d) = n.
Proof. rewrite /Zsize size_nseq; lia. Qed.

Lemma get_nseq (n : Z) i : get d (nseq (Z.to_nat n) d) i = d.
Proof. by rewrite /get nth_nseq; case: ifP. Qed.

Lemma mxCalloc_ok (n : Z) :
  0 <= n -> mxCalloc d n = Returned (nseq (Z.to_nat n) d).
Proof. by rewrite /mxCalloc => /Z.leb_le ->. Qed.

End Buffers.

(** ** A nest of three loops that updates each cell [oi a b i] once *)

Section Sweep3.

Variables (na nb ni N : Z) (oi : Z -> Z -> Z -> Z).
Variable F : Z -> Z -> Z -> R -> R.
Variable body : Z -> Z -> Z -> seq R -> outcome (seq R).
Variable buf0 : seq R.

Definition in_range (a b i : Z) : Prop :=
  0 <= a < na /\ 0 <= b < nb /\ 0 <= i < ni.

Definition visited (a b i a' b' i' : Z) : bool :=
  (a' <? a) || ((a' =? a) && ((b' <? b) || ((b' =? b) && (i' <? i)))).

Definition swept (a b i : Z) (buf : seq R) : Prop :=
  [/\ Zsize buf = N,
      forall a' b' i', in_range a' b' i' ->
        get 0%Re buf (oi a' b' i') =
        if visited a b i a' b' i'
        then F a' b' i' (get 0%Re buf0 (oi a' b' i'))
        else get 0%Re buf0 (oi a' b' i')
    & forall k, 0 <= k < N ->
        (forall a' b' i', in_range a' b' i' -> k <> oi a' b' i') ->
        get 0%Re buf k = get 0%Re buf0 k].

Hypothesis Hna : 0 <= na.
Hypothesis Hnb : 0 <= nb.
Hypothesis Hni : 0 <= ni.
Hypothesis oi_bound : forall a b i, in_range a b i -> 0 <= oi a b i < N.
Hypothesis oi_inj : forall a b i a' b' i',
  in_range a b i -> in_range a' b' i' -> oi a b i = oi a' b' i' ->
  [/\ a = a', b = b' & i = i'].
Hypothesis Hsize : Zsize buf0 = N.
Hypothesis body_ok : forall a b i buf,
  in_range a b i -> Zsize buf = N ->
  get 0%Re buf (oi a b i) = get 0%Re buf0 (oi a b i) ->
  body a b i buf =
  Returned (upd 0%Re buf (oi a b i) (F a b i (get 0%Re buf0 (oi a b i)))).

Lemma swept_start : swept 0 0 0 buf0.
Proof.
split=> // a' b' i' [Ha [Hb Hi]].
by rewrite /visited; do ![case: Z.ltb_spec => //=; try lia];
   rewrite ?andbF.
Qed.

Lemma swept_eq (a b i a1 b1 i1 : Z) (buf : seq R) :
  (forall a' b' i', in_range a' b' i' ->
     visited a b i a' b' i' = visited a1 b1 i1 a' b' i') ->
  swept a b i buf -> swept a1 b1 i1 buf.
Proof.
move=> Hv [Hs Hin Hout]; split=> // a' b' i' Hr.
by rewrite -Hv // Hin.
Qed.

Lemma swept_step (a b i : Z) (buf : seq R) :
  in_range a b i -> swept a b i buf ->
  exists buf', body a b i buf = Returned buf' /\ swept a b (i + 1) buf'.
Proof.
move=> Hr [Hs Hin Hout].
have Ho := oi_bound Hr.
have Hcur : get 0%Re buf (oi a b i) = get 0%Re buf0 (oi a b i).
  rewrite Hin // /visited.
  by rewrite Z.ltb_irrefl Z.eqb_refl Z.ltb_irrefl Z.eqb_refl Z.ltb_irrefl.
exists (upd 0%Re buf (oi a b i) (F a b i (get 0%Re buf0 (oi a b i)))).
split; first exact: body_ok.
split.
- by rewrite Zsize_upd // Hs.
- move=> a' b' i' Hr'.
  have Ho' := oi_bound Hr'.
  rewrite get_upd; try lia.
  case: Z.eqb_spec => [E|NE].
    have [-> -> ->] := oi_inj Hr' Hr E.
    rewrite /visited Z.ltb_irrefl !Z.eqb_refl Z.ltb_irrefl /=.
    by have -> : (i <? i + 1) = true by lia.
  rewrite Hin //.
  have -> // : visited a b (i + 1) a' b' i' = visited a b i a' b' i'.
  rewrite /visited.
  case: (Z.eqb_spec a' a) => [Ea|//]; rewrite /=.
  case: (Z.eqb_spec b' b) => [Eb|//]; rewrite /=.
  have Hi' : i' <> i by move=> Ei; apply: NE; rewrite Ea Eb Ei.
  congr (_ || (_ || _)); lia.
- move=> k Hk Hnot.
  have NE : k <> oi a b i by exact: Hnot.
  by rewrite get_upd_other; try lia; exact: Hout.
Qed.

Lemma sweep3_run :
  exists buf',
    [/\ for_loop 0 na (fun a => for_loop 0 nb (fun b =>
          for_loop 0 ni (body a b))) buf0 = Returned buf',
        Zsize buf' = N,
        forall a b i, in_range a b i ->
          get 0%Re buf' (oi a b i) = F a b i (get 0%Re buf0 (oi a b i))
      & forall k, 0 <= k < N ->
          (forall a b i, in_range a b i -> k <> oi a b i) ->
          get 0%Re buf' k = get 0%Re buf0 k].
Proof.
have [buf' [E [Hs Hin Hout]]] :
    exists buf', for_loop 0 na (fun a => for_loop 0 nb (fun b =>
      for_loop 0 ni (body a b))) buf0 = Returned buf' /\ swept na 0 0 buf'.
  apply: (for_loop_inv (I := fun a => swept a 0 0)) => //.
    exact: swept_start.
  move=> a buf Ha Hsw.
  have [buf1 [E1 H1]] :
      exists buf1, for_loop 0 nb (fun b => for_loop 0 ni (body a b)) buf
                   = Returned buf1 /\ swept a nb 0 buf1.
    apply: (for_loop_inv (I := fun b => swept a b 0)) => //.
    move=> b buf2 Hb Hsw2.
    have [buf3 [E3 H3]] :
        exists buf3, for_loop 0 ni (body a b) buf2 = Returned buf3
                     /\ swept a b ni buf3.
      apply: (for_loop_inv (I := fun i => swept a b i)) => //.
      by move=> i buf4 Hi Hsw4; apply: swept_step.
    exists buf3; split=> //.
    apply: swept_eq H3 => a' b' i' [Ha' [Hb' Hi']].
    rewrite /visited; congr (_ || (_ && _)); lia.
  exists buf1; split=> //.
  apply: swept_eq H1 => a' b' i' [Ha' [Hb' Hi']].
  rewrite /visited; lia.
exists buf'; split=> // a b i Hr.
rewrite Hin //; case: Hr => Ha _.
by rewrite /visited; have -> : (a <? na) = true by lia.
Qed.

End Sweep3.

(** The same for a nest of two loops. *)

Section Sweep2.

Variables (nb ni N : Z) (oi : Z -> Z -> Z).
Variable F : Z -> Z -> R -> R.
Variable body : Z -> Z -> seq R -> outcome (seq R).
Variable buf0 : seq R.

Definition in_range2 (b i : Z) : Prop := 0 <= b < nb /\ 0 <= i < ni.

Hypothesis Hnb : 0 <= nb.
Hypothesis Hni : 0 <= ni.
Hypothesis oi_bound : forall b i, in_range2 b i -> 0 <= oi b i < N.
Hypothesis oi_inj : forall b i b' i',
  in_range2 b i -> in_range2 b' i' -> oi b i = oi b' i' -> b = b' /\ i = i'.
Hypothesis Hsize : Zsize buf0 = N.
Hypothesis body_ok : forall b i buf,
  in_range2 b i -> Zsize buf = N ->
  get 0%Re buf (oi b i) = get 0%Re buf0 (oi b i) ->
  body b i buf =
  Returned (upd 0%Re buf (oi b i) (F b i (get 0%Re buf0 (oi b i)))).

Lemma sweep2_run :
  exists buf',
    [/\ for_loop 0 nb (fun b => for_loop 0 ni (body b)) buf0 = Returned buf',
        Zsize buf' = N,
        forall b i, in_range2 b i ->
          get 0%Re buf' (oi b i) = F b i (get 0%Re buf0 (oi b i))
      & forall k, 0 <= k < N ->
          (forall b i, in_range2 b i -> k <> oi b i) ->
          get 0%Re buf' k = get 0%Re buf0 k].
Proof.
have [||||a b i a' b' i' [Ha [Hb Hi]] [Ha' [Hb' Hi']] E||
      |buf' [E Hs Hin Hout]] :=
  @sweep3_run 1 nb ni N (fun _ => oi) (fun _ => F) (fun _ => body) buf0.
- by [].
- by [].
- by [].
- by move=> a b i [_ [Hb Hi]]; apply: oi_bound.
- have [-> ->] := @oi_inj b i b' i' (conj Hb Hi) (conj Hb' Hi') E.
  by split=> //; lia.
- by [].
- by move=> a b i buf [_ [Hb Hi]]; apply: body_ok.
- exists buf'; split=> //.
  + by rewrite -E for_loop_once.
  + by move=> b i [Hb Hi]; apply: (Hin 0).
  + move=> k Hk Hnot; apply: Hout => // a b i [_ [Hb Hi]].
    exact: Hnot.
Qed.

End Sweep2.

(** ** Offsets *)

Lemma lin2_bound (m n j i : Z) :
  0 <= j < n -> 0 <= i < m -> 0 <= j * m + i < m * n.
Proof. nia. Qed.

Lemma lin2_inj (m j i j' i' : Z) :
  0 <= i < m -> 0 <= i' < m -> j * m + i = j' * m + i' -> j = j' /\ i = i'.
Proof.
move=> Hi Hi' E.
have Ej : j = j'.
  case: (Z.lt_trichotomy j j') => [Hlt|[//|Hgt]]; nia.
by split=> //; subst j'; lia.
Qed.

Lemma lin2_surj (m n k : Z) :
  0 <= m -> 0 <= k < m * n ->
  exists j i, [/\ 0 <= j < n, 0 <= i < m & k = j * m + i].
Proof.
move=> Hm Hk.
have Hm0 : 0 < m.
  by case: (Z.eq_dec m 0) => [E|]; [rewrite E in Hk|]; lia.
exists (k / m), (k mod m).
have Hmod := Z.mod_pos_bound k m Hm0.
have Hdiv : k = m * (k / m) + k mod m by apply: Z.div_mod; lia.
split=> //; last lia.
split; first by apply: Z.div_pos; lia.
apply: Z.div_lt_upper_bound; lia.
Qed.

(** ** The heap *)

Lemma set_nth_size {T : Type} (d : T) (s : seq T) (x : T) :
  set_nth d s (size s) x = rcons s x.
Proof. by elim: s => //= y s ->. Qed.

Lemma with_cell_fresh (h : heap) (ds : seq Z) (buf : seq R) :
  with_cell h (size h) ds buf = rcons h (Some (MxArray ds buf)).
Proof. exact: set_nth_size. Qed.

Lemma with_cell_twice (h : heap) (p : handle) (ds ds' : seq Z)
    (buf buf' : seq R) :
  with_cell (with_cell h p ds buf) p ds' buf' = with_cell h p ds' buf'.
Proof. by rewrite /with_cell set_set_nth eqxx. Qed.

Lemma deref_with_cell (h : heap) (p : handle) (ds : seq Z) (buf : seq R) :
  deref (with_cell h p ds buf) p = Returned (MxArray ds buf).
Proof. by rewrite /deref /with_cell nth_set_nth /= eqxx. Qed.

Lemma deref_other (h : heap) (p q : handle) (ds : seq Z) (buf : seq R) :
  q <> p -> deref (with_cell h p ds buf) q = deref h q.
Proof. by move=> /eqP/negPf NE; rewrite /deref /with_cell nth_set_nth /= NE. Qed.

Lemma deref_size (h : heap) (p : handle) (a : mxArray) :
  deref h p = Returned a -> (p < size h)%N.
Proof.
rewrite /deref; case: (ltnP p (size h)) => // Hge.
by rewrite nth_default.
Qed.

Lemma deref_rcons (h : heap) (p : handle) (a : mxArray) (c : option mxArray) :
  deref h p = Returned a -> deref (rcons h c) p = Returned a.
Proof.
by move=> E; rewrite /deref nth_rcons (deref_size E); exact: E.
Qed.

Lemma rd_cell (h : heap) (p : handle) (ds : seq Z) (buf : seq R) (i : Z) :
  rd p i (with_cell h p ds buf) = load 0%Re buf i.
Proof. by rewrite /rd deref_with_cell. Qed.

Lemma rd_other (h : heap) (p q : handle) (ds : seq Z) (buf : seq R) (i : Z)
    (a : mxArray) :
  q <> p -> deref h q = Returned a ->
  rd q i (with_cell h p ds buf) = load 0%Re (mxGetPr a) i.
Proof. by move=> NE E; rewrite /rd deref_other // E. Qed.

Lemma wr_cell (h : heap) (p : handle) (ds : seq Z) (buf : seq R) (i : Z)
    (x : R) :
  wr p i x (with_cell h p ds buf) =
  let* buf' := store 0%Re buf i x in Returned (with_cell h p ds buf').
Proof.
rewrite /wr deref_with_cell /=.
by case: (store _ _ _ _) => //= buf'; rewrite -/(with_cell _ _ _ _) with_cell_twice.
Qed.

Lemma mxCreateNumericArray_ok (ndim : Z) (dims : seq Z) (h : heap) :
  ndim = Zsize dims -> all (Z.leb 0) dims ->
  mxCreateNumericArray ndim dims h =
  Returned (size h,
            with_cell h (size h) dims (nseq (Z.to_nat (numel dims)) 0%Re)).
Proof.
move=> -> Hpos; rewrite /mxCreateNumericArray Z.leb_refl /=.
have -> : Z.to_nat (Zsize dims) = size dims by rewrite /Zsize; lia.
by rewrite take_size Hpos /alloc with_cell_fresh.
Qed.

Lemma mxCreateDoubleMatrix_ok (m n : Z) (h : heap) :
  0 <= m -> 0 <= n ->
  mxCreateDoubleMatrix m n h =
  Returned (size h,
            with_cell h (size h) [:: m; n] (nseq (Z.to_nat (m * n)) 0%Re)).
Proof.
move=> Hm Hn.
have Hpos : all (Z.leb 0) [:: m; n].
  by rewrite /= andbT; apply/andP; split; apply/Z.leb_le.
rewrite /mxCreateDoubleMatrix (mxCreateNumericArray_ok h (erefl _) Hpos).
by rewrite /numel /= Z.mul_1_r.
Qed.

(** ** [dampPml] *)

Lemma dampPml_loops_run (pu pv : seq R) (m n : Z) (L : R) :
  0 <= m -> 0 <= n -> Zsize pu = m * n -> Zsize pv = m * n ->
  exists pd,
    [/\ dampPml_loops pu pv m n L = Returned pd,
        Zsize pd = m * n
      & forall k, 0 <= k < m * n ->
          get 0%Re pd k = damping (get 0%Re pu k) (get 0%Re pv k) L].
Proof.
move=> Hm Hn Hu Hv.
have Hmn : 0 <= m * n by nia.
rewrite /dampPml_loops mxCalloc_ok //=.
set z := nseq _ _.
have Hz : Zsize z = m * n by rewrite /z Zsize_nseq.
have Hb : forall j i, in_range2 n m j i -> 0 <= j * m + i < m * n.
  by move=> j i [Hj Hi]; apply: lin2_bound.
have Hinj : forall j i j' i', in_range2 n m j i -> in_range2 n m j' i' ->
    j * m + i = j' * m + i' -> j = j' /\ i = i'.
  by move=> j i j' i' [_ Hi] [_ Hi']; apply: lin2_inj.
have [|pd0 [-> Hs0 Hin0 _]] /= :=
  @sweep2_run n m (m * n) (fun j i => j * m + i)
    (fun j i _ => d0_value (get 0%Re pv (j * m + i)) L)
    (fun j i pd0 => let* x := load 0%Re pv (j * m + i) in
       store 0%Re pd0 (j * m + i) (- (3 * x) / (2 * L) * logR)%Re)
    z Hn Hm Hb Hinj Hz.
  move=> j i buf Hr Hs _; have Hk := Hb _ _ Hr.
  by rewrite load_ok ?Hv //= store_ok ?Hs.
have [|pd [-> Hs Hin _]] /= :=
  @sweep2_run n m (m * n) (fun j i => j * m + i)
    (fun j i _ => damping (get 0%Re pu (j * m + i)) (get 0%Re pv (j * m + i)) L)
    (fun j i pd => let* x0 := load 0%Re pd0 (j * m + i) in
       let* x := load 0%Re pu (j * m + i) in
       store 0%Re pd (j * m + i) (x0 * (x / L) * (x / L))%Re)
    z Hn Hm Hb Hinj Hz.
  move=> j i buf Hr Hs _; have Hk := Hb _ _ Hr.
  rewrite load_ok ?Hs0 //= load_ok ?Hu //= store_ok ?Hs //.
  by rewrite Hin0 // /damping /=; congr (Returned (upd _ _ _ _)); ring.
exists pd; split=> // k Hk.
have [j [i [Hj Hi ->]]] := lin2_surj Hm Hk.
exact: Hin.
Qed.

Lemma for_loop2_lift {S T : Type} (H : T -> S) (f : Z -> Z -> S -> outcome S)
    (g : Z -> Z -> T -> outcome T) (n m : Z) (t : T) :
  (forall j i t0, 0 <= j < n -> 0 <= i < m ->
     f j i (H t0) = let* t1 := g j i t0 in Returned (H t1)) ->
  for_loop 0 n (fun j => for_loop 0 m (f j)) (H t) =
  let* t' := for_loop 0 n (fun j => for_loop 0 m (g j)) t in Returned (H t').
Proof.
move=> Hfg; apply: for_loop_lift => j t0 Hj.
by apply: for_loop_lift => i t1 Hi; apply: Hfg.
Qed.

Lemma set_nth_rcons2 {T : Type} (d : T) (s : seq T) (a b c : T) :
  set_nth d (rcons (rcons s a) b) (size s) c = rcons (rcons s c) b.
Proof. by elim: s => //= y s ->. Qed.

Lemma dampPml_as_raw (u v : handle) (L : R) (h : heap) (U V : mxArray) :
  deref h u = Returned U -> deref h v = Returned V ->
  mxGetM U = mxGetM V -> mxGetN U = mxGetN V ->
  0 <= mxGetM U -> 0 <= mxGetN U ->
  dampPml u v L h =
  let* pd := dampPml_loops (mxGetPr U) (mxGetPr V) (mxGetM U) (mxGetN U) L in
  Returned ((size h).+1,
            rcons (rcons h None)
                  (Some (MxArray [:: mxGetM U; mxGetN U] pd))).
Proof.
move=> EU EV EM EN Hm Hn.
have Hu := deref_size EU; have Hv := deref_size EV.
have NEu : u <> size h by move=> E; rewrite E ltnn in Hu.
have NEv : v <> size h by move=> E; rewrite E ltnn in Hv.
rewrite /dampPml EU EV /= -EM -EN !Z.eqb_refl /=.
set m := mxGetM U; set n := mxGetN U.
rewrite mxCreateDoubleMatrix_ok //= /dampPml_loops.
have Hmn : 0 <= m * n by nia.
rewrite mxCalloc_ok //=.
set z := nseq _ _.
rewrite (for_loop2_lift (H := with_cell h (size h) [:: m; n])
  (g := fun j i pd0 => let* x := load 0%Re (mxGetPr V) (j * m + i) in
          store 0%Re pd0 (j * m + i) (- (3 * x) / (2 * L) * logR)%Re)).
  move=> j i t0 _ _; rewrite (rd_other _ _ _ NEv EV).
  by case: (load _ _ _) => //= x; rewrite wr_cell.
case: (for_loop 0 n _ z) => //= pd0.
set h1 := with_cell h (size h) _ pd0.
have Eh1 : h1 = rcons h (Some (MxArray [:: m; n] pd0)) by apply: with_cell_fresh.
have Sh1 : size h1 = (size h).+1 by rewrite Eh1 size_rcons.
rewrite mxCreateDoubleMatrix_ok //= Sh1 -/z.
have Ed0 : deref h1 (size h) = Returned (MxArray [:: m; n] pd0).
  exact: deref_with_cell.
have Eu1 : deref h1 u = Returned U by rewrite /h1 deref_other.
have NEd : size h <> (size h).+1 by move=> /eqP; rewrite -[X in X == _]addn0 -addn1 eqn_add2l.
have NEu1 : u <> (size h).+1.
  by move=> E; move: Hu; rewrite E ltnNge leqnSn.
rewrite (for_loop2_lift (H := with_cell h1 (size h).+1 [:: m; n])
  (g := fun j i pd => let* x0 := load 0%Re pd0 (j * m + i) in
          let* x := load 0%Re (mxGetPr U) (j * m + i) in
          store 0%Re pd (j * m + i) (x0 * (x / L) * (x / L))%Re)).
  move=> j i t0 _ _; rewrite (rd_other _ _ _ NEd Ed0) /=.
  case: (load _ pd0 _) => //= x0; rewrite (rd_other _ _ _ NEu1 Eu1).
  by case: (load _ _ _) => //= x; rewrite wr_cell.
case: (for_loop 0 n _ z) => //= pd.
rewrite /mxDestroyArray deref_other // Ed0 /=.
by rewrite -Sh1 with_cell_fresh Eh1 set_nth_rcons2.
Qed.

Lemma all_nonneg_numel (ds : seq Z) : all (Z.leb 0) ds -> 0 <= numel ds.
Proof.
elim: ds => [|x ds IH] //= /andP [/Z.leb_le Hx /IH Hds].
exact: Z.mul_nonneg_nonneg.
Qed.

Lemma well_formed_shape (a : mxArray) :
  well_formed a ->
  [/\ 0 <= mxGetM a, 0 <= mxGetN a
    & Zsize (mxGetPr a) = mxGetM a * mxGetN a].
Proof.
rewrite /well_formed /mxGetM /mxGetN; case: (mxGetDimensions a) => [|m ds] //=.
  by case.
case=> _ /andP [/Z.leb_le Hm Hds] ->; split=> //.
exact: all_nonneg_numel.
Qed.

Lemma deref_rcons_last (h : heap) (a : mxArray) :
  deref (rcons h (Some a)) (size h) = Returned a.
Proof. by rewrite /deref nth_rcons ltnn eqxx. Qed.

(** What a call of [dampPml] does, in one statement. *)
Lemma dampPml_run (u v : handle) (L : R) (h : heap) (U V : mxArray) :
  deref h u = Returned U -> deref h v = Returned V ->
  well_formed U -> well_formed V ->
  mxGetDimensions U = mxGetDimensions V ->
  exists pd,
    [/\ dampPml u v L h =
        Returned ((size h).+1,
                  rcons (rcons h None)
                        (Some (MxArray [:: mxGetM U; mxGetN U] pd))),
        Zsize pd = mxGetM U * mxGetN U
      & forall k, 0 <= k < mxGetM U * mxGetN U ->
          get 0%Re pd k =
          damping (get 0%Re (mxGetPr U) k) (get 0%Re (mxGetPr V) k) L].
Proof.
move=> EU EV /well_formed_shape [Hm Hn HsU] /well_formed_shape [_ _ HsV] Edims.
have EM : mxGetM U = mxGetM V by rewrite /mxGetM Edims.
have EN : mxGetN U = mxGetN V by rewrite /mxGetN Edims.
rewrite -EM -EN in HsV.
have [pd [Eraw Hs Hpd]] := dampPml_loops_run L Hm Hn HsU HsV.
by exists pd; split=> //; rewrite (dampPml_as_raw L EU EV) // Eraw.
Qed.

(** The same for the call on raw buffers. *)
Lemma dampPml_buffers_run (pu pv : seq R) (m n : Z) (L : R) :
  0 <= m -> 0 <= n -> Zsize pu = m * n -> Zsize pv = m * n ->
  exists pd,
    [/\ dampPml_buffers pu pv m n L = Returned pd,
        Zsize pd = m * n
      & forall k, 0 <= k < m * n ->
          get 0%Re pd k = damping (get 0%Re pu k) (get 0%Re pv k) L].
Proof.
move=> Hm Hn Hu Hv.
have Hpos : all (Z.leb 0) [:: m; n].
  by rewrite /= andbT; apply/andP; split; apply/Z.leb_le.
have WU : well_formed (MxArray [:: m; n] pu).
  by split=> //=; rewrite Z.mul_1_r.
have WV : well_formed (MxArray [:: m; n] pv).
  by split=> //=; rewrite Z.mul_1_r.
have [pd [E Hs Hpd]] :=
  @dampPml_run 0%N 1%N L
    [:: Some (MxArray [:: m; n] pu); Some (MxArray [:: m; n] pv)]
    (MxArray [:: m; n] pu) (MxArray [:: m; n] pv)
    (erefl _) (erefl _) WU WV (erefl _).
move: E Hs Hpd; rewrite /mxGetM /mxGetN /= Z.mul_1_r => E Hs Hpd.
exists pd; split=> //.
by rewrite /dampPml_buffers E.
Qed.

Lemma logR_neg : (logR < 0)%Re.
Proof.
rewrite /logR /Rcoef -ln_1; apply: ln_increasing; lra.
Qed.

Lemma damping_at_0 (v L : R) : damping 0 v L = 0%Re.
Proof. by rewrite /damping /Rdiv Rmult_0_l /=; ring. Qed.

Lemma d0_value_nonneg (v L : R) :
  (0 <= v -> 0 < L -> 0 <= d0_value v L)%Re.
Proof.
move=> Hv HL; have Hlog := logR_neg.
have HiL : (0 < / (2 * L))%Re by apply: Rinv_0_lt_compat; lra.
rewrite /d0_value /Rdiv.
have -> : (- (3 * v) * / (2 * L) * logR = (3 * v) * (/ (2 * L) * - logR))%Re
  by ring.
apply: Rmult_le_pos; first lra.
by apply: Rmult_le_pos; lra.
Qed.

Lemma d0_value_pos (v L : R) : (0 < v -> 0 < L -> 0 < d0_value v L)%Re.
Proof.
move=> Hv HL; have Hlog := logR_neg.
have HiL : (0 < / (2 * L))%Re by apply: Rinv_0_lt_compat; lra.
rewrite /d0_value /Rdiv.
have -> : (- (3 * v) * / (2 * L) * logR = (3 * v) * (/ (2 * L) * - logR))%Re
  by ring.
apply: Rmult_lt_0_compat; first lra.
by apply: Rmult_lt_0_compat; lra.
Qed.

Lemma damping_nonneg (u v L : R) : (0 <= v -> 0 < L -> 0 <= damping u v L)%Re.
Proof.
move=> Hv HL; rewrite /damping; apply: Rmult_le_pos.
  exact: d0_value_nonneg.
exact: pow2_ge_0.
Qed.

Lemma damping_increasing (u u' v L : R) :
  (0 < v -> 0 < L -> Rabs u < Rabs u' -> damping u v L < damping u' v L)%Re.
Proof.
move=> Hv HL Hu; rewrite /damping.
apply: Rmult_lt_compat_l; first exact: d0_value_pos.
have HiL : (0 < / L)%Re by apply: Rinv_0_lt_compat.
have Hsq : (Rsqr u < Rsqr u')%Re by apply: Rsqr_lt_abs_1.
have -> : ((u / L) ^ 2 = Rsqr u * (/ L * / L))%Re by rewrite /Rsqr /Rdiv /=; ring.
have -> : ((u' / L) ^ 2 = Rsqr u' * (/ L * / L))%Re
  by rewrite /Rsqr /Rdiv /=; ring.
apply: Rmult_lt_compat_r => //.
exact: Rmult_lt_0_compat.
Qed.

(** C7.  For same-shaped arrays [u] and [v] (cells of the heap) and a width
    [L], [dampPml] returns a new [m x n] array whose entry at every point is
    [d0 * (u/L)^2] with [d0 = -(3*v)/(2*L) * ln(1e-6)].  The heap after the
    call is the heap before it followed by the emptied cell of the scratch
    array [d0] and by the result: no cell of the caller, [u] and [v]
    included, is changed, and nothing else is left behind. *)
Theorem dampPml_quadratic_profile (u v : handle) (L : R) (h : heap)
    (U V : mxArray) :
  deref h u = Returned U -> deref h v = Returned V ->
  well_formed U -> well_formed V ->
  mxGetDimensions U = mxGetDimensions V ->
  exists pd : seq R,
    let h' := rcons (rcons h None)
                    (Some (MxArray [:: mxGetM U; mxGetN U] pd)) in
    [/\ dampPml u v L h = Returned ((size h).+1, h'),
        Zsize pd = mxGetM U * mxGetN U,
        forall k, 0 <= k < mxGetM U * mxGetN U ->
          get 0%Re pd k =
          (- (3 * get 0 (mxGetPr V) k) / (2 * L) * ln (1 / 1000000)
           * (get 0 (mxGetPr U) k / L) ^ 2)%Re,
        deref h' u = Returned U /\ deref h' v = Returned V
      & forall p a, deref h p = Returned a -> deref h' p = Returned a].
Proof.
move=> EU EV WU WV Edims.
have [pd [E Hs Hpd]] := dampPml_run L EU EV WU WV Edims.
exists pd; split=> //.
- by split; do 2!apply: deref_rcons.
- by move=> p a Ep; do 2!apply: deref_rcons.
Qed.

Lemma dampPml_quadratic_profile_witness :
  exists pd : seq R,
    dampPml 0%N 1%N 2%Re (heap_uv [:: 1; 2]%Re [:: 3; 4]%Re) =
    Returned (3%N, rcons (rcons (heap_uv [:: 1; 2]%Re [:: 3; 4]%Re) None)
                         (Some (MxArray [:: 1; 2] pd))).
Proof.
have [//|//|//|//|//|pd [E _ _ _ _]] :=
  @dampPml_quadratic_profile 0%N 1%N 2%Re (heap_uv [:: 1; 2]%Re [:: 3; 4]%Re)
    (MxArray [:: 1; 2] [:: 1; 2]%Re) (MxArray [:: 1; 2] [:: 3; 4]%Re).
by exists pd.
Defined.

(** C8, as the code has it.  For a positive width [L], the array returned
    by [dampPml] is zero wherever [u] is zero and non-negative wherever the
    velocity is non-negative; between two points of equal, strictly
    positive velocity it is strictly increasing in [|u|]. *)
Theorem dampPml_sign_and_growth (u v : handle) (L : R) (h : heap)
    (U V : mxArray) :
  deref h u = Returned U -> deref h v = Returned V ->
  well_formed U -> well_formed V ->
  mxGetDimensions U = mxGetDimensions V ->
  (0 < L)%Re ->
  exists pd : seq R,
    [/\ dampPml u v L h =
        Returned ((size h).+1,
                  rcons (rcons h None)
                        (Some (MxArray [:: mxGetM U; mxGetN U] pd))),
        forall k, 0 <= k < mxGetM U * mxGetN U ->
          get 0%Re (mxGetPr U) k = 0%Re -> get 0%Re pd k = 0%Re,
        forall k, 0 <= k < mxGetM U * mxGetN U ->
          (0 <= get 0 (mxGetPr V) k)%Re -> (0 <= get 0 pd k)%Re
      & forall k k', 0 <= k < mxGetM U * mxGetN U ->
          0 <= k' < mxGetM U * mxGetN U ->
          get 0%Re (mxGetPr V) k = get 0%Re (mxGetPr V) k' ->
          (0 < get 0 (mxGetPr V) k)%Re ->
          (Rabs (get 0 (mxGetPr U) k) < Rabs (get 0 (mxGetPr U) k'))%Re ->
          (get 0 pd k < get 0 pd k')%Re].
Proof.
move=> EU EV WU WV Edims HL.
have [pd [E Hs Hpd]] := dampPml_run L EU EV WU WV Edims.
exists pd; split=> //.
- by move=> k Hk Hu; rewrite Hpd // Hu damping_at_0.
- by move=> k Hk Hv; rewrite Hpd //; apply: damping_nonneg.
- move=> k k' Hk Hk' Ev Hv Hu; rewrite !Hpd // -Ev.
  exact: damping_increasing.
Qed.

Lemma dampPml_sign_and_growth_witness :
  exists pd : seq R,
    dampPml 0%N 1%N 2%Re (heap_uv [:: 1; 2]%Re [:: 3; 3]%Re) =
    Returned (3%N, rcons (rcons (heap_uv [:: 1; 2]%Re [:: 3; 3]%Re) None)
                         (Some (MxArray [:: 1; 2] pd)))
    /\ (get 0 pd 0 < get 0 pd 1)%Re.
Proof.
have [//|//|//|//|//||pd [E _ _ Hgrow]] :=
  @dampPml_sign_and_growth 0%N 1%N 2%Re (heap_uv [:: 1; 2]%Re [:: 3; 3]%Re)
    (MxArray [:: 1; 2] [:: 1; 2]%Re) (MxArray [:: 1; 2] [:: 3; 3]%Re).
  lra.
exists pd; split=> //.
apply: Hgrow; rewrite /get /=; try lia; try lra.
rewrite !Rabs_pos_eq; lra.
Defined.

(** The claim C8 fails where the velocity is zero, and where the width is
    zero: the profile is then flat, although [|u|] grows from the first
    point to the second. *)
Lemma dampPml_not_strictly_increasing :
  (exists pd : seq R,
    [/\ dampPml 0%N 1%N 1%Re (heap_uv [:: 1; 2]%Re [:: 0; 0]%Re) =
        Returned (3%N, rcons (rcons (heap_uv [:: 1; 2]%Re [:: 0; 0]%Re) None)
                             (Some (MxArray [:: 1; 2] pd))),
        (0 <= get 0 [:: 0; 0] 0)%Re /\ (0 <= 1)%Re,
        (Rabs (get 0 [:: 1; 2] 0) < Rabs (get 0 [:: 1; 2] 1))%Re
      & ~ (get 0 pd 0 < get 0 pd 1)%Re])
  /\
  (exists pd : seq R,
    [/\ dampPml 0%N 1%N 0%Re (heap_uv [:: 1; 2]%Re [:: 1; 1]%Re) =
        Returned (3%N, rcons (rcons (heap_uv [:: 1; 2]%Re [:: 1; 1]%Re) None)
                             (Some (MxArray [:: 1; 2] pd))),
        (0 <= get 0 [:: 1; 1] 0)%Re /\ (0 <= 0)%Re,
        (Rabs (get 0 [:: 1; 2] 0) < Rabs (get 0 [:: 1; 2] 1))%Re
      & ~ (get 0 pd 0 < get 0 pd 1)%Re]).
Proof.
split.
- have [//|//|//|//|//|pd [E _ Hpd]] :=
    @dampPml_run 0%N 1%N 1%Re (heap_uv [:: 1; 2]%Re [:: 0; 0]%Re)
      (MxArray [:: 1; 2] [:: 1; 2]%Re) (MxArray [:: 1; 2] [:: 0; 0]%Re).
  exists pd; split=> //.
  + by rewrite /get /=; lra.
  + by rewrite /get /= !Rabs_pos_eq; lra.
  + rewrite !Hpd /mxGetM /mxGetN /get /=; try lia.
    rewrite /damping /d0_value.
    have -> : (- (3 * 0) / (2 * 1) = 0)%Re by field.
    lra.
- have [//|//|//|//|//|pd [E _ Hpd]] :=
    @dampPml_run 0%N 1%N 0%Re (heap_uv [:: 1; 2]%Re [:: 1; 1]%Re)
      (MxArray [:: 1; 2] [:: 1; 2]%Re) (MxArray [:: 1; 2] [:: 1; 1]%Re).
  exists pd; split=> //.
  + by rewrite /get /=; lra.
  + by rewrite /get /= !Rabs_pos_eq; lra.
  + rewrite !Hpd /mxGetM /mxGetN /get /=; try lia.
    rewrite /damping /d0_value /Rdiv Rmult_0_r Rinv_0.
    lra.
Qed.

(** ** The scatter tables *)

Lemma block_offset_succ (nx P i : Z) :
  block_offset nx P (i + 1) = block_offset nx P i + block_size nx P i.
Proof. rewrite /block_offset /block_size; case: Z.ltb_spec; lia. Qed.

Lemma block_offset_last (nx P : Z) : 0 < P -> block_offset nx P P = nx.
Proof.
move=> HP; rewrite /block_offset.
have Hmod := Z.mod_pos_bound nx P HP.
have Hdiv : nx = P * (nx / P) + nx mod P by apply: Z.div_mod; lia.
lia.
Qed.

Lemma block_offset_mono (nx P i j : Z) :
  0 <= nx -> 0 < P -> i <= j -> block_offset nx P i <= block_offset nx P j.
Proof.
move=> Hnx HP Hij; rewrite /block_offset.
have Havg : 0 <= nx / P by apply: Z.div_pos; lia.
nia.
Qed.

Lemma scatter_layout_run (nz nx P : Z) :
  1 <= P <= nx ->
  exists t,
    [/\ scatter_layout nz nx P = Returned t,
        [/\ Zsize (sendcounts_block_nx t) = P, Zsize (displs_block_nx t) = P,
            Zsize (sendcounts_band_nx t) = P & Zsize (displs_band_nx t) = P],
        offset_block_nx t = nx
      & forall i, 0 <= i < P ->
          [/\ get 0 (sendcounts_block_nx t) i = block_size nx P i,
              get 0 (displs_block_nx t) i = block_offset nx P i,
              get 0 (sendcounts_band_nx t) i = nz * block_size nx P i
            & get 0 (displs_band_nx t) i = nz * block_offset nx P i]].
Proof.
move=> HP; rewrite /scatter_layout.
have -> : (P <? 0) || (nx <? P) = false by lia.
have -> : (P =? 0) = false by lia.
rewrite !mxCalloc_ok /=; try lia.
have Eq : Z.quot nx P = nx / P by apply: Z.quot_div_nonneg; lia.
have Er : Z.rem nx P = nx mod P by apply: Z.rem_mod_nonneg; lia.
rewrite Eq Er.
set z := nseq _ _.
have Hz : Zsize z = P by rewrite /z Zsize_nseq; lia.
pose I (k : Z) (t : scatter_tables) :=
  [/\ [/\ Zsize (sendcounts_block_nx t) = P, Zsize (displs_block_nx t) = P,
          Zsize (sendcounts_band_nx t) = P & Zsize (displs_band_nx t) = P],
      offset_block_nx t = block_offset nx P k
    & forall i, 0 <= i < k ->
        [/\ get 0 (sendcounts_block_nx t) i = block_size nx P i,
            get 0 (displs_block_nx t) i = block_offset nx P i,
            get 0 (sendcounts_band_nx t) i = nz * block_size nx P i
          & get 0 (displs_band_nx t) i = nz * block_offset nx P i]].
have [||k t Hk [[S1 S2 S3 S4] Hoff Hget]|t [E [HS Hoff Hget]]] :=
  @for_loop_inv _ I
    (fun irank t =>
      let block_nx := if irank <? nx mod P then nx / P + 1 else nx / P in
      let* sc_block := store 0 (sendcounts_block_nx t) irank block_nx in
      let* sc_band := store 0 (sendcounts_band_nx t) irank (nz * block_nx) in
      let* ds_block :=
        store 0 (displs_block_nx t) irank (offset_block_nx t) in
      let* ds_band :=
        store 0 (displs_band_nx t) irank (nz * offset_block_nx t) in
      let* cnt := load 0 sc_block irank in
      Returned (ScatterTables sc_block ds_block sc_band ds_band
                  (offset_block_nx t + cnt)))
    0 P (ScatterTables z z z z 0).
- lia.
- have Hmod : 0 <= nx mod P < P by apply: Z.mod_pos_bound; lia.
  split=> /=; [by split|by rewrite /block_offset; lia|by move=> i Hi; lia].
- have B1 : 0 <= k < Zsize (sendcounts_block_nx t) by lia.
  have B2 : 0 <= k < Zsize (displs_block_nx t) by lia.
  have B3 : 0 <= k < Zsize (sendcounts_band_nx t) by lia.
  have B4 : 0 <= k < Zsize (displs_band_nx t) by lia.
  cbv zeta.
  rewrite (@store_ok _ 0 _ k _ B1) /= (@store_ok _ 0 _ k _ B3) /=.
  rewrite (@store_ok _ 0 _ k _ B2) /= (@store_ok _ 0 _ k _ B4) /=.
  have B5 : 0 <= k < Zsize (upd 0 (sendcounts_block_nx t) k
                              (if k <? nx mod P then nx / P + 1 else nx / P)).
    by rewrite Zsize_upd.
  rewrite (@load_ok _ 0 _ k B5) /=.
  eexists; split; first by [].
  split=> /=.
  + by rewrite !Zsize_upd; try lia.
  + by rewrite get_upd_same; try lia; rewrite block_offset_succ Hoff.
  + move=> i Hi; rewrite !get_upd; try lia.
    case: Z.eqb_spec => [->|NE]; first by rewrite Hoff.
    by apply: Hget; lia.
- exists t; split=> //.
  by rewrite Hoff block_offset_last; lia.
Qed.

Lemma block_size_bounds (nx P i : Z) :
  0 < P -> nx / P <= block_size nx P i <= nx / P + 1.
Proof.
move=> HP; rewrite /block_size.
by case: Z.ltb_spec => H; lia.
Qed.

Lemma block_cover (nx P x : Z) :
  0 < P -> 0 <= x < nx ->
  exists i, 0 <= i < P /\
    block_offset nx P i <= x < block_offset nx P i + block_size nx P i.
Proof.
move=> HP Hx.
have H0 : block_offset nx P 0 <= x.
  have Hmod : 0 <= nx mod P < P by apply: Z.mod_pos_bound.
  by rewrite /block_offset; lia.
have HPx : x < block_offset nx P P by rewrite block_offset_last; lia.
have Hgen : forall n : nat, x < block_offset nx P (Z.of_nat n) ->
    exists i, 0 <= i < Z.of_nat n /\
      block_offset nx P i <= x < block_offset nx P i + block_size nx P i.
  elim=> [|n IH] Hn; first by simpl in Hn; lia.
  have E : Z.of_nat n.+1 = Z.of_nat n + 1 by lia.
  case: (Z.lt_ge_cases x (block_offset nx P (Z.of_nat n))) => [Hlt|Hge].
    by have [i [Hi Hxi]] := IH Hlt; exists i; split=> //; lia.
  exists (Z.of_nat n); split; first lia.
  by rewrite -block_offset_succ -E.
have [i [Hi Hxi]] := Hgen (Z.to_nat P) ltac:(by rewrite Z2Nat.id; lia).
by exists i; split=> //; lia.
Qed.

(** C3.  For [nx >= numProcesses >= 1] the scatter tables are filled
    without fault; worker [i] gets [nx / numProcesses + 1] columns if
    [i < nx mod numProcesses] and [nx / numProcesses] otherwise; the
    displacements are the prefix sums of the sizes, so the column ranges
    [[displs i, displs i + count i)] are contiguous, pairwise disjoint and
    cover [[0, nx)] exactly (every column lies in exactly one range); two
    sizes differ by at most one. *)
Theorem scatter_layout_partition (nz nx numProcesses : Z) :
  1 <= numProcesses <= nx ->
  exists t,
    let count := get 0 (sendcounts_block_nx t) in
    let displs := get 0 (displs_block_nx t) in
    [/\ scatter_layout nz nx numProcesses = Returned t
        /\ Zsize (sendcounts_block_nx t) = numProcesses
        /\ Zsize (displs_block_nx t) = numProcesses,
        forall i, 0 <= i < numProcesses ->
          count i = if i <? nx mod numProcesses then nx / numProcesses + 1
                    else nx / numProcesses,
        [/\ displs 0 = 0,
            forall i, 0 <= i -> i + 1 < numProcesses ->
              displs (i + 1) = displs i + count i
          & displs (numProcesses - 1) + count (numProcesses - 1) = nx],
        (forall i j, 0 <= i -> i < j -> j < numProcesses ->
           displs i + count i <= displs j)
        /\ (forall x, 0 <= x < nx ->
              exists i, [/\ 0 <= i < numProcesses,
                            displs i <= x < displs i + count i
                          & forall j, 0 <= j < numProcesses ->
                              displs j <= x < displs j + count j -> j = i])
      & forall i j, 0 <= i < numProcesses -> 0 <= j < numProcesses ->
          count i <= count j + 1].
Proof.
move=> HP.
have [t [E [S1 S2 _ _] _ Hget]] := scatter_layout_run nz HP.
have HP0 : 0 < numProcesses by lia.
have Hnx : 0 <= nx by lia.
have Hc : forall i, 0 <= i < numProcesses ->
    get 0 (sendcounts_block_nx t) i = block_size nx numProcesses i.
  by move=> i /Hget [].
have Hd : forall i, 0 <= i < numProcesses ->
    get 0 (displs_block_nx t) i = block_offset nx numProcesses i.
  by move=> i /Hget [].
have Hdisj : forall i j, 0 <= i -> i < j -> j < numProcesses ->
    block_offset nx numProcesses i + block_size nx numProcesses i
    <= block_offset nx numProcesses j.
  move=> i j Hi Hij Hj; rewrite -block_offset_succ.
  by apply: block_offset_mono; lia.
have Hmod : 0 <= nx mod numProcesses < numProcesses
  by apply: Z.mod_pos_bound.
exists t; split=> //=.
- split.
  + by rewrite (Hd 0 ltac:(lia)) /block_offset; lia.
  + move=> i Hi Hi1.
    rewrite (Hd (i + 1) ltac:(lia)) (Hd i ltac:(lia)) (Hc i ltac:(lia)).
    exact: block_offset_succ.
  + rewrite (Hd (numProcesses - 1) ltac:(lia)).
    rewrite (Hc (numProcesses - 1) ltac:(lia)).
    rewrite -block_offset_succ -[X in _ = X](block_offset_last nx HP0).
    by congr (block_offset _ _ _); lia.
- split.
  + move=> i j Hi Hij Hj.
    rewrite (Hd i ltac:(lia)) (Hd j ltac:(lia)) (Hc i ltac:(lia)).
    exact: Hdisj.
  + move=> x Hx.
    have [i [Hi Hxi]] := block_cover HP0 Hx.
    exists i; split=> //; first by rewrite (Hd i Hi) (Hc i Hi).
    move=> j Hj; rewrite (Hd j Hj) (Hc j Hj) => Hxj.
    case: (Z.lt_trichotomy j i) => [Hlt|[//|Hgt]].
      have := @Hdisj j i; lia.
    have := @Hdisj i j; lia.
- move=> i j Hi Hj; rewrite (Hc i Hi) (Hc j Hj).
  have := block_size_bounds nx i HP0.
  have := block_size_bounds nx j HP0.
  lia.
Qed.

Lemma scatter_layout_partition_witness :
  exists t,
    scatter_layout 5 7 3 = Returned t
    /\ sendcounts_block_nx t = [:: 3; 2; 2]
    /\ displs_block_nx t = [:: 0; 3; 5].
Proof.
have [|t [[E _] _ _ _ _]] := @scatter_layout_partition 5 7 3; first lia.
exists t; split=> //.
by move: E; vm_compute; case=> <-.
Defined.

(** ** The z-axis damping profile *)

Lemma lin2_range (m n : Z) (j i : Z) :
  in_range2 n m j i -> 0 <= j * m + i < m * n.
Proof. by case=> Hj Hi; apply: lin2_bound. Qed.

Lemma lin2_range_inj (m n : Z) (j i j' i' : Z) :
  in_range2 n m j i -> in_range2 n m j' i' ->
  j * m + i = j' * m + i' -> j = j' /\ i = i'.
Proof. by move=> [_ Hi] [_ Hi']; apply: lin2_inj. Qed.

Lemma zDamp_run (nz boundary cnt : Z) (dz dt : R) (sendcounts : seq Z)
    (taskId : Z) (pVel : seq R) :
  0 <= taskId < Zsize sendcounts -> get 0 sendcounts taskId = cnt ->
  0 <= cnt -> 0 <= boundary <= nz -> Zsize pVel = nz * cnt ->
  exists pzDamp pzb,
    [/\ zDamp nz boundary dz dt sendcounts taskId pVel
        = Returned (pzDamp, pzb),
        Zsize pzDamp = nz * cnt /\ Zsize pzb = nz * cnt,
        forall j i, 0 <= j < cnt -> 0 <= i < nz - boundary ->
          get 0%Re pzDamp (j * nz + i) = 0%Re,
        forall j i, 0 <= j < cnt -> nz - boundary <= i < nz ->
          get 0%Re pzDamp (j * nz + i) =
          damping (IZR (i - (nz - boundary) + 1) * dz)
                  (get 0%Re pVel (j * nz + i)) (IZR boundary * dz)
      & forall j i, 0 <= j < cnt -> 0 <= i < nz ->
          get 0%Re pzb (j * nz + i) =
          exp (- get 0%Re pzDamp (j * nz + i) * dt)].
Proof.
move=> Htask Ecnt Hcnt Hb Hvel.
have Hnz : 0 <= nz by lia.
have Hbc : 0 <= boundary * cnt by nia.
have Hnc : 0 <= nz * cnt by nia.
have Hb0 : 0 <= boundary by lia.
rewrite /zDamp load_ok //= Ecnt.
rewrite !(mxCalloc_ok _ Hbc) /=.
set zb := nseq (Z.to_nat (boundary * cnt)) _.
have Hzb : Zsize zb = boundary * cnt by rewrite /zb Zsize_nseq.
(* distances *)
have [|pu [-> Hsu Hu _]] /= :=
  @sweep2_run cnt boundary (boundary * cnt) (fun j i => j * boundary + i)
    (fun j i _ => (IZR (i + 1) * dz)%Re)
    (fun j i pu => store 0%Re pu (j * boundary + i) (IZR (i + 1) * dz)%Re)
    zb Hcnt Hb0 (@lin2_range boundary cnt) (@lin2_range_inj boundary cnt) Hzb.
  move=> j i buf Hr Hs _; have Hk := lin2_range Hr.
  by rewrite store_ok ?Hs.
(* velocities of the bottom rows *)
have [|pv [-> Hsv Hv _]] /= :=
  @sweep2_run cnt boundary (boundary * cnt) (fun j i => j * boundary + i)
    (fun j i _ => get 0%Re pVel (j * nz + (nz - boundary + i)))
    (fun j i pv =>
       let* x := load 0%Re pVel (j * nz + (nz - boundary + i)) in
       store 0%Re pv (j * boundary + i) x)
    zb Hcnt Hb0 (@lin2_range boundary cnt) (@lin2_range_inj boundary cnt) Hzb.
  move=> j i buf Hr Hs _; have Hk := lin2_range Hr.
  case: Hr => Hj Hi.
  have Hk' : 0 <= j * nz + (nz - boundary + i) < nz * cnt.
    by apply: lin2_bound; lia.
  by rewrite load_ok ?Hvel //= store_ok ?Hs.
have [pzd [-> Hszd Hzd]] /= :=
  dampPml_buffers_run (IZR boundary * dz)%Re Hb0 Hcnt Hsu Hsv.
rewrite !(mxCalloc_ok _ Hnc) /=.
set zn := nseq (Z.to_nat (nz * cnt)) _.
have Hzn : Zsize zn = nz * cnt by rewrite /zn Zsize_nseq.
have Hget0 : forall k, get 0%Re zn k = 0%Re by move=> k; rewrite /zn get_nseq.
(* the profile written into the bottom rows *)
pose lo := nz - boundary.
pose oi (j i : Z) := j * nz + (lo + i).
have Hoi : forall j i, in_range2 cnt boundary j i -> 0 <= oi j i < nz * cnt.
  by move=> j i [Hj Hi]; apply: lin2_bound; rewrite /lo; lia.
have Hoi_inj : forall j i j' i', in_range2 cnt boundary j i ->
    in_range2 cnt boundary j' i' -> oi j i = oi j' i' -> j = j' /\ i = i'.
  move=> j i j' i' [Hj Hi] [Hj' Hi'] E.
  have H1 : 0 <= lo + i < nz by rewrite /lo; lia.
  have H2 : 0 <= lo + i' < nz by rewrite /lo; lia.
  have [Ej Ei] := lin2_inj H1 H2 E.
  by split; lia.
have Eloop : forall p,
    for_loop 0 cnt (fun j => for_loop (nz - boundary) nz (fun i pz =>
      let* x := load 0%Re pzd (j * boundary + i - (nz - boundary)) in
      store 0%Re pz (j * nz + i) x)) p =
    for_loop 0 cnt (fun j => for_loop 0 boundary (fun i pz =>
      let* x := load 0%Re pzd (j * boundary + (lo + i) - lo) in
      store 0%Re pz (oi j i) x)) p.
  move=> p; apply: for_loop_ext => j s0 Hj.
  rewrite for_loop_shift.
  by have -> : nz - (nz - boundary) = boundary by lia.
rewrite Eloop.
have [|pz [-> Hsz Hz Hzout]] /= :=
  @sweep2_run cnt boundary (nz * cnt) oi
    (fun j i _ => get 0%Re pzd (j * boundary + i))
    (fun j i pz =>
       let* x := load 0%Re pzd (j * boundary + (lo + i) - lo) in
       store 0%Re pz (oi j i) x)
    zn Hcnt Hb0 Hoi Hoi_inj Hzn.
  move=> j i buf Hr Hs _; have Hk := lin2_range Hr; have Hk' := Hoi _ _ Hr.
  have -> : j * boundary + (lo + i) - lo = j * boundary + i by lia.
  by rewrite load_ok ?Hszd //= store_ok ?Hs.
(* the decay factors *)
have [|pzb [-> Hszb Hzb' _]] /= :=
  @sweep2_run cnt nz (nz * cnt) (fun j i => j * nz + i)
    (fun j i _ => exp (- get 0%Re pz (j * nz + i) * dt))
    (fun j i pzb =>
       let* x := load 0%Re pz (j * nz + i) in
       store 0%Re pzb (j * nz + i) (exp (- x * dt))%Re)
    zn Hcnt Hnz (@lin2_range nz cnt) (@lin2_range_inj nz cnt) Hzn.
  move=> j i buf Hr Hs _; have Hk := lin2_range Hr.
  by rewrite load_ok ?Hsz //= store_ok ?Hs.
exists pz, pzb; split=> //.
- move=> j i Hj Hi.
  rewrite Hzout ?Hget0 //; first by apply: lin2_bound; lia.
  move=> j' i' [Hj' Hi'] E.
  have H1 : 0 <= i < nz by lia.
  have H2 : 0 <= lo + i' < nz by rewrite /lo; lia.
  have [Ej Ei] := lin2_inj H1 H2 E.
  by move: Ei; rewrite /lo; lia.
- move=> j i Hj Hi.
  have -> : j * nz + i = oi j (i - lo) by rewrite /oi; lia.
  have Hr : in_range2 cnt boundary j (i - lo) by split; rewrite /lo; lia.
  have Hk := lin2_range Hr.
  by rewrite Hz // Hzd // Hu // Hv.
- by move=> j i Hj Hi; apply: Hzb'.
Qed.

(** C9.  For every worker [taskId] of a run with [numProcesses] workers,
    the z-axis damping of its block is zero in every row
    [i < nz - boundary], it is the quadratic profile of [dampPml] built from
    the distance [(i' + 1) * dz] (with [i' = i - (nz - boundary)] the row
    inside the padding) and the local velocity in the rows
    [nz - boundary <= i < nz], and the decay factors are
    [exp (- damping * dt)] pointwise, hence 1 outside the bottom padding. *)
Theorem zDamp_bottom_rows (nz nx numProcesses boundary : Z) (dz dt : R)
    (t : scatter_tables) (taskId : Z) (pVelocityModel_local : seq R) :
  1 <= numProcesses <= nx ->
  scatter_layout nz nx numProcesses = Returned t ->
  0 <= taskId < numProcesses ->
  0 <= boundary <= nz ->
  Zsize pVelocityModel_local = nz * get 0 (sendcounts_block_nx t) taskId ->
  exists pzDamp pzb,
    let cnt := get 0 (sendcounts_block_nx t) taskId in
    [/\ zDamp nz boundary dz dt (sendcounts_block_nx t) taskId
          pVelocityModel_local = Returned (pzDamp, pzb),
        forall j i, 0 <= j < cnt -> 0 <= i < nz - boundary ->
          get 0%Re pzDamp (j * nz + i) = 0%Re
          /\ get 0%Re pzb (j * nz + i) = 1%Re,
        forall j i, 0 <= j < cnt -> nz - boundary <= i < nz ->
          get 0%Re pzDamp (j * nz + i) =
          damping (IZR (i - (nz - boundary) + 1) * dz)
                  (get 0%Re pVelocityModel_local (j * nz + i))
                  (IZR boundary * dz)
      & forall j i, 0 <= j < cnt -> 0 <= i < nz ->
          get 0%Re pzb (j * nz + i) =
          exp (- get 0%Re pzDamp (j * nz + i) * dt)].
Proof.
move=> HP Et Htask Hb Hvel.
have [t' [Et' [S1 _ _ _] _ Hget]] := scatter_layout_run nz HP.
have Ett : t' = t by move: Et'; rewrite Et; case.
rewrite {}Ett in S1 Hget.
have [Hc _ _ _] := Hget _ Htask.
have Hcnt : 0 <= get 0 (sendcounts_block_nx t) taskId.
  rewrite Hc.
  have := @block_size_bounds nx numProcesses taskId ltac:(lia).
  have : 0 <= nx / numProcesses by apply: Z.div_pos; lia.
  lia.
have Htask' : 0 <= taskId < Zsize (sendcounts_block_nx t) by rewrite S1.
have [pzDamp [pzb [E _ Hzero Hbot Hdecay]]] :=
  zDamp_run dz dt Htask' (erefl _) Hcnt Hb Hvel.
exists pzDamp, pzb; split=> // j i Hj Hi.
split; first exact: Hzero.
rewrite (Hdecay j i Hj ltac:(lia)) (Hzero j i Hj Hi).
by rewrite Ropp_0 Rmult_0_l exp_0.
Qed.

Lemma zDamp_bottom_rows_witness :
  exists pzDamp pzb,
    zDamp 3 1 1%Re 1%Re [:: 2] 0 [:: 1; 2; 3; 4; 5; 6]%Re
    = Returned (pzDamp, pzb)
    /\ get 0%Re pzDamp 1 = 0%Re /\ get 0%Re pzb 4 = 1%Re.
Proof.
have [||||
      |pzDamp [pzb [E Hzero _ _]]] :=
  @zDamp_bottom_rows 3 2 1 1 1%Re 1%Re (ScatterTables [:: 2] [:: 0] [:: 6] [:: 0] 2)
    0 [:: 1; 2; 3; 4; 5; 6]%Re.
- lia.
- reflexivity.
- lia.
- lia.
- reflexivity.
- exists pzDamp, pzb; split; first exact: E.
  have C0 : 0 <= 0 < 2 by lia.
  have C1 : 0 <= 1 < 2 by lia.
  have R1 : 0 <= 1 < 3 - 1 by lia.
  have [H1 _] := Hzero 0 1 C0 R1.
  have [_ H2] := Hzero 1 1 C1 R1.
  by split.
Defined.

(** ** [diffOperator] *)

Lemma stencil_step_lift (h : heap) (p data coeff : handle) (ds : seq Z)
    (D C : mxArray) (dist : R) (iOrder o x1 x2 : Z) (buf : seq R) :
  data <> p -> coeff <> p ->
  deref h data = Returned D -> deref h coeff = Returned C ->
  stencil_step p data coeff dist iOrder o x1 x2 (with_cell h p ds buf) =
  let* buf' := stencil_step_buf (mxGetPr D) (mxGetPr C) dist iOrder o x1 x2
                 buf in
  Returned (with_cell h p ds buf').
Proof.
move=> NEd NEc ED EC; rewrite /stencil_step /stencil_step_buf rd_cell.
case: (load _ buf o) => //= acc.
rewrite (rd_other _ _ _ NEc EC); case: (load _ _ iOrder) => //= c.
rewrite !(rd_other _ _ _ NEd ED).
case: (load _ _ x1) => //= a; case: (load _ _ x2) => //= b.
exact: wr_cell.
Qed.

Lemma stencil_sweep_iterate (step : Z -> Z -> Z -> heap -> outcome heap)
    (n : nat) (idx1 cnt idx2 : Z) (h : heap) :
  iterate n idx1
    (fun idx1 '(cnt, idx2, h) =>
       let* h := step cnt idx1 idx2 h in Returned (cnt + 1, idx2 + 1, h))
    (cnt, idx2, h) =
  let* h' := iterate n 0 (fun i => step (cnt + i) (idx1 + i) (idx2 + i)) h in
  Returned (cnt + Z.of_nat n, idx2 + Z.of_nat n, h').
Proof.
elim: n idx1 cnt idx2 h => [|n IH] idx1 cnt idx2 h /=.
  by rewrite !Z.add_0_r.
rewrite !Z.add_0_r; case: (step cnt idx1 idx2 h) => //= h1.
rewrite IH.
have -> : iterate n 1 (fun i => step (cnt + i) (idx1 + i) (idx2 + i)) h1 =
          iterate n 0
            (fun i => step (cnt + 1 + i) (idx1 + 1 + i) (idx2 + 1 + i)) h1.
  rewrite (iterate_shift _ n 0 1 h1 : iterate n 1 _ h1 = _).
  by apply: iterate_ext => i s0 _; congr (step _ _ _ _); lia.
case: (iterate n 0 _ h1) => //= h2.
by congr (Returned (_, _, _)); lia.
Qed.

Lemma stencil_sweep_for (first last start2 : Z)
    (step : Z -> Z -> Z -> heap -> outcome heap) (h : heap) :
  stencil_sweep first last start2 step h =
  for_loop 0 (last + 1 - first)
    (fun i => step i (first + i) (start2 + i)) h.
Proof.
rewrite /stencil_sweep /for_loop stencil_sweep_iterate Z.sub_0_r.
by case: (iterate _ 0 _ h).
Qed.

Section Stencil.

Variables (pData pCoeff : seq R) (dist : R).
Variables (order na nb ni N : Z) (oi di : Z -> Z -> Z -> Z).

Hypothesis Hcoeff : Zsize pCoeff = order.
Hypothesis Hna : 0 <= na.
Hypothesis Hnb : 0 <= nb.
Hypothesis Hni : 0 <= ni.
Hypothesis oi_bound : forall a b i,
  in_range na nb ni a b i -> 0 <= oi a b i < N.
Hypothesis oi_inj : forall a b i a' b' i',
  in_range na nb ni a b i -> in_range na nb ni a' b' i' ->
  oi a b i = oi a' b' i' -> [/\ a = a', b = b' & i = i'].
Hypothesis di_bound : forall a b x,
  0 <= a < na -> 0 <= b < nb -> 0 <= x < ni + (2 * order - 1) ->
  0 <= di a b x < Zsize pData.

(** The [k]-th term of the stencil at the point [(a, b, i)]. *)
Definition stencil_term (a b i k : Z) : R :=
  (get 0 pCoeff k
   * (get 0 pData (di a b (i + order + k))
      - get 0 pData (di a b (i + order - 1 - k))) / dist)%Re.

Definition stencil_pass (iOrder : Z) : seq R -> outcome (seq R) :=
  for_loop 0 na (fun a => for_loop 0 nb (fun b => for_loop 0 ni (fun i =>
    stencil_step_buf pData pCoeff dist iOrder (oi a b i)
      (di a b (order + iOrder + i)) (di a b (order - (iOrder + 1) + i))))).

Lemma stencil_pass_run (iOrder : Z) (buf0 : seq R) :
  0 <= iOrder < order -> Zsize buf0 = N ->
  exists buf',
    [/\ stencil_pass iOrder buf0 = Returned buf', Zsize buf' = N
      & forall a b i, in_range na nb ni a b i ->
          get 0%Re buf' (oi a b i) =
          (get 0 buf0 (oi a b i) + stencil_term a b i iOrder)%Re].
Proof.
move=> Hk Hs.
have [|buf' [E Hs' Hin _]] :=
  @sweep3_run na nb ni N oi
    (fun a b i old => (old + stencil_term a b i iOrder)%Re)
    (fun a b i => stencil_step_buf pData pCoeff dist iOrder (oi a b i)
       (di a b (order + iOrder + i)) (di a b (order - (iOrder + 1) + i)))
    buf0 Hna Hnb Hni oi_bound oi_inj Hs.
  move=> a b i buf Hr Hsb Hcur.
  have Ho := oi_bound Hr; case: Hr => Ha [Hb Hi].
  have H1 : 0 <= di a b (order + iOrder + i) < Zsize pData.
    by apply: di_bound => //; lia.
  have H2 : 0 <= di a b (order - (iOrder + 1) + i) < Zsize pData.
    by apply: di_bound => //; lia.
  rewrite /stencil_step_buf load_ok ?Hsb //= load_ok ?Hcoeff //=.
  rewrite (load_ok _ H1) /= (load_ok _ H2) /= store_ok ?Hsb //.
  rewrite Hcur /stencil_term.
  have -> : i + order + iOrder = order + iOrder + i by lia.
  by have -> : i + order - 1 - iOrder = order - (iOrder + 1) + i by lia.
by exists buf'.
Qed.

Lemma stencil_run (buf0 : seq R) :
  0 <= order -> Zsize buf0 = N ->
  (forall a b i, in_range na nb ni a b i -> get 0%Re buf0 (oi a b i) = 0%Re) ->
  exists buf',
    [/\ for_loop 0 order stencil_pass buf0 = Returned buf', Zsize buf' = N
      & forall a b i, in_range na nb ni a b i ->
          get 0%Re buf' (oi a b i) =
          sumR (Z.to_nat order) (stencil_term a b i)].
Proof.
move=> Hord Hs Hzero.
pose I (k : Z) (buf : seq R) :=
  Zsize buf = N /\
  forall a b i, in_range na nb ni a b i ->
    get 0%Re buf (oi a b i) = sumR (Z.to_nat k) (stencil_term a b i).
have [||k buf Hk [Hsb Hget]|buf' [E [Hs' Hget]]] :=
  @for_loop_inv _ I stencil_pass 0 order buf0.
- by [].
- by split.
- have [buf1 [E1 Hs1 H1]] := stencil_pass_run Hk Hsb.
  exists buf1; split=> //; split=> // a b i Hr.
  rewrite H1 // Hget //.
  have -> : Z.to_nat (k + 1) = (Z.to_nat k).+1 by lia.
  by rewrite /= (Z2Nat.id k ltac:(lia)).
- by exists buf'.
Qed.

End Stencil.

Section StencilHeap.

Variables (h : heap) (p data coeff : handle) (ds : seq Z) (D C : mxArray).
Variables (dist : R) (order ext : Z).

Hypothesis NEd : data <> p.
Hypothesis NEc : coeff <> p.
Hypothesis ED : deref h data = Returned D.
Hypothesis EC : deref h coeff = Returned C.

Lemma heap_sweep_lift (iOrder : Z) (oi di : Z -> Z) (buf : seq R) :
  stencil_sweep (order + iOrder) (ext - order + iOrder) (order - (iOrder + 1))
    (fun i idx1 idx2 =>
       stencil_step p data coeff dist iOrder (oi i) (di idx1) (di idx2))
    (with_cell h p ds buf) =
  let* buf' :=
    for_loop 0 (ext - (2 * order - 1)) (fun i =>
      stencil_step_buf (mxGetPr D) (mxGetPr C) dist iOrder (oi i)
        (di (order + iOrder + i)) (di (order - (iOrder + 1) + i))) buf in
  Returned (with_cell h p ds buf').
Proof.
rewrite stencil_sweep_for.
have -> : ext - order + iOrder + 1 - (order + iOrder) = ext - (2 * order - 1)
  by lia.
apply: for_loop_lift => i t0 _.
exact: stencil_step_lift.
Qed.

Lemma heap_nest3_lift (na nb : Z) (oi di : Z -> Z -> Z -> Z) (buf : seq R) :
  for_loop 0 order (fun iOrder =>
    for_loop 0 na (fun a => for_loop 0 nb (fun b =>
      stencil_sweep (order + iOrder) (ext - order + iOrder)
        (order - (iOrder + 1))
        (fun i idx1 idx2 =>
           stencil_step p data coeff dist iOrder
             (oi a b i) (di a b idx1) (di a b idx2)))))
    (with_cell h p ds buf) =
  let* buf' :=
    for_loop 0 order
      (stencil_pass (mxGetPr D) (mxGetPr C) dist order na nb
         (ext - (2 * order - 1)) oi di) buf in
  Returned (with_cell h p ds buf').
Proof.
apply: for_loop_lift => k t0 _.
apply: for_loop_lift => a t1 _.
apply: for_loop_lift => b t2 _.
exact: heap_sweep_lift.
Qed.

Lemma heap_nest2_lift (nb : Z) (oi di : Z -> Z -> Z) (buf : seq R) :
  for_loop 0 order (fun iOrder =>
    for_loop 0 nb (fun b =>
      stencil_sweep (order + iOrder) (ext - order + iOrder)
        (order - (iOrder + 1))
        (fun i idx1 idx2 =>
           stencil_step p data coeff dist iOrder
             (oi b i) (di b idx1) (di b idx2))))
    (with_cell h p ds buf) =
  let* buf' :=
    for_loop 0 order
      (stencil_pass (mxGetPr D) (mxGetPr C) dist order 1 nb
         (ext - (2 * order - 1)) (fun _ => oi) (fun _ => di)) buf in
  Returned (with_cell h p ds buf').
Proof.
apply: for_loop_lift => k t0 _.
rewrite /stencil_pass for_loop_once.
apply: for_loop_lift => b t2 _.
exact: heap_sweep_lift.
Qed.

End StencilHeap.

Lemma lin3_bound (e1 e2 e3 i1 i2 i3 : Z) :
  0 <= i1 < e1 -> 0 <= i2 < e2 -> 0 <= i3 < e3 ->
  0 <= i3 * (e1 * e2) + i2 * e1 + i1 < e1 * e2 * e3.
Proof.
move=> H1 H2 H3.
have H23 : 0 <= i3 * e2 + i2 < e2 * e3 by apply: lin2_bound.
have := @lin2_bound e1 (e2 * e3) (i3 * e2 + i2) i1 H23 H1.
have -> : (i3 * e2 + i2) * e1 + i1 = i3 * (e1 * e2) + i2 * e1 + i1 by ring.
by have -> : e1 * (e2 * e3) = e1 * e2 * e3 by ring.
Qed.

Lemma lin3_inj (e1 e2 i1 i2 i3 j1 j2 j3 : Z) :
  0 <= i1 < e1 -> 0 <= i2 < e2 -> 0 <= j1 < e1 -> 0 <= j2 < e2 ->
  i3 * (e1 * e2) + i2 * e1 + i1 = j3 * (e1 * e2) + j2 * e1 + j1 ->
  [/\ i1 = j1, i2 = j2 & i3 = j3].
Proof.
move=> H1 H2 K1 K2 E.
have E' : (i3 * e2 + i2) * e1 + i1 = (j3 * e2 + j2) * e1 + j1.
  have -> : (i3 * e2 + i2) * e1 + i1 = i3 * (e1 * e2) + i2 * e1 + i1 by ring.
  by rewrite E; ring.
have [E23 E1] := lin2_inj H1 K1 E'.
by have [E3 E2] := lin2_inj H2 K2 E23.
Qed.

Section StencilRun.

Variables (h : heap) (data coeff : handle) (D C : mxArray) (dist : R).
Variables (odims : seq Z) (order ext : Z).

Hypothesis ED : deref h data = Returned D.
Hypothesis EC : deref h coeff = Returned C.
Hypothesis Hcoeff : Zsize (mxGetPr C) = order.
Hypothesis Hord : 0 <= order.
Hypothesis Hext : 2 * order - 1 <= ext.
Hypothesis Hodims : 0 <= numel odims.

Let zeros := nseq (Z.to_nat (numel odims)) 0%Re.

Lemma stencil_heap_run3 (na nb : Z) (oi di : Z -> Z -> Z -> Z) :
  0 <= na -> 0 <= nb ->
  (forall a b i, in_range na nb (ext - (2 * order - 1)) a b i ->
     0 <= oi a b i < numel odims) ->
  (forall a b i a' b' i',
     in_range na nb (ext - (2 * order - 1)) a b i ->
     in_range na nb (ext - (2 * order - 1)) a' b' i' ->
     oi a b i = oi a' b' i' -> [/\ a = a', b = b' & i = i']) ->
  (forall a b x, 0 <= a < na -> 0 <= b < nb -> 0 <= x < ext ->
     0 <= di a b x < Zsize (mxGetPr D)) ->
  exists pd,
    [/\ for_loop 0 order (fun iOrder =>
          for_loop 0 na (fun a => for_loop 0 nb (fun b =>
            stencil_sweep (order + iOrder) (ext - order + iOrder)
              (order - (iOrder + 1))
              (fun i idx1 idx2 =>
                 stencil_step (size h) data coeff dist iOrder
                   (oi a b i) (di a b idx1) (di a b idx2)))))
          (with_cell h (size h) odims zeros)
        = Returned (rcons h (Some (MxArray odims pd))),
        Zsize pd = numel odims
      & forall a b i, in_range na nb (ext - (2 * order - 1)) a b i ->
          get 0%Re pd (oi a b i) =
          sumR (Z.to_nat order)
               (stencil_term (mxGetPr D) (mxGetPr C) dist order di a b i)].
Proof.
move=> Hna Hnb Hoi Hinj Hdi.
have Hd := deref_size ED; have Hc := deref_size EC.
have NEd : data <> size h by move=> E; rewrite E ltnn in Hd.
have NEc : coeff <> size h by move=> E; rewrite E ltnn in Hc.
rewrite (heap_nest3_lift odims dist order ext NEd NEc ED EC).
have Hni : 0 <= ext - (2 * order - 1) by lia.
have Hdi' : forall a b x, 0 <= a < na -> 0 <= b < nb ->
    0 <= x < ext - (2 * order - 1) + (2 * order - 1) ->
    0 <= di a b x < Zsize (mxGetPr D).
  by move=> a b x Ha Hb Hx; apply: Hdi => //; lia.
have Hz : Zsize zeros = numel odims by rewrite /zeros Zsize_nseq.
have H0 : forall a b i, in_range na nb (ext - (2 * order - 1)) a b i ->
    get 0%Re zeros (oi a b i) = 0%Re.
  by move=> a b i _; rewrite /zeros get_nseq.
have [pd [-> Hs Hpd]] /= :=
  stencil_run dist Hcoeff Hna Hnb Hni Hoi Hinj Hdi' Hord Hz H0.
by exists pd; split=> //; rewrite with_cell_fresh.
Qed.

Lemma stencil_heap_run2 (nb : Z) (oi di : Z -> Z -> Z) :
  0 <= nb ->
  (forall b i, in_range2 nb (ext - (2 * order - 1)) b i ->
     0 <= oi b i < numel odims) ->
  (forall b i b' i',
     in_range2 nb (ext - (2 * order - 1)) b i ->
     in_range2 nb (ext - (2 * order - 1)) b' i' ->
     oi b i = oi b' i' -> b = b' /\ i = i') ->
  (forall b x, 0 <= b < nb -> 0 <= x < ext ->
     0 <= di b x < Zsize (mxGetPr D)) ->
  exists pd,
    [/\ for_loop 0 order (fun iOrder =>
          for_loop 0 nb (fun b =>
            stencil_sweep (order + iOrder) (ext - order + iOrder)
              (order - (iOrder + 1))
              (fun i idx1 idx2 =>
                 stencil_step (size h) data coeff dist iOrder
                   (oi b i) (di b idx1) (di b idx2))))
          (with_cell h (size h) odims zeros)
        = Returned (rcons h (Some (MxArray odims pd))),
        Zsize pd = numel odims
      & forall b i, in_range2 nb (ext - (2 * order - 1)) b i ->
          get 0%Re pd (oi b i) =
          sumR (Z.to_nat order)
               (stencil_term (mxGetPr D) (mxGetPr C) dist order
                  (fun _ => di) 0 b i)].
Proof.
move=> Hnb Hoi Hinj Hdi.
have Hd := deref_size ED; have Hc := deref_size EC.
have NEd : data <> size h by move=> E; rewrite E ltnn in Hd.
have NEc : coeff <> size h by move=> E; rewrite E ltnn in Hc.
rewrite (heap_nest2_lift odims dist order ext NEd NEc ED EC).
have Hni : 0 <= ext - (2 * order - 1) by lia.
have Hoi3 : forall a b i, in_range 1 nb (ext - (2 * order - 1)) a b i ->
    0 <= oi b i < numel odims.
  by move=> a b i [_ [Hb Hi]]; apply: Hoi.
have Hinj3 : forall a b i a' b' i',
    in_range 1 nb (ext - (2 * order - 1)) a b i ->
    in_range 1 nb (ext - (2 * order - 1)) a' b' i' ->
    oi b i = oi b' i' -> [/\ a = a', b = b' & i = i'].
  move=> a b i a' b' i' [Ha [Hb Hi]] [Ha' [Hb' Hi']] E.
  have [-> ->] := Hinj b i b' i' (conj Hb Hi) (conj Hb' Hi') E.
  by split=> //; lia.
have Hdi' : forall (a : Z) b x, 0 <= a < 1 -> 0 <= b < nb ->
    0 <= x < ext - (2 * order - 1) + (2 * order - 1) ->
    0 <= di b x < Zsize (mxGetPr D).
  by move=> a b x Ha Hb Hx; apply: Hdi => //; lia.
have Hz : Zsize zeros = numel odims by rewrite /zeros Zsize_nseq.
have H0 : forall a b i, in_range 1 nb (ext - (2 * order - 1)) a b i ->
    get 0%Re zeros (oi b i) = 0%Re.
  by move=> a b i _; rewrite /zeros get_nseq.
have H1 : 0 <= 1 by lia.
have [pd [-> Hs Hpd]] /= :=
  @stencil_run (mxGetPr D) (mxGetPr C) dist order 1 nb
    (ext - (2 * order - 1)) (numel odims) (fun _ => oi) (fun _ => di)
    Hcoeff H1 Hnb Hni Hoi3 Hinj3 Hdi' zeros Hord Hz H0.
exists pd; split=> //; first by rewrite with_cell_fresh.
by move=> b i [Hb Hi]; apply: Hpd; split; [lia|split].
Qed.

End StencilRun.

Section DiffOperatorBranches.

Variables (h : heap) (data coeff : handle) (D C : mxArray) (dist : R).

Hypothesis ED : deref h data = Returned D.
Hypothesis EC : deref h coeff = Returned C.
Hypothesis WC : well_formed C.

Let order := mxGetNumberOfElements C.
Let l := 2 * order - 1.
Let dat := get 0%Re (mxGetPr D).
Let cf := get 0%Re (mxGetPr C).

Lemma order_facts : 0 <= order /\ Zsize (mxGetPr C) = order.
Proof.
by case: WC => _ /all_nonneg_numel Hpos ->.
Qed.

Lemma diffOperator_2d_rows (dim n1 n2 : Z) :
  mxGetDimensions D = [:: n1; n2] -> 0 <= n1 -> 0 <= n2 ->
  Zsize (mxGetPr D) = n1 * n2 ->
  dim <= 1 -> l <= n1 ->
  exists pd,
    [/\ diffOperator data coeff dist dim h =
        Returned (size h, rcons h (Some (MxArray [:: n1 - l; n2] pd))),
        Zsize pd = (n1 - l) * n2
      & forall i j, 0 <= i < n1 - l -> 0 <= j < n2 ->
          get 0%Re pd (j * (n1 - l) + i) =
          sumR (Z.to_nat order) (fun k =>
            cf k * (dat (j * n1 + (i + order + k))
                    - dat (j * n1 + (i + order - 1 - k))) / dist)%Re].
Proof.
move=> Edims Hn1 Hn2 HsD Hdim Hl.
have [Hord HsC] := order_facts.
rewrite /diffOperator ED EC /= /mxGetNumberOfDimensions Edims /=.
have -> : ((if dim <? 1 then 1 else dim) =? 1) = true.
  by case: Z.ltb_spec => //; lia.
rewrite -/order -/l {1 2 3 4 5 6}/get /=.
have Hext : 0 <= n1 - l by lia.
rewrite mxCreateDoubleMatrix_ok //=.
have Hnum : 0 <= numel [:: n1 - l; n2] by rewrite /= Z.mul_1_r; nia.
have Enum : (n1 - l) * n2 = numel [:: n1 - l; n2] by rewrite /= Z.mul_1_r.
rewrite Enum.
have [|||pd [E Hs Hpd]] :=
  @stencil_heap_run2 h data coeff D C dist [:: n1 - l; n2] order n1 ED EC HsC
    Hord Hl Hnum n2 (fun j i => j * (n1 - l) + i) (fun j x => j * n1 + x) Hn2.
- by move=> j i Hr; rewrite -Enum; apply: lin2_range.
- by move=> j i j' i'; apply: lin2_range_inj.
- by move=> j x Hj Hx; rewrite HsD; apply: lin2_bound.
- exists pd; split=> //; first by rewrite E.
  by move=> i j Hi Hj; rewrite Hpd.
Qed.

Lemma diffOperator_2d_cols (dim n1 n2 : Z) :
  mxGetDimensions D = [:: n1; n2] -> 0 <= n1 -> 0 <= n2 ->
  Zsize (mxGetPr D) = n1 * n2 ->
  2 <= dim -> l <= n2 ->
  exists pd,
    [/\ diffOperator data coeff dist dim h =
        Returned (size h, rcons h (Some (MxArray [:: n1; n2 - l] pd))),
        Zsize pd = n1 * (n2 - l)
      & forall i j, 0 <= i < n1 -> 0 <= j < n2 - l ->
          get 0%Re pd (j * n1 + i) =
          sumR (Z.to_nat order) (fun k =>
            cf k * (dat ((j + order + k) * n1 + i)
                    - dat ((j + order - 1 - k) * n1 + i)) / dist)%Re].
Proof.
move=> Edims Hn1 Hn2 HsD Hdim Hl.
have [Hord HsC] := order_facts.
rewrite /diffOperator ED EC /= /mxGetNumberOfDimensions Edims /=.
have -> : ((if dim <? 1 then 1 else dim) =? 1) = false.
  by case: Z.ltb_spec => //; lia.
rewrite -/order -/l {1 2 3 4 5 6}/get /=.
have Hext : 0 <= n2 - l by lia.
rewrite mxCreateDoubleMatrix_ok //=.
have Hnum : 0 <= numel [:: n1; n2 - l] by rewrite /= Z.mul_1_r; nia.
have Enum : n1 * (n2 - l) = numel [:: n1; n2 - l] by rewrite /= Z.mul_1_r.
rewrite Enum.
have [|||pd [E Hs Hpd]] :=
  @stencil_heap_run2 h data coeff D C dist [:: n1; n2 - l] order n2 ED EC HsC
    Hord Hl Hnum n1 (fun i j => j * n1 + i) (fun i x => x * n1 + i) Hn1.
- by move=> i j [Hi Hj]; rewrite -Enum; apply: lin2_bound.
- move=> i j i' j' [Hi Hj] [Hi' Hj'] E.
  by have [-> ->] := lin2_inj Hi Hi' E.
- by move=> i x Hi Hx; rewrite HsD; apply: lin2_bound.
- exists pd; split=> //; first by rewrite E.
  by move=> i j Hi Hj; rewrite Hpd.
Qed.

Lemma diffOperator_3d_axis1 (dim n1 n2 n3 : Z) :
  mxGetDimensions D = [:: n1; n2; n3] -> 0 <= n1 -> 0 <= n2 -> 0 <= n3 ->
  Zsize (mxGetPr D) = n1 * n2 * n3 ->
  dim <= 1 -> l <= n1 ->
  exists pd,
    [/\ diffOperator data coeff dist dim h =
        Returned (size h, rcons h (Some (MxArray [:: n1 - l; n2; n3] pd))),
        Zsize pd = (n1 - l) * n2 * n3
      & forall i j k, 0 <= i < n1 - l -> 0 <= j < n2 -> 0 <= k < n3 ->
          get 0%Re pd (k * ((n1 - l) * n2) + j * (n1 - l) + i) =
          sumR (Z.to_nat order) (fun s =>
            cf s * (dat (k * (n1 * n2) + j * n1 + (i + order + s))
                    - dat (k * (n1 * n2) + j * n1 + (i + order - 1 - s)))
            / dist)%Re].
Proof.
move=> Edims Hn1 Hn2 Hn3 HsD Hdim Hl.
have [Hord HsC] := order_facts.
rewrite /diffOperator ED EC /= /mxGetNumberOfDimensions Edims /=.
have -> : ((if dim <? 1 then 1 else dim) =? 1) = true.
  by case: Z.ltb_spec => //; lia.
have G0 : get 0 [:: n1; n2; n3] 0 = n1 by [].
have G1 : get 0 [:: n1; n2; n3] 1 = n2 by [].
have G2 : get 0 [:: n1; n2; n3] 2 = n3 by [].
rewrite -/order -/l !G0 !G1 !G2.
have Hext : 0 <= n1 - l by lia.
have Hpos : all (Z.leb 0) [:: n1 - l; n2; n3].
  by rewrite /= andbT; apply/and3P; split; apply/Z.leb_le.
rewrite (mxCreateNumericArray_ok h (erefl _) Hpos) /=.
rewrite -[(n1 - l) * (n2 * (n3 * 1))]/(numel [:: n1 - l; n2; n3]).
have Enum : (n1 - l) * n2 * n3 = numel [:: n1 - l; n2; n3].
  by rewrite /= Z.mul_1_r; ring.
have Hnum : 0 <= numel [:: n1 - l; n2; n3] by exact: all_nonneg_numel.
have [|||pd [E Hs Hpd]] :=
  @stencil_heap_run3 h data coeff D C dist [:: n1 - l; n2; n3] order n1 ED EC
    HsC Hord Hl Hnum n3 n2
    (fun k j i => k * ((n1 - l) * n2) + j * (n1 - l) + i)
    (fun k j x => k * (n1 * n2) + j * n1 + x) Hn3 Hn2.
- by move=> k j i [Hk [Hj Hi]]; rewrite -Enum; apply: lin3_bound.
- move=> k j i k' j' i' [Hk [Hj Hi]] [Hk' [Hj' Hi']] E.
  by have [-> -> ->] := lin3_inj Hi Hj Hi' Hj' E.
- by move=> k j x Hk Hj Hx; rewrite HsD; apply: lin3_bound.
- exists pd; split=> //; [by rewrite E|by rewrite Enum|].
  by move=> i j k Hi Hj Hk; rewrite Hpd.
Qed.

Lemma diffOperator_3d_axis2 (dim n1 n2 n3 : Z) :
  mxGetDimensions D = [:: n1; n2; n3] -> 0 <= n1 -> 0 <= n2 -> 0 <= n3 ->
  Zsize (mxGetPr D) = n1 * n2 * n3 ->
  dim = 2 -> l <= n2 ->
  exists pd,
    [/\ diffOperator data coeff dist dim h =
        Returned (size h, rcons h (Some (MxArray [:: n1; n2 - l; n3] pd))),
        Zsize pd = n1 * (n2 - l) * n3
      & forall i j k, 0 <= i < n1 -> 0 <= j < n2 - l -> 0 <= k < n3 ->
          get 0%Re pd (k * (n1 * (n2 - l)) + j * n1 + i) =
          sumR (Z.to_nat order) (fun s =>
            cf s * (dat (k * (n1 * n2) + (j + order + s) * n1 + i)
                    - dat (k * (n1 * n2) + (j + order - 1 - s) * n1 + i))
            / dist)%Re].
Proof.
move=> Edims Hn1 Hn2 Hn3 HsD -> Hl.
have [Hord HsC] := order_facts.
rewrite /diffOperator ED EC /= /mxGetNumberOfDimensions Edims /=.
have G0 : get 0 [:: n1; n2; n3] 0 = n1 by [].
have G1 : get 0 [:: n1; n2; n3] 1 = n2 by [].
have G2 : get 0 [:: n1; n2; n3] 2 = n3 by [].
rewrite -/order -/l !G0 !G1 !G2.
have Hext : 0 <= n2 - l by lia.
have Hpos : all (Z.leb 0) [:: n1; n2 - l; n3].
  by rewrite /= andbT; apply/and3P; split; apply/Z.leb_le.
rewrite (mxCreateNumericArray_ok h (erefl _) Hpos) /=.
rewrite -[n1 * ((n2 - l) * (n3 * 1))]/(numel [:: n1; n2 - l; n3]).
have Enum : n1 * (n2 - l) * n3 = numel [:: n1; n2 - l; n3].
  by rewrite /= Z.mul_1_r; ring.
have Hnum : 0 <= numel [:: n1; n2 - l; n3] by exact: all_nonneg_numel.
have [|||pd [E Hs Hpd]] :=
  @stencil_heap_run3 h data coeff D C dist [:: n1; n2 - l; n3] order n2 ED EC
    HsC Hord Hl Hnum n3 n1
    (fun k i j => k * (n1 * (n2 - l)) + j * n1 + i)
    (fun k i x => k * (n1 * n2) + x * n1 + i) Hn3 Hn1.
- by move=> k i j [Hk [Hi Hj]]; rewrite -Enum; apply: lin3_bound.
- move=> k i j k' i' j' [Hk [Hi Hj]] [Hk' [Hi' Hj']] E.
  by have [-> -> ->] := lin3_inj Hi Hj Hi' Hj' E.
- by move=> k i x Hk Hi Hx; rewrite HsD; apply: lin3_bound.
- exists pd; split=> //; [by rewrite E|by rewrite Enum|].
  by move=> i j k Hi Hj Hk; rewrite Hpd.
Qed.

Lemma diffOperator_3d_axis3 (dim n1 n2 n3 : Z) :
  mxGetDimensions D = [:: n1; n2; n3] -> 0 <= n1 -> 0 <= n2 -> 0 <= n3 ->
  Zsize (mxGetPr D) = n1 * n2 * n3 ->
  3 <= dim -> l <= n3 ->
  exists pd,
    [/\ diffOperator data coeff dist dim h =
        Returned (size h, rcons h (Some (MxArray [:: n1; n2; n3 - l] pd))),
        Zsize pd = n1 * n2 * (n3 - l)
      & forall i j k, 0 <= i < n1 -> 0 <= j < n2 -> 0 <= k < n3 - l ->
          get 0%Re pd (k * (n1 * n2) + j * n1 + i) =
          sumR (Z.to_nat order) (fun s =>
            cf s * (dat ((k + order + s) * (n1 * n2) + j * n1 + i)
                    - dat ((k + order - 1 - s) * (n1 * n2) + j * n1 + i))
            / dist)%Re].
Proof.
move=> Edims Hn1 Hn2 Hn3 HsD Hdim Hl.
have [Hord HsC] := order_facts.
rewrite /diffOperator ED EC /= /mxGetNumberOfDimensions Edims /=.
have -> : ((if dim <? 1 then 1 else dim) =? 1) = false.
  by case: Z.ltb_spec => //; lia.
have -> : ((if dim <? 1 then 1 else dim) =? 2) = false.
  by case: Z.ltb_spec => //; lia.
have G0 : get 0 [:: n1; n2; n3] 0 = n1 by [].
have G1 : get 0 [:: n1; n2; n3] 1 = n2 by [].
have G2 : get 0 [:: n1; n2; n3] 2 = n3 by [].
rewrite -/order -/l !G0 !G1 !G2.
have Hext : 0 <= n3 - l by lia.
have Hpos : all (Z.leb 0) [:: n1; n2; n3 - l].
  by rewrite /= andbT; apply/and3P; split; apply/Z.leb_le.
rewrite (mxCreateNumericArray_ok h (erefl _) Hpos) /=.
rewrite -[n1 * (n2 * ((n3 - l) * 1))]/(numel [:: n1; n2; n3 - l]).
have Enum : n1 * n2 * (n3 - l) = numel [:: n1; n2; n3 - l].
  by rewrite /= Z.mul_1_r; ring.
have Hnum : 0 <= numel [:: n1; n2; n3 - l] by exact: all_nonneg_numel.
have [|||pd [E Hs Hpd]] :=
  @stencil_heap_run3 h data coeff D C dist [:: n1; n2; n3 - l] order n3 ED EC
    HsC Hord Hl Hnum n2 n1
    (fun j i k => k * (n1 * n2) + j * n1 + i)
    (fun j i x => x * (n1 * n2) + j * n1 + i) Hn2 Hn1.
- by move=> j i k [Hj [Hi Hk]]; rewrite -Enum; apply: lin3_bound.
- move=> j i k j' i' k' [Hj [Hi Hk]] [Hj' [Hi' Hk']] E.
  by have [-> -> ->] := lin3_inj Hi Hj Hi' Hj' E.
- by move=> j i x Hj Hi Hx; rewrite HsD; apply: lin3_bound.
- exists pd; split=> //; [by rewrite E|by rewrite Enum|].
  by move=> i j k Hi Hj Hk; rewrite Hpd.
Qed.

End DiffOperatorBranches.

Lemma sumR_ext (n : nat) (f g : Z -> R) :
  (forall k, f k = g k) -> sumR n f = sumR n g.
Proof. by move=> E; elim: n => //= n ->; rewrite E. Qed.

Lemma well_formed_2d (a : mxArray) (n1 n2 : Z) :
  well_formed a -> mxGetDimensions a = [:: n1; n2] ->
  [/\ 0 <= n1, 0 <= n2 & Zsize (mxGetPr a) = n1 * n2].
Proof.
case=> _ Hpos Hs E; move: Hpos Hs; rewrite E /= andbT Z.mul_1_r.
by move=> /andP [/Z.leb_le H1 /Z.leb_le H2] ->.
Qed.

Lemma well_formed_3d (a : mxArray) (n1 n2 n3 : Z) :
  well_formed a -> mxGetDimensions a = [:: n1; n2; n3] ->
  [/\ 0 <= n1, 0 <= n2, 0 <= n3 & Zsize (mxGetPr a) = n1 * n2 * n3].
Proof.
case=> _ Hpos Hs E; move: Hpos Hs; rewrite E /= andbT Z.mul_1_r.
move=> /and3P [/Z.leb_le H1 /Z.leb_le H2 /Z.leb_le H3] ->.
by split=> //; ring.
Qed.

(** What a call of [diffOperator] returns when the stencil fits. *)
Lemma diffOperator_run (data coeff : handle) (dist : R) (dim : Z)
    (h : heap) (D C : mxArray) :
  deref h data = Returned D -> deref h coeff = Returned C ->
  well_formed D -> well_formed C ->
  (size (mxGetDimensions D) = 2 \/ size (mxGetDimensions D) = 3)%N ->
  1 <= dim <= Zsize (mxGetDimensions D) ->
  let dims := mxGetDimensions D in
  let order := mxGetNumberOfElements C in
  let axis := Z.to_nat (dim - 1) in
  let extent := nth 0 dims axis in
  2 * order - 1 <= extent ->
  exists pd,
    let odims := set_nth 0 dims axis (extent - (2 * order - 1)) in
    [/\ diffOperator data coeff dist dim h =
        Returned (size h, rcons h (Some (MxArray odims pd))),
        Zsize pd = numel odims
      & forall idx, inside odims idx ->
          let p := nth 0 idx axis in
          get 0%Re pd (lin odims idx) =
          sumR (Z.to_nat order) (fun k =>
            get 0 (mxGetPr C) k
            * (get 0 (mxGetPr D) (lin dims (along axis idx (p + order + k)))
               - get 0 (mxGetPr D)
                   (lin dims (along axis idx (p + order - 1 - k))))
            / dist)%Re].
Proof.
move=> ED EC WD WC Hnd Hdim dims order axis extent Hfit.
rewrite /extent /axis /dims in Hfit *.
case Edims: (mxGetDimensions D) Hnd Hdim Hfit => [|n1 [|n2 [|n3 [|n4 ds]]]];
  case=> //= _ Hdim Hfit.
- (* 2-D *)
  have [Hn1 Hn2 HsD] := well_formed_2d WD Edims.
  have Hcases : dim = 1 \/ dim = 2 by rewrite /Zsize /= in Hdim; lia.
  case: Hcases Hfit => -> /= Hfit.
  + have [pd [E Hs Hpd]] :=
      @diffOperator_2d_rows h data coeff D C dist ED EC WC 1 n1 n2 Edims Hn1
        Hn2 HsD (Z.le_refl 1) Hfit.
    exists pd; split=> //; first by rewrite Hs /= Z.mul_1_r.
    case=> [|i [|j [|? ?]]] //=; rewrite ?andbF // andbT.
    move=> /andP [/andP [/Z.leb_le Hi0 /Z.ltb_lt Hi1]
                  /andP [/Z.leb_le Hj0 /Z.ltb_lt Hj1]].
    have -> : i + (n1 - (2 * order - 1)) * (j + n2 * 0)
              = j * (n1 - (2 * order - 1)) + i by ring.
    rewrite Hpd //; apply: sumR_ext => k.
    by congr (_ * (get _ _ _ - get _ _ _) / _)%Re; rewrite /along /order /=; ring.
  + have [pd [E Hs Hpd]] :=
      @diffOperator_2d_cols h data coeff D C dist ED EC WC 2 n1 n2 Edims Hn1
        Hn2 HsD (Z.le_refl 2) Hfit.
    exists pd; split=> //; first by rewrite Hs /= Z.mul_1_r.
    case=> [|i [|j [|? ?]]] //=; rewrite ?andbF // andbT.
    move=> /andP [/andP [/Z.leb_le Hi0 /Z.ltb_lt Hi1]
                  /andP [/Z.leb_le Hj0 /Z.ltb_lt Hj1]].
    have -> : i + n1 * (j + (n2 - (2 * order - 1)) * 0) = j * n1 + i by ring.
    rewrite Hpd //; apply: sumR_ext => k.
    by congr (_ * (get _ _ _ - get _ _ _) / _)%Re; rewrite /along /order /=; ring.
- (* 3-D *)
  have [Hn1 Hn2 Hn3 HsD] := well_formed_3d WD Edims.
  have Hcases : dim = 1 \/ dim = 2 \/ dim = 3.
    by rewrite /Zsize /= in Hdim; lia.
  case: Hcases Hfit => [->|[->|->]] /= Hfit.
  + have [pd [E Hs Hpd]] :=
      @diffOperator_3d_axis1 h data coeff D C dist ED EC WC 1 n1 n2 n3 Edims
        Hn1 Hn2 Hn3 HsD (Z.le_refl 1) Hfit.
    exists pd; split=> //; first by rewrite Hs /order /= Z.mul_1_r; ring.
    case=> [|i [|j [|k [|? ?]]]] //=; rewrite ?andbF // andbT.
    move=> /and3P [/andP [/Z.leb_le Hi0 /Z.ltb_lt Hi1]
                   /andP [/Z.leb_le Hj0 /Z.ltb_lt Hj1]
                   /andP [/Z.leb_le Hk0 /Z.ltb_lt Hk1]].
    have -> : i + (n1 - (2 * order - 1)) * (j + n2 * (k + n3 * 0))
              = k * ((n1 - (2 * order - 1)) * n2)
                + j * (n1 - (2 * order - 1)) + i by ring.
    rewrite Hpd //; apply: sumR_ext => s.
    by congr (_ * (get _ _ _ - get _ _ _) / _)%Re; rewrite /along /order /=; ring.
  + have [pd [E Hs Hpd]] :=
      @diffOperator_3d_axis2 h data coeff D C dist ED EC WC 2 n1 n2 n3 Edims
        Hn1 Hn2 Hn3 HsD (erefl _) Hfit.
    exists pd; split=> //; first by rewrite Hs /order /= Z.mul_1_r; ring.
    case=> [|i [|j [|k [|? ?]]]] //=; rewrite ?andbF // andbT.
    move=> /and3P [/andP [/Z.leb_le Hi0 /Z.ltb_lt Hi1]
                   /andP [/Z.leb_le Hj0 /Z.ltb_lt Hj1]
                   /andP [/Z.leb_le Hk0 /Z.ltb_lt Hk1]].
    have -> : i + n1 * (j + (n2 - (2 * order - 1)) * (k + n3 * 0))
              = k * (n1 * (n2 - (2 * order - 1))) + j * n1 + i by ring.
    rewrite Hpd //; apply: sumR_ext => s.
    by congr (_ * (get _ _ _ - get _ _ _) / _)%Re; rewrite /along /order /=; ring.
  + have [pd [E Hs Hpd]] :=
      @diffOperator_3d_axis3 h data coeff D C dist ED EC WC 3 n1 n2 n3 Edims
        Hn1 Hn2 Hn3 HsD (Z.le_refl 3) Hfit.
    exists pd; split=> //; first by rewrite Hs /order /= Z.mul_1_r; ring.
    case=> [|i [|j [|k [|? ?]]]] //=; rewrite ?andbF // andbT.
    move=> /and3P [/andP [/Z.leb_le Hi0 /Z.ltb_lt Hi1]
                   /andP [/Z.leb_le Hj0 /Z.ltb_lt Hj1]
                   /andP [/Z.leb_le Hk0 /Z.ltb_lt Hk1]].
    have -> : i + n1 * (j + n2 * (k + (n3 - (2 * order - 1)) * 0))
              = k * (n1 * n2) + j * n1 + i by ring.
    rewrite Hpd //; apply: sumR_ext => s.
    by congr (_ * (get _ _ _ - get _ _ _) / _)%Re; rewrite /along /order /=; ring.
Qed.

(** ** [diffOperator] raises no error of its own *)

Lemma no_fail_bind {A B : Type} (m : outcome A) (k : A -> outcome B) :
  no_fail m -> (forall x, no_fail (k x)) -> no_fail (bind m k).
Proof. by case: m => //= x _ Hk. Qed.

Lemma no_fail_iterate {S : Type} (body : Z -> S -> outcome S) (n : nat)
    (lo : Z) (s : S) :
  (forall i s0, no_fail (body i s0)) -> no_fail (iterate n lo body s).
Proof.
move=> Hb; elim: n lo s => [|n IH] lo s //=.
by apply: no_fail_bind => // s1; apply: IH.
Qed.

Lemma no_fail_for_loop {S : Type} (body : Z -> S -> outcome S) (lo hi : Z)
    (s : S) :
  (forall i s0, no_fail (body i s0)) -> no_fail (for_loop lo hi body s).
Proof. exact: no_fail_iterate. Qed.

Lemma no_fail_load {T : Type} (d : T) (p : seq T) (i : Z) :
  no_fail (load d p i).
Proof. by rewrite /load; case: ifP. Qed.

Lemma no_fail_store {T : Type} (d : T) (p : seq T) (i : Z) (x : T) :
  no_fail (store d p i x).
Proof. by rewrite /store; case: ifP. Qed.

Lemma no_fail_deref (h : heap) (p : handle) : no_fail (deref h p).
Proof. by rewrite /deref; case: (nth _ _ _). Qed.

Lemma no_fail_rd (p : handle) (i : Z) (h : heap) : no_fail (rd p i h).
Proof.
by apply: no_fail_bind; [exact: no_fail_deref|move=> a; exact: no_fail_load].
Qed.

Lemma no_fail_wr (p : handle) (i : Z) (x : R) (h : heap) :
  no_fail (wr p i x h).
Proof.
apply: no_fail_bind; first exact: no_fail_deref.
by move=> a; apply: no_fail_bind; first exact: no_fail_store.
Qed.

Lemma no_fail_create (ndim : Z) (dims : seq Z) (h : heap) :
  no_fail (mxCreateNumericArray ndim dims h).
Proof. by rewrite /mxCreateNumericArray; case: ifP. Qed.

Lemma no_fail_stencil_step (p data coeff : handle) (dist : R)
    (iOrder o x1 x2 : Z) (h : heap) :
  no_fail (stencil_step p data coeff dist iOrder o x1 x2 h).
Proof.
rewrite /stencil_step.
do 4![apply: no_fail_bind; first exact: no_fail_rd; move=> ?].
exact: no_fail_wr.
Qed.

Lemma no_fail_stencil_sweep (first last start2 : Z)
    (step : Z -> Z -> Z -> heap -> outcome heap) (h : heap) :
  (forall i x1 x2 h0, no_fail (step i x1 x2 h0)) ->
  no_fail (stencil_sweep first last start2 step h).
Proof.
move=> Hs; rewrite stencil_sweep_for.
by apply: no_fail_for_loop => i s0.
Qed.

Ltac no_fail_loops :=
  repeat first
    [ apply: no_fail_for_loop; move=> ? ?
    | apply: no_fail_stencil_sweep; move=> ? ? ? ?
    | exact: no_fail_stencil_step ].

Lemma diffOperator_no_fail (data coeff : handle) (dist : R) (dim : Z)
    (h : heap) :
  no_fail (diffOperator data coeff dist dim h).
Proof.
rewrite /diffOperator.
apply: no_fail_bind; first exact: no_fail_deref; move=> D.
apply: no_fail_bind; first exact: no_fail_deref; move=> C.
cbv zeta; case: ifP => _.
- do 2![apply: no_fail_bind; first exact: no_fail_load; move=> ?].
  case: ifP => _.
  + apply: no_fail_bind; first exact: no_fail_create; case=> p h0.
    by apply: no_fail_bind => //; no_fail_loops.
  + apply: no_fail_bind; first exact: no_fail_create; case=> p h0.
    by apply: no_fail_bind => //; no_fail_loops.
- do 3![apply: no_fail_bind; first exact: no_fail_load; move=> ?].
  case: ifP => _; last case: ifP => _.
  + apply: no_fail_bind; first exact: no_fail_create; case=> p h0.
    by apply: no_fail_bind => //; no_fail_loops.
  + apply: no_fail_bind; first exact: no_fail_create; case=> p h0.
    by apply: no_fail_bind => //; no_fail_loops.
  + apply: no_fail_bind; first exact: no_fail_create; case=> p h0.
    by apply: no_fail_bind => //; no_fail_loops.
Qed.

(** C2.  For a 2-D or 3-D array [data], a coefficient vector of [order]
    entries and a valid axis [dim] whose extent holds the stencil
    ([2*order - 1 <= extent]), [diffOperator] returns a new cell of the heap
    (the heap is otherwise unchanged): its extent along the axis is the
    input extent minus [2*order - 1], the other extents are those of the
    input, and its entry at the multi-index [idx], at position [p] along the
    axis, is the sum over [k = 0 .. order-1], in this order, of
    [coeff[k] * (data[p+order+k] - data[p+order-1-k]) / dist] taken along
    the axis. *)
Theorem diffOperator_stencil (data coeff : handle) (dist : R) (dim : Z)
    (h : heap) (D C : mxArray) :
  deref h data = Returned D -> deref h coeff = Returned C ->
  well_formed D -> well_formed C ->
  (size (mxGetDimensions D) = 2 \/ size (mxGetDimensions D) = 3)%N ->
  1 <= dim <= Zsize (mxGetDimensions D) ->
  let dims := mxGetDimensions D in
  let order := mxGetNumberOfElements C in
  let axis := Z.to_nat (dim - 1) in
  let extent := nth 0 dims axis in
  2 * order - 1 <= extent ->
  exists pd,
    let odims := set_nth 0 dims axis (extent - (2 * order - 1)) in
    [/\ diffOperator data coeff dist dim h =
        Returned (size h, rcons h (Some (MxArray odims pd))),
        Zsize pd = numel odims
      & forall idx, inside odims idx ->
          let p := nth 0 idx axis in
          get 0%Re pd (lin odims idx) =
          sumR (Z.to_nat order) (fun k =>
            get 0 (mxGetPr C) k
            * (get 0 (mxGetPr D) (lin dims (along axis idx (p + order + k)))
               - get 0 (mxGetPr D)
                   (lin dims (along axis idx (p + order - 1 - k))))
            / dist)%Re].
Proof. exact: diffOperator_run. Qed.

Lemma diffOperator_stencil_witness :
  exists pd,
    diffOperator 0%N 1%N 2%Re 1
      (heap_dc [:: 4; 1] [:: 1; 2; 4; 8]%Re [:: 3]%Re) =
    Returned (2%N, rcons (heap_dc [:: 4; 1] [:: 1; 2; 4; 8]%Re [:: 3]%Re)
                         (Some (MxArray [:: 3; 1] pd)))
    /\ get 0%Re pd 1 = (0 + 3 * (4 - 2) / 2)%Re.
Proof.
have [|||||||pd [E _ Hpd]] :=
  @diffOperator_stencil 0%N 1%N 2%Re 1
    (heap_dc [:: 4; 1] [:: 1; 2; 4; 8]%Re [:: 3]%Re)
    (MxArray [:: 4; 1] [:: 1; 2; 4; 8]%Re) (MxArray [:: 1; 1] [:: 3]%Re).
- reflexivity.
- reflexivity.
- by split.
- by split.
- by left.
- by rewrite /Zsize /=; lia.
- by rewrite /mxGetNumberOfElements /=; lia.
- exists pd; split; first exact: E.
  exact: (Hpd [:: 1; 0] (erefl _)).
Defined.

(** The claim C6 fails on the code: with [2*order - 1 = extent] (here
    [order = 1] on a [1 x 1] array) [diffOperator] reports no error and
    returns an array that is empty along the axis. *)
Lemma diffOperator_returns_at_equal_extent :
  (2 * 1 - 1 >= 1)
  /\ diffOperator 0%N 1%N 2%Re 1 (heap_dc [:: 1; 1] [:: 5]%Re [:: 3]%Re) =
     Returned (2%N, rcons (heap_dc [:: 1; 1] [:: 5]%Re [:: 3]%Re)
                          (Some (MxArray [:: 0; 1] [::]))).
Proof. by split; [lia|vm_compute]. Qed.

(** C6, as the code has it.  [diffOperator] has no check of [order] against
    the extent: whatever its arguments, it never ends with an error
    message; and whenever [2*order - 1 <= extent] along a valid axis of a
    2-D or 3-D array, equality included, it returns an array whose extent
    along the axis is [extent - (2*order - 1)], which is empty when the two
    are equal. *)
Theorem diffOperator_extent_unchecked (data coeff : handle) (dist : R)
    (dim : Z) (h : heap) (D C : mxArray) :
  (forall msg, diffOperator data coeff dist dim h <> Failed msg)
  /\ (deref h data = Returned D -> deref h coeff = Returned C ->
      well_formed D -> well_formed C ->
      (size (mxGetDimensions D) = 2 \/ size (mxGetDimensions D) = 3)%N ->
      1 <= dim <= Zsize (mxGetDimensions D) ->
      let dims := mxGetDimensions D in
      let order := mxGetNumberOfElements C in
      let axis := Z.to_nat (dim - 1) in
      let extent := nth 0 dims axis in
      2 * order - 1 <= extent ->
      exists pd,
        let odims := set_nth 0 dims axis (extent - (2 * order - 1)) in
        [/\ diffOperator data coeff dist dim h =
            Returned (size h, rcons h (Some (MxArray odims pd))),
            Zsize pd = numel odims
          & 2 * order - 1 = extent -> pd = [::]]).
Proof.
split.
  move=> msg E; have := diffOperator_no_fail data coeff dist dim h.
  by rewrite E.
move=> ED EC WD WC Hnd Hdim dims order axis extent Hfit.
have [pd [E Hs _]] := diffOperator_run dist ED EC WD WC Hnd Hdim Hfit.
exists pd; split=> // Eeq.
have Hz : Zsize pd = 0.
  rewrite Hs -/dims -/order -/axis -/extent -Eeq Z.sub_diag.
  rewrite /axis /dims.
  move: Hnd Hdim; rewrite /Zsize.
  case: (mxGetDimensions D) => [|n1 [|n2 [|n3 [|? ?]]]] /=; case=> // _ Hdim.
  - have [->|->] : dim = 1 \/ dim = 2 by lia.
    + rewrite /=; ring.
    + rewrite /=; ring.
  - have [->|[->|->]] : dim = 1 \/ dim = 2 \/ dim = 3 by lia.
    + rewrite /=; ring.
    + rewrite /=; ring.
    + rewrite /=; ring.
by move: Hz; rewrite /Zsize; case: pd {E Hs}.
Qed.

Lemma diffOperator_extent_unchecked_witness :
  exists pd,
    diffOperator 0%N 1%N 2%Re 1 (heap_dc [:: 1; 1] [:: 5]%Re [:: 3]%Re) =
    Returned (2%N, rcons (heap_dc [:: 1; 1] [:: 5]%Re [:: 3]%Re)
                         (Some (MxArray [:: 0; 1] pd)))
    /\ pd = [::].
Proof.
have [_ Hret] :=
  @diffOperator_extent_unchecked 0%N 1%N 2%Re 1
    (heap_dc [:: 1; 1] [:: 5]%Re [:: 3]%Re)
    (MxArray [:: 1; 1] [:: 5]%Re) (MxArray [:: 1; 1] [:: 3]%Re).
have [|||||||pd [E _ Hpd]] := Hret.
- reflexivity.
- reflexivity.
- by split.
- by split.
- by left.
- by rewrite /Zsize /=; lia.
- by rewrite /mxGetNumberOfElements /=; lia.
- exists pd; split; first exact: E.
  exact: Hpd.
Defined.

(** C10.  On a 2-D array [diffOperator] takes every axis index below 1 for
    axis 1 and every axis index from 2 on (3 included) for axis 2: the call
    is the call with the clamped index, it never ends with an error
    message, and whenever the stencil fits the extent of that axis it
    returns the derivative array of that axis: a new array with the extent
    of the axis reduced by [2*order - 1], one entry per point, each entry
    the stencil sum taken along the rows (axis 1), respectively along the
    columns (axis 2). *)
Theorem diffOperator_2d_axis_clamped (data coeff : handle) (dist : R)
    (dim : Z) (h : heap) (D C : mxArray) (n1 n2 : Z) :
  deref h data = Returned D -> deref h coeff = Returned C ->
  well_formed D -> well_formed C ->
  mxGetDimensions D = [:: n1; n2] ->
  let order := mxGetNumberOfElements C in
  let l := 2 * order - 1 in
  let term k a b :=
    (get 0 (mxGetPr C) k
     * (get 0 (mxGetPr D) a - get 0 (mxGetPr D) b) / dist)%Re in
  [/\ dim < 1 ->
      diffOperator data coeff dist dim h = diffOperator data coeff dist 1 h,
      2 <= dim ->
      diffOperator data coeff dist dim h = diffOperator data coeff dist 2 h,
      forall msg, diffOperator data coeff dist dim h <> Failed msg,
      dim < 1 -> l <= n1 ->
      exists pd,
        [/\ diffOperator data coeff dist dim h =
            Returned (size h, rcons h (Some (MxArray [:: n1 - l; n2] pd))),
            Zsize pd = (n1 - l) * n2
          & forall i j, 0 <= i < n1 - l -> 0 <= j < n2 ->
              get 0%Re pd (j * (n1 - l) + i) =
              sumR (Z.to_nat order) (fun k =>
                term k (j * n1 + (i + order + k))
                       (j * n1 + (i + order - 1 - k)))]
    & 2 <= dim -> l <= n2 ->
      exists pd,
        [/\ diffOperator data coeff dist dim h =
            Returned (size h, rcons h (Some (MxArray [:: n1; n2 - l] pd))),
            Zsize pd = n1 * (n2 - l)
          & forall i j, 0 <= i < n1 -> 0 <= j < n2 - l ->
              get 0%Re pd (j * n1 + i) =
              sumR (Z.to_nat order) (fun k =>
                term k ((j + order + k) * n1 + i)
                       ((j + order - 1 - k) * n1 + i))]].
Proof.
move=> ED EC WD WC Edims order l term.
have [Hn1 Hn2 HsD] := well_formed_2d WD Edims.
split.
- move=> Hdim; rewrite /diffOperator ED EC /= /mxGetNumberOfDimensions Edims /=.
  by have -> : (dim <? 1) = true by lia.
- move=> Hdim; rewrite /diffOperator ED EC /= /mxGetNumberOfDimensions Edims /=.
  have -> : (dim <? 1) = false by lia.
  by have -> : (dim =? 1) = false by lia.
- move=> msg E; have := diffOperator_no_fail data coeff dist dim h.
  by rewrite E.
- move=> Hdim Hfit.
  have Hd1 : dim <= 1 by lia.
  exact: (@diffOperator_2d_rows h data coeff D C dist ED EC WC dim n1 n2 Edims
            Hn1 Hn2 HsD Hd1 Hfit).
- move=> Hdim Hfit.
  exact: (@diffOperator_2d_cols h data coeff D C dist ED EC WC dim n1 n2 Edims
            Hn1 Hn2 HsD Hdim Hfit).
Qed.

Lemma diffOperator_2d_axis_clamped_witness :
  (exists pd,
     diffOperator 0%N 1%N 2%Re 0
       (heap_dc [:: 2; 2] [:: 1; 2; 4; 8]%Re [:: 3]%Re) =
     Returned (2%N, rcons (heap_dc [:: 2; 2] [:: 1; 2; 4; 8]%Re [:: 3]%Re)
                          (Some (MxArray [:: 1; 2] pd)))
     /\ get 0%Re pd 1 = (0 + 3 * (8 - 4) / 2)%Re)
  /\ (exists pd,
        diffOperator 0%N 1%N 2%Re 3
          (heap_dc [:: 2; 2] [:: 1; 2; 4; 8]%Re [:: 3]%Re) =
        Returned (2%N, rcons (heap_dc [:: 2; 2] [:: 1; 2; 4; 8]%Re [:: 3]%Re)
                             (Some (MxArray [:: 2; 1] pd)))
        /\ get 0%Re pd 1 = (0 + 3 * (8 - 2) / 2)%Re).
Proof.
split.
- have [|||||_ _ _ Hrows _] :=
    @diffOperator_2d_axis_clamped 0%N 1%N 2%Re 0
      (heap_dc [:: 2; 2] [:: 1; 2; 4; 8]%Re [:: 3]%Re)
      (MxArray [:: 2; 2] [:: 1; 2; 4; 8]%Re) (MxArray [:: 1; 1] [:: 3]%Re)
      2 2.
  + reflexivity.
  + reflexivity.
  + by split.
  + by split.
  + reflexivity.
  + have [||pd [E _ Hpd]] := Hrows.
    * lia.
    * by rewrite /mxGetNumberOfElements /=; lia.
    * exists pd; split; first exact: E.
      have I0 : 0 <= 0 < 2 - (2 * mxGetNumberOfElements
                                   (MxArray [:: 1; 1] [:: 3]%Re) - 1).
        by rewrite /mxGetNumberOfElements /=; lia.
      have J1 : 0 <= 1 < 2 by lia.
      exact: (Hpd 0 1 I0 J1).
- have [|||||_ _ _ _ Hcols] :=
    @diffOperator_2d_axis_clamped 0%N 1%N 2%Re 3
      (heap_dc [:: 2; 2] [:: 1; 2; 4; 8]%Re [:: 3]%Re)
      (MxArray [:: 2; 2] [:: 1; 2; 4; 8]%Re) (MxArray [:: 1; 1] [:: 3]%Re)
      2 2.
  + reflexivity.
  + reflexivity.
  + by split.
  + by split.
  + reflexivity.
  + have [||pd [E _ Hpd]] := Hcols.
    * lia.
    * by rewrite /mxGetNumberOfElements /=; lia.
    * exists pd; split; first exact: E.
      have I1 : 0 <= 1 < 2 by lia.
      have J0 : 0 <= 0 < 2 - (2 * mxGetNumberOfElements
                                   (MxArray [:: 1; 1] [:: 3]%Re) - 1).
        by rewrite /mxGetNumberOfElements /=; lia.
      exact: (Hpd 1 0 I1 J0).
Defined.

(** ** The reals as a MathComp field

    Matrices, polynomials and their theory come from MathComp; the
    instances below give the Standard Library's [R] the structures they
    need (decidable equality and choice are classical). *)

Definition eqr (x y : R) : bool := if Req_dec_T x y then true else false.
Lemma eqrP : Equality.axiom eqr.
Proof. by move=> x y; rewrite /eqr; case: (Req_dec_T x y) => H; constructor. Qed.
HB.instance Definition _ := hasDecEq.Build R eqrP.

Definition pickR (P : pred R) (n : nat) : option R :=
  match excluded_middle_informative (exists x, P x) with
  | left ex => Some (proj1_sig (constructive_indefinite_description _ ex))
  | right _ => None
  end.
Lemma pickR_correct (P : pred R) n x : pickR P n = Some x -> P x.
Proof.
rewrite /pickR; case: excluded_middle_informative => // ex [<-].
exact: (proj2_sig (constructive_indefinite_description _ ex)).
Qed.
Lemma pickR_complete (P : pred R) : (exists x, P x) -> exists n, pickR P n.
Proof. by move=> ex; exists 0%N; rewrite /pickR; case: excluded_middle_informative. Qed.
Lemma pickR_ext (P Q : pred R) : P =1 Q -> pickR P =1 pickR Q.
Proof. by move=> /functional_extensionality ->. Qed.
HB.instance Definition _ := hasChoice.Build R pickR_correct pickR_complete pickR_ext.

Lemma RplusA : associative Rplus.
Proof. by move=> x y z; rewrite Rplus_assoc. Qed.
Lemma RmultA : associative Rmult.
Proof. by move=> x y z; rewrite Rmult_assoc. Qed.
HB.instance Definition _ := GRing.isZmodule.Build R RplusA Rplus_comm Rplus_0_l Rplus_opp_l.
Lemma R1_neq0 : R1 != R0 :> R.
Proof. by apply/eqP; exact: R1_neq_R0. Qed.
HB.instance Definition _ := GRing.Zmodule_isComNzRing.Build R
  RmultA Rmult_comm Rmult_1_l Rmult_plus_distr_r R1_neq0.
Lemma RmulVf (x : R) : x != 0%R -> (Rinv x * x)%Re = 1%Re.
Proof. by move=> /eqP H; apply: Rinv_l. Qed.
HB.instance Definition _ := GRing.ComNzRing_isField.Build R RmulVf Rinv_0.


Section RealField.

Local Open Scope ring_scope.
Import GRing.Theory.

Lemma natr_INR (n : nat) : n%:R = INR n :> R.
Proof.
elim: n => [|n IH] //; rewrite S_INR -IH -addn1 natrD //.
Qed.

Lemma exp_pow (x : R) (n : nat) : x ^+ n = pow x n.
Proof. by elim: n => [|n IH] //; rewrite exprS IH. Qed.

(** ** A Vandermonde matrix of odd powers is invertible *)

Section OddVandermonde.

Variable n : nat.
Variable x : 'I_n -> R.
Hypothesis x_neq0 : forall j, x j != 0.
Hypothesis x_sq_inj : injective (fun j => x j ^+ 2).

Definition odd_vander : 'M[R]_n := \matrix_(i, j) x j ^+ (2 * i + 1).

Lemma odd_vander_unit : odd_vander \in unitmx.
Proof.
rewrite -row_free_unit -kermx_eq0; apply/eqP/row_matrixP => i.
rewrite row0; set v := row i _.
have Hv : v *m odd_vander = 0 by rewrite /v -row_mul mulmx_ker row0.
pose E (k : nat) : R := if insub k is Some k' then v ord0 k' else 0.
pose p : {poly R} := \poly_(k < n) E k.
have Hroot : forall j, root p (x j ^+ 2).
  move=> j; apply/rootP.
  have /(congr1 (fun u : 'rV_n => u ord0 j)) := Hv.
  rewrite !mxE => Hsum.
  apply: (mulIf (x_neq0 j)); rewrite mul0r -[RHS]Hsum horner_poly mulr_suml.
  apply: eq_bigr => k _; rewrite /E valK -mulrA; congr (_ * _).
  by rewrite /odd_vander mxE -exprM -exprSr addn1.
have Hp : p = 0.
  apply/eqP/negPn/negP => Hp0.
  have Hall : all (root p) [seq x j ^+ 2 | j <- enum 'I_n].
    by apply/allP => y /mapP [j _ ->].
  have Huniq : uniq [seq x j ^+ 2 | j <- enum 'I_n].
    by rewrite map_inj_uniq // enum_uniq.
  have := max_poly_roots Hp0 Hall Huniq.
  by rewrite size_map size_enum_ord ltnNge size_poly.
apply/rowP => k; rewrite [RHS]mxE.
have := coef_poly n E k; rewrite -/p Hp coef0 ltn_ord /E valK.
by move=> H; exact: (esym H).
Qed.

End OddVandermonde.

End RealField.

(** ** [dCoef] *)

(** An exact solver, [A \ b = A^-1 b]. *)
Definition exact_solve (n : nat) (A : 'M[R]_n) (b : 'cV[R]_n) : 'cV[R]_n :=
  (invmx A *m b)%R.

Lemma exact_solve_correct (n : nat) (A : 'M[R]_n) (b : 'cV[R]_n) :
  A \in unitmx -> (A *m exact_solve A b)%R = b.
Proof. by move=> UA; rewrite /exact_solve mulKVmx. Qed.

Section SystemMatrix.

Local Open Scope ring_scope.
Import GRing.Theory.

Lemma sumR_big (n : nat) (f : Z -> R) :
  sumR n f = \sum_(j < n) f (Z.of_nat j).
Proof.
elim: n => [|n IH]; first by rewrite big_ord0.
by rewrite big_ord_recr /= -IH.
Qed.

Lemma system_entry_exp (g : grid) (i j : nat) :
  system_entry g (Z.of_nat i) (Z.of_nat j)
  = IZR (node g (Z.of_nat j)) ^+ (2 * i + 1).
Proof.
rewrite /system_entry exp_pow.
have -> : (2 * (Z.of_nat i + 1) - 1)%Z = Z.of_nat (2 * i + 1).
  by rewrite -multE -plusE; lia.
by rewrite -pow_powerRZ.
Qed.

Lemma node_pos (g : grid) (j : Z) : (0 <= j -> 1 <= node g j)%Z.
Proof. by case: g; rewrite /node; lia. Qed.

Lemma node_inj (g : grid) (j j' : Z) : node g j = node g j' -> j = j'.
Proof. by case: g; rewrite /node; lia. Qed.

Lemma system_unit (g : grid) (n : nat) (pA : seq R) :
  (forall i j : 'I_n,
     nth 0%Re pA (j * n + i) = system_entry g (Z.of_nat i) (Z.of_nat j)) ->
  mx_of_buf n pA \in unitmx.
Proof.
move=> HA.
pose x (j : 'I_n) : R := IZR (node g (Z.of_nat j)).
have -> : mx_of_buf n pA = odd_vander x.
  by apply/matrixP => i j; rewrite !mxE HA system_entry_exp.
apply: odd_vander_unit.
- move=> j; apply/eqP => /eq_IZR_R0.
  have := @node_pos g (Z.of_nat j); lia.
- move=> j j'; rewrite /x !exp_pow /= !Rmult_1_r -!mult_IZR => /eq_IZR E.
  have Hj := @node_pos g (Z.of_nat j) ltac:(lia).
  have Hj' := @node_pos g (Z.of_nat j') ltac:(lia).
  have En : node g (Z.of_nat j) = node g (Z.of_nat j') by nia.
  by apply: ord_inj; have := node_inj En; lia.
Qed.

Lemma nth_buf_of_col (n : nat) (c : 'cV[R]_n) (j : 'I_n) :
  nth 0%Re (buf_of_col c) j = c j ord0.
Proof.
by rewrite /buf_of_col (nth_map j) ?size_enum_ord // nth_ord_enum.
Qed.

(** The linear system read off the buffers, row by row. *)
Lemma solved_rows (g : grid) (n : nat) (pA pb : seq R) (c : 'cV[R]_n) :
  (forall i j : 'I_n,
     nth 0%Re pA (j * n + i) = system_entry g (Z.of_nat i) (Z.of_nat j)) ->
  (forall i : 'I_n, nth 0%Re pb i = system_rhs g (Z.of_nat i)) ->
  mx_of_buf n pA *m c = col_of_buf n pb ->
  forall i : 'I_n,
    sumR n (fun j => (system_entry g (Z.of_nat i) j
                      * get 0 (buf_of_col c) j)%Re)
    = system_rhs g (Z.of_nat i).
Proof.
move=> HA Hb Ec i.
have := congr1 (fun u : 'cV_n => u i ord0) Ec.
rewrite !mxE Hb => <-; rewrite sumR_big.
apply: eq_bigr => j _.
by rewrite !mxE HA /get Nat2Z.id nth_buf_of_col.
Qed.

End SystemMatrix.

Lemma with_cell_swap (h : heap) (p q : handle) (ds ds' : seq Z)
    (buf buf' : seq R) :
  p <> q ->
  with_cell (with_cell h p ds buf) q ds' buf' =
  with_cell (with_cell h q ds' buf') p ds buf.
Proof. by move=> /eqP/negPf NE; rewrite /with_cell set_set_nth NE. Qed.

Lemma strcmp_eq (a b : string) : (strcmp a b =? 0) = true <-> a = b.
Proof.
rewrite /strcmp; split.
  case E: (String.compare a b) => //= _.
  exact: String.compare_eq_iff.
move=> ->; have -> // : String.compare b b = Eq.
by have := String.compare_antisym b b; case: (String.compare b b).
Qed.

Lemma strcmp_type_name (g : grid) :
  ((strcmp (type_name g) "r" =? 0) = (if g is Regular then true else false))
  /\ ((strcmp (type_name g) "s" =? 0)
      = (if g is Staggered then true else false)).
Proof. by case: g. Qed.

(** The system that [dCoef] hands to the solver. *)
Lemma dCoef_system_run (g : grid) (order : Z) (h : heap) :
  0 < order ->
  exists pA pb,
    [/\ dCoef_system order (type_name g) h =
        Returned (size h, (size h).+1,
                  rcons (rcons h (Some (MxArray [:: order; order] pA)))
                        (Some (MxArray [:: order; 1] pb))),
        Zsize pA = order * order /\ Zsize pb = order,
        forall i j, 0 <= i < order -> 0 <= j < order ->
          get 0%Re pA (j * order + i) = system_entry g i j
      & forall i, 0 <= i < order -> get 0%Re pb i = system_rhs g i].
Proof.
move=> Hord.
have Hord0 : 0 <= order by lia.
have H1 : 0 <= 1 by lia.
rewrite /dCoef_system mxCreateDoubleMatrix_ok //=.
set zA := nseq (Z.to_nat (order * order)) 0%Re.
set hA := with_cell h (size h) _ zA.
have ShA : size hA = (size h).+1 by rewrite /hA with_cell_fresh size_rcons.
rewrite mxCreateDoubleMatrix_ok //= ShA Z.mul_1_r.
set zb := nseq (Z.to_nat order) 0%Re.
have Hzb : Zsize zb = order by rewrite /zb Zsize_nseq.
have HzA : Zsize zA = order * order by rewrite /zA Zsize_nseq //; nia.
have NE : size h <> (size h).+1.
  by move=> /eqP; rewrite -[X in X == _]addn0 -addn1 eqn_add2l.
pose b0 := if g is Regular then (1 / 2)%Re else 1%Re.
pose pb := upd 0%Re zb 0 b0.
have Hpb : Zsize pb = order by rewrite /pb Zsize_upd ?Hzb //; lia.
(* the loops, on the buffer of [A] *)
have Hfill : forall hb,
    for_loop 0 order (fun j => for_loop 0 order (fun i =>
      wr (size h) (j * order + i)
         (powerRZ (IZR (node g j)) (2 * (i + 1) - 1))))
      (with_cell hb (size h) [:: order; order] zA) =
    let* pA := for_loop 0 order (fun j => for_loop 0 order (fun i pA =>
        store 0%Re pA (j * order + i)
          (powerRZ (IZR (node g j)) (2 * (i + 1) - 1)))) zA in
    Returned (with_cell hb (size h) [:: order; order] pA).
  by move=> hb; apply: for_loop2_lift => j i t0 _ _; apply: wr_cell.
have [|pA [EA HsA HA _]] :=
  @sweep2_run order order (order * order) (fun j i => j * order + i)
    (fun j i _ => system_entry g i j)
    (fun j i pA => store 0%Re pA (j * order + i)
                     (powerRZ (IZR (node g j)) (2 * (i + 1) - 1)))
    zA Hord0 Hord0 (@lin2_range order order) (@lin2_range_inj order order) HzA.
  move=> j i buf Hr Hs _; have Hk := lin2_range Hr.
  by rewrite store_ok ?Hs.
have Efinal :
    with_cell (with_cell h (size h).+1 [:: order; 1] pb) (size h)
      [:: order; order] pA =
    rcons (rcons h (Some (MxArray [:: order; order] pA)))
          (Some (MxArray [:: order; 1] pb)).
  rewrite -(@with_cell_swap h (size h) (size h).+1 _ _ _ _ NE).
  by rewrite with_cell_fresh -[(size h).+1](size_rcons h (Some (MxArray [:: order; order] pA))) with_cell_fresh.
have Eb : wr (size h).+1 0 b0 (with_cell hA (size h).+1 [:: order; 1] zb) =
    Returned (with_cell (with_cell h (size h).+1 [:: order; 1] pb) (size h)
                [:: order; order] zA).
  have Hz0 : 0 <= 0 < Zsize zb by lia.
  rewrite wr_cell (store_ok _ _ Hz0) /=.
  by rewrite /hA -(@with_cell_swap h (size h) (size h).+1 _ _ _ _ NE).
exists pA, pb; split=> //.
- case: (strcmp_type_name g) => -> ->.
  case: g @b0 @pb Hpb HA EA Eb Efinal Hfill => /= Hpb HA EA Eb Efinal Hfill.
  + by rewrite Eb /= Hfill EA /= Efinal.
  + by rewrite Eb /= Hfill EA /= Efinal.
- move=> i j Hi Hj; exact: HA.
- move=> i Hi; rewrite /pb get_upd; try lia.
  by rewrite /system_rhs /b0 /zb get_nseq; case: Z.eqb_spec.
Qed.

Lemma set_nth_rcons3 {T : Type} (d : T) (s : seq T) (a b c x y : T) :
  set_nth d (set_nth d (rcons (rcons (rcons s a) b) c) (size s) x)
    (size s).+1 y
  = rcons (rcons (rcons s x) y) c.
Proof. by elim: s => //= z s ->. Qed.

Lemma same_dims_refl (ds : seq Z) : same_dims ds ds.
Proof. by elim: ds => //= x ds IH; rewrite Z.eqb_refl. Qed.

Section DCoefRun.

Variable mldivide : forall n : nat, 'M[R]_n -> 'cV[R]_n -> 'cV[R]_n.

Lemma dCoef_run (g : grid) (order : Z) (h : heap) :
  0 < order ->
  exists pA pb,
    let n := Z.to_nat order in
    let c := mldivide (mx_of_buf n pA) (col_of_buf n pb) in
    [/\ dCoef mldivide order (type_name g) h =
        Returned ((size h).+2,
                  rcons (rcons (rcons h None) None)
                        (Some (MxArray [:: order; 1] (buf_of_col c)))),
        forall i j : 'I_n,
          nth 0%Re pA (j * n + i)
          = system_entry g (Z.of_nat i) (Z.of_nat j)
      & forall i : 'I_n, nth 0%Re pb i = system_rhs g (Z.of_nat i)].
Proof.
move=> Hord.
have [pA [pb [E [HsA Hsb] HA Hb]]] := dCoef_system_run g h Hord.
exists pA, pb => n c.
have En : Z.of_nat n = order by rewrite /n; lia.
split.
- rewrite /dCoef E /= /mexCallMATLAB_mldivide.
  set hs := rcons (rcons h _) _.
  have EdA : deref hs (size h) = Returned (MxArray [:: order; order] pA).
    by apply: deref_rcons; apply: deref_rcons_last.
  have Edb : deref hs (size h).+1 = Returned (MxArray [:: order; 1] pb).
    by rewrite /hs -[(size h).+1](size_rcons h (Some (MxArray [:: order; order] pA)));
       apply: deref_rcons_last.
  rewrite EdA Edb /= /mxGetM /= /get /= -/n En !Z.eqb_refl /=.
  rewrite /alloc /mxDestroyArray.
  have Shs : size hs = (size h).+2 by rewrite /hs !size_rcons.
  rewrite (deref_rcons _ EdA) /=.
  have Edb' : deref (set_nth None (rcons hs (Some (MxArray [:: order; 1]
                  (buf_of_col c)))) (size h) None) (size h).+1
              = Returned (MxArray [:: order; 1] pb).
    rewrite /deref nth_set_nth /=.
    have -> : ((size h).+1 == size h) = false.
      by rewrite -[X in _ == X]addn0 -addn1 eqn_add2l.
    by have := deref_rcons (Some (MxArray [:: order; 1] (buf_of_col c))) Edb.
  by rewrite Edb' /= Shs /hs set_nth_rcons3.
- move=> i j.
  have Hi : 0 <= Z.of_nat i < order by have := ltn_ord i => /ltP; lia.
  have Hj : 0 <= Z.of_nat j < order by have := ltn_ord j => /ltP; lia.
  rewrite -(HA _ _ Hi Hj) /get; congr (nth _ _ _).
  by rewrite -multE -plusE; nia.
- move=> i.
  have Hi : 0 <= Z.of_nat i < order by have := ltn_ord i => /ltP; lia.
  by rewrite -(Hb _ Hi) /get Nat2Z.id.
Qed.

End DCoefRun.

Lemma sumR_ext_in (n : nat) (f g : Z -> R) :
  (forall k, 0 <= k < Z.of_nat n -> f k = g k) -> sumR n f = sumR n g.
Proof.
elim: n => [|n IH] // E.
have E1 : forall k, 0 <= k < Z.of_nat n -> f k = g k.
  by move=> k Hk; apply: E; lia.
have E2 : f (Z.of_nat n) = g (Z.of_nat n) by apply: E; lia.
by rewrite /= (IH E1) E2.
Qed.

Lemma sumR_zero (n : nat) : sumR n (fun _ => 0%Re) = 0%Re.
Proof. by elim: n => //= n ->; rewrite Rplus_0_r. Qed.

(** [dCoef] with a solver that solves invertible systems. *)
Lemma dCoef_solved
    (mldivide : forall n : nat, 'M[R]_n -> 'cV[R]_n -> 'cV[R]_n)
    (g : grid) (order : Z) (h : heap) :
  (forall n (A : 'M[R]_n) (b : 'cV[R]_n),
     A \in unitmx -> (A *m mldivide n A b)%R = b) ->
  0 < order ->
  exists pc,
    [/\ dCoef mldivide order (type_name g) h =
        Returned ((size h).+2,
                  rcons (rcons (rcons h None) None)
                        (Some (MxArray [:: order; 1] pc))),
        Zsize pc = order
      & forall i, 0 <= i < order ->
          sumR (Z.to_nat order)
               (fun j => (system_entry g i j * get 0 pc j)%Re)
          = system_rhs g i].
Proof.
move=> Hsolve Hord.
have [pA [pb [E HA Hb]]] := dCoef_run mldivide g h Hord.
set n := Z.to_nat order in E HA Hb *.
set c := mldivide n _ _ in E.
exists (buf_of_col c); split=> //.
- by rewrite /Zsize /buf_of_col size_map size_enum_ord /n; lia.
- move=> i Hi.
  have Hlt : (Z.to_nat i < n)%N by apply/ltP; rewrite /n; lia.
  have := solved_rows HA Hb (Hsolve _ _ _ (system_unit HA)) (Ordinal Hlt).
  by rewrite /= (Z2Nat.id i ltac:(lia)).
Qed.

Lemma seq2_get (pc : seq R) :
  Zsize pc = 2 -> pc = [:: get 0%Re pc 0; get 0%Re pc 1].
Proof.
by rewrite /Zsize; case: pc => [|a [|b [|c s]]] //= H; lia.
Qed.

Lemma seq4_get (p : seq R) :
  Zsize p = 4 ->
  p = [:: get 0%Re p 0; get 0%Re p 1; get 0%Re p 2; get 0%Re p 3].
Proof.
by rewrite /Zsize; case: p => [|a [|b [|c [|d [|e s]]]]] //= H; lia.
Qed.

(** The claim C4 fails on the code: for order 2 and the staggered type the
    entry [A[0][1]] of the system is 3, not 1, and the coefficients returned
    by an exact solve are not close to [1.03846] and [-0.03846]. *)
Lemma dCoef_staggered2_not_as_claimed :
  exists pA pb pc,
    [/\ dCoef_system 2 "s" [::] =
        Returned (0%N, 1%N, [:: Some (MxArray [:: 2; 2] pA);
                                Some (MxArray [:: 2; 1] pb)]),
        get 0%Re pA (1 * 2 + 0) = 3%Re,
        dCoef exact_solve 2 "s" [::] =
        Returned (2%N, [:: None; None; Some (MxArray [:: 2; 1] pc)]),
        ~ (Rabs (get 0 pc 0 - 103846 / 100000) <= 1 / 100)%Re
      & ~ (Rabs (get 0 pc 1 - - (3846 / 100000)) <= 1 / 1000)%Re].
Proof.
have H2 : 0 < 2 by lia.
have [pA [pb [EA _ HA _]]] := dCoef_system_run Staggered [::] H2.
have [pc [Ec Hs Hrow]] := dCoef_solved Staggered [::] exact_solve_correct H2.
have R0 := Hrow 0 ltac:(lia); have R1 := Hrow 1 ltac:(lia).
move: R0 R1; rewrite /system_entry /system_rhs /= => R0 R1.
exists pA, pb, pc; split=> //.
- have := HA 0 1 ltac:(lia) ltac:(lia).
  by rewrite /system_entry /= => ->; lra.
- by rewrite Rabs_pos_eq; lra.
- by rewrite Rabs_left; lra.
Qed.

(** C4, as the code has it.  For order 2 and the staggered type the system
    handed to the solver is [[1,3],[1,27]] c = [1,0] (stored by columns),
    and the vector returned when the solver solves it is
    [c = [9/8, -1/24]], that is [1.125, -0.041667]. *)
Theorem dCoef_staggered2
    (mldivide : forall n : nat, 'M[R]_n -> 'cV[R]_n -> 'cV[R]_n)
    (h : heap) :
  (forall n (A : 'M[R]_n) (b : 'cV[R]_n),
     A \in unitmx -> (A *m mldivide n A b)%R = b) ->
  dCoef_system 2 "s" h =
  Returned (size h, (size h).+1,
            rcons (rcons h (Some (MxArray [:: 2; 2] [:: 1; 1; 3; 27]%Re)))
                  (Some (MxArray [:: 2; 1] [:: 1; 0]%Re)))
  /\ dCoef mldivide 2 "s" h =
     Returned ((size h).+2,
               rcons (rcons (rcons h None) None)
                     (Some (MxArray [:: 2; 1] [:: 9 / 8; - (1 / 24)]%Re))).
Proof.
move=> Hsolve.
have H2 : 0 < 2 by lia.
have [pA [pb [EA [HsA Hsb] HA Hb]]] := dCoef_system_run Staggered h H2.
have [pc [Ec Hs Hrow]] := dCoef_solved Staggered h Hsolve H2.
have R0 := Hrow 0 ltac:(lia); have R1 := Hrow 1 ltac:(lia).
move: R0 R1; rewrite /system_entry /system_rhs /= => R0 R1.
split.
- rewrite EA (seq4_get HsA) (seq2_get Hsb).
  have A00 := HA 0 0 ltac:(lia) ltac:(lia).
  have A10 := HA 1 0 ltac:(lia) ltac:(lia).
  have A01 := HA 0 1 ltac:(lia) ltac:(lia).
  have A11 := HA 1 1 ltac:(lia) ltac:(lia).
  have B0 := Hb 0 ltac:(lia); have B1 := Hb 1 ltac:(lia).
  move: A00 A10 A01 A11 B0 B1; rewrite /system_entry /system_rhs /=.
  move=> -> -> -> -> -> ->.
  by congr (Returned (_, _, rcons (rcons _
        (Some (MxArray _ [:: _; _; _; _]))) (Some (MxArray _ [:: _; _]))));
     lra.
- rewrite Ec (seq2_get Hs).
  by congr (Returned (_, rcons _ (Some (MxArray _ [:: _; _])))); lra.
Qed.

Lemma dCoef_staggered2_witness :
  dCoef exact_solve 2 "s" [::] =
  Returned (2%N, [:: None; None;
                     Some (MxArray [:: 2; 1] [:: 9 / 8; - (1 / 24)]%Re)]).
Proof.
exact: (proj2 (@dCoef_staggered2 exact_solve [::] exact_solve_correct)).
Defined.

Lemma dCoef_rejects
    (mldivide : forall n : nat, 'M[R]_n -> 'cV[R]_n -> 'cV[R]_n)
    (order : Z) (type : string) (h : heap) :
  0 <= order -> type <> "r" -> type <> "s" ->
  dCoef mldivide order type h = Failed "Type must be 's' or 'r'!".
Proof.
move=> Hord Hr Hs.
have H1 : 0 <= 1 by lia.
rewrite /dCoef /dCoef_system mxCreateDoubleMatrix_ok //=.
rewrite mxCreateDoubleMatrix_ok //=.
have -> : (strcmp type "r" =? 0) = false.
  by apply/negP => /strcmp_eq.
have -> // : (strcmp type "s" =? 0) = false.
by apply/negP => /strcmp_eq.
Qed.

Lemma type_name_cases (type : string) :
  type = "r" \/ type = "s" -> exists g, type = type_name g.
Proof. by case=> ->; [exists Regular|exists Staggered]. Qed.

(** The claim C5 fails on the code: the strings ["regular"] and
    ["staggered"] are rejected, with the message of [mexErrMsgTxt]. *)
Lemma dCoef_rejects_long_names :
  dCoef exact_solve 1 "regular" [::] = Failed "Type must be 's' or 'r'!"
  /\ dCoef exact_solve 1 "staggered" [::] = Failed "Type must be 's' or 'r'!".
Proof. by split; apply: dCoef_rejects. Qed.

(** C5, as the code has it.  For a positive order [dCoef] accepts exactly
    the type strings ["r"] (regular) and ["s"] (staggered): for these two
    it goes on to the linear solve and returns the coefficient array, and
    for every other string it ends with the error message
    [Type must be 's' or 'r'!]. *)
Theorem dCoef_accepts_r_and_s
    (mldivide : forall n : nat, 'M[R]_n -> 'cV[R]_n -> 'cV[R]_n)
    (order : Z) (type : string) (h : heap) :
  0 < order ->
  [/\ type = "r" \/ type = "s" ->
      exists pc,
        dCoef mldivide order type h =
        Returned ((size h).+2,
                  rcons (rcons (rcons h None) None)
                        (Some (MxArray [:: order; 1] pc))),
      type <> "r" -> type <> "s" ->
      dCoef mldivide order type h = Failed "Type must be 's' or 'r'!"
    & (exists r, dCoef mldivide order type h = Returned r)
      <-> (type = "r" \/ type = "s")].
Proof.
move=> Hord.
have Hacc : type = "r" \/ type = "s" ->
    exists pc,
      dCoef mldivide order type h =
      Returned ((size h).+2,
                rcons (rcons (rcons h None) None)
                      (Some (MxArray [:: order; 1] pc))).
  move=> /type_name_cases [g ->].
  have [pA [pb [E _ _]]] := dCoef_run mldivide g h Hord.
  by eexists; exact: E.
have Hrej : type <> "r" -> type <> "s" ->
    dCoef mldivide order type h = Failed "Type must be 's' or 'r'!".
  by apply: dCoef_rejects; lia.
split=> //; split; last by move=> /Hacc [pc ->]; eexists.
case=> r Er.
case: (String.string_dec type "r") => [|Hr]; first by left.
case: (String.string_dec type "s") => [|Hs]; first by right.
by rewrite (Hrej Hr Hs) in Er.
Qed.

Lemma dCoef_accepts_r_and_s_witness :
  (exists pc,
     dCoef exact_solve 1 "r" [::] =
     Returned (2%N, [:: None; None; Some (MxArray [:: 1; 1] pc)]))
  /\ dCoef exact_solve 1 "x" [::] = Failed "Type must be 's' or 'r'!".
Proof.
have [|Hacc Hrej _] := @dCoef_accepts_r_and_s exact_solve 1 "x" [::].
  lia.
have [|Hacc' _ _] := @dCoef_accepts_r_and_s exact_solve 1 "r" [::].
  lia.
split; first by apply: Hacc'; left.
by apply: Hrej.
Defined.

(** * Further properties of the sources *)

(** ** [memcpy] and the damping blocks of the x axis *)

Lemma memcpy_run (dst : seq R) (doff : Z) (src : seq R) (soff n : Z) :
  0 <= n -> 0 <= soff -> soff + n <= Zsize src ->
  0 <= doff -> doff + n <= Zsize dst ->
  exists dst',
    [/\ memcpy dst doff src soff n = Returned dst',
        Zsize dst' = Zsize dst
      & forall k, 0 <= k ->
          get 0%Re dst' k =
          if (doff <=? k) && (k <? doff + n)
          then get 0%Re src (soff + (k - doff)) else get 0%Re dst k].
Proof.
move=> Hn Hso Hsn Hdo Hdn.
rewrite /memcpy; have -> : (n <? 0) = false by lia.
pose I (i : Z) (d : seq R) :=
  Zsize d = Zsize dst /\
  forall k, 0 <= k ->
    get 0%Re d k =
    if (doff <=? k) && (k <? doff + i)
    then get 0%Re src (soff + (k - doff)) else get 0%Re dst k.
have [||i d Hi [Hs Hget]|d [E [Hs Hget]]] :=
  @for_loop_inv _ I
    (fun k dst => let* x := load 0%Re src (soff + k) in
                  store 0%Re dst (doff + k) x) 0 n dst.
- lia.
- split=> // k Hk.
  by have -> : (doff <=? k) && (k <? doff + 0) = false by lia.
- have B1 : 0 <= soff + i < Zsize src by lia.
  have B2 : 0 <= doff + i < Zsize d by lia.
  rewrite (load_ok _ B1) /= (store_ok _ _ B2).
  eexists; split; first by [].
  split; first by rewrite Zsize_upd.
  move=> k Hk; rewrite get_upd; try lia.
  case: Z.eqb_spec => [->|NE].
    have -> : (doff <=? doff + i) && (doff + i <? doff + (i + 1)) = true by lia.
    by congr (get _ _ _); lia.
  rewrite Hget //.
  have -> // : (doff <=? k) && (k <? doff + (i + 1))
               = (doff <=? k) && (k <? doff + i) by lia.
- by exists d.
Qed.

Lemma damp_block_run (nz cnt block c0 : Z) (u : Z -> Z) (dx L : R)
    (pVel px : seq R) :
  0 <= nz -> 0 <= block -> 0 <= c0 -> c0 + block <= cnt ->
  Zsize pVel = nz * cnt -> Zsize px = nz * cnt ->
  exists px',
    [/\ damp_block nz block u dx L pVel (nz * c0) px = Returned px',
        Zsize px' = nz * cnt
      & forall j i, 0 <= j < cnt -> 0 <= i < nz ->
          get 0%Re px' (j * nz + i) =
          if (c0 <=? j) && (j <? c0 + block)
          then damping (IZR (u (j - c0)) * dx) (get 0%Re pVel (j * nz + i)) L
          else get 0%Re px (j * nz + i)].
Proof.
move=> Hnz Hb Hc0 Hcb Hvel Hpx.
have Hnb : 0 <= nz * block by nia.
have Hoff : 0 <= nz * c0 by nia.
have Hfit : nz * c0 + nz * block <= nz * cnt by nia.
rewrite /damp_block !(mxCalloc_ok _ Hnb) /=.
set z := nseq (Z.to_nat (nz * block)) _.
have Hz : Zsize z = nz * block by rewrite /z Zsize_nseq.
have [|pu [-> Hsu Hu _]] /= :=
  @sweep2_run block nz (nz * block) (fun j i => j * nz + i)
    (fun j i _ => (IZR (u j) * dx)%Re)
    (fun j i pu => store 0%Re pu (j * nz + i) (IZR (u j) * dx)%Re)
    z Hb Hnz (@lin2_range nz block) (@lin2_range_inj nz block) Hz.
  move=> j i buf Hr Hs _; have Hk := lin2_range Hr.
  by rewrite store_ok ?Hs.
have [|||pv [-> Hsv Hv]] /= :=
  @memcpy_run z 0 pVel (nz * c0) (nz * block) Hnb Hoff; try lia.
have Hsv' : Zsize pv = nz * block by rewrite Hsv.
have [pd [-> Hsd Hd]] /= := dampPml_buffers_run L Hnz Hb Hsu Hsv'.
have [||||px' [-> Hsx Hx]] /= :=
  @memcpy_run px (nz * c0) pd 0 (nz * block) Hnb; try lia.
exists px'; split=> //; first by rewrite Hsx.
move=> j i Hj Hi.
have Hk : 0 <= j * nz + i < nz * cnt by apply: lin2_bound.
have Hk0 : 0 <= j * nz + i by lia.
rewrite (Hx _ Hk0).
case Hin: ((c0 <=? j) && (j <? c0 + block)); last first.
  have -> // : (nz * c0 <=? j * nz + i) && (j * nz + i <? nz * c0 + nz * block)
               = false.
  apply/negP => /andP [/Z.leb_le H1 /Z.ltb_lt H2].
  by move: Hin => /negP; apply; apply/andP; split;
     [apply/Z.leb_le|apply/Z.ltb_lt]; nia.
move: Hin => /andP [/Z.leb_le H1 /Z.ltb_lt H2].
have -> : (nz * c0 <=? j * nz + i) && (j * nz + i <? nz * c0 + nz * block)
          = true.
  by apply/andP; split; [apply/Z.leb_le|apply/Z.ltb_lt]; nia.
have E : 0 + (j * nz + i - nz * c0) = (j - c0) * nz + i by ring.
have Hr : in_range2 block nz (j - c0) i by split; lia.
have Hkk := lin2_range Hr.
have Hkk0 : 0 <= (j - c0) * nz + i by lia.
rewrite E Hd // (Hu _ _ Hr) (Hv _ Hkk0).
have -> : (0 <=? (j - c0) * nz + i) && ((j - c0) * nz + i <? 0 + nz * block)
          = true by lia.
by congr (damping _ (get _ _ _) _); ring.
Qed.

Lemma xDamp_sides_run (nz nx boundary cnt dsp : Z) (dx : R) (pVel px : seq R) :
  0 <= nz -> 0 <= cnt -> 0 <= dsp -> dsp + cnt <= nx ->
  0 <= boundary -> 2 * boundary <= nx ->
  Zsize pVel = nz * cnt -> Zsize px = nz * cnt ->
  (forall k, get 0%Re px k = 0%Re) ->
  exists px',
    [/\ xDamp_sides nz nx boundary dx cnt dsp pVel px = Returned px',
        Zsize px' = nz * cnt
      & forall j i, 0 <= j < cnt -> 0 <= i < nz ->
          get 0%Re px' (j * nz + i) =
          x_damping nx boundary dx (dsp + j) (get 0%Re pVel (j * nz + i))].
Proof.
move=> Hnz Hcnt Hdsp Hfit Hb H2b Hvel Hpx Hzero.
have Hz0 : nz * 0 = 0 by ring.
have Einner : mwSize_sub nx boundary = Returned (nx - boundary).
  by rewrite /mwSize_sub; have -> : (nx <? boundary) = false by lia.
rewrite /xDamp_sides.
case: Z.ltb_spec => Hleft.
- (* the block starts in the left padding *)
  case: Z.leb_spec => Hall.
  + (* and ends in it *)
    have [||||px1 [E1 Hs1 H1]] :=
      @damp_block_run nz cnt cnt 0 (fun j => boundary - dsp - j) dx
        (IZR boundary * dx)%Re pVel px Hnz Hcnt; try lia.
    rewrite Hz0 in E1; rewrite E1 /= Einner /=.
    have -> : (nx - boundary <? dsp + cnt) = false by lia.
    exists px1; split=> // j i Hj Hi; rewrite (H1 _ _ Hj Hi).
    have -> : (0 <=? j) && (j <? 0 + cnt) = true by lia.
    rewrite /x_damping; have -> : (dsp + j <? boundary) = true by lia.
    by congr (damping (IZR _ * _) _ _); lia.
  + have Hbl : 0 <= boundary - dsp by lia.
    have [||||px1 [E1 Hs1 H1]] :=
      @damp_block_run nz cnt (boundary - dsp) 0 (fun j => boundary - dsp - j)
        dx (IZR boundary * dx)%Re pVel px Hnz Hbl; try lia.
    rewrite Hz0 in E1; rewrite E1 /= Einner /=.
    case: Z.ltb_spec => Hright.
    * (* the block reaches the right padding *)
      have Efirst : mwSize_sub (nx - boundary) dsp
                    = Returned (nx - boundary - dsp).
        by rewrite /mwSize_sub; have -> : (nx - boundary <? dsp) = false by lia.
      rewrite Efirst /=.
      have Hbr : 0 <= dsp + cnt - (nx - boundary) by lia.
      have [||||px2 [E2 Hs2 H2]] :=
        @damp_block_run nz cnt (dsp + cnt - (nx - boundary))
          (nx - boundary - dsp) (fun j => j + 1) dx (IZR boundary * dx)%Re
          pVel px1 Hnz Hbr; try lia.
      rewrite E2; exists px2; split=> // j i Hj Hi.
      rewrite (H2 _ _ Hj Hi) (H1 _ _ Hj Hi) /x_damping Hzero.
      case: (Z.ltb_spec (dsp + j) boundary) => Hg.
        have -> : (nx - boundary - dsp <=? j)
                  && (j <? nx - boundary - dsp + (dsp + cnt - (nx - boundary)))
                  = false by lia.
        have -> : (0 <=? j) && (j <? 0 + (boundary - dsp)) = true by lia.
        by congr (damping (IZR _ * _) _ _); lia.
      case: (Z.leb_spec (nx - boundary) (dsp + j)) => Hg'.
        have -> : (nx - boundary - dsp <=? j)
                  && (j <? nx - boundary - dsp + (dsp + cnt - (nx - boundary)))
                  = true by lia.
        by congr (damping (IZR _ * _) _ _); lia.
      have -> : (nx - boundary - dsp <=? j)
                && (j <? nx - boundary - dsp + (dsp + cnt - (nx - boundary)))
                = false by lia.
      by have -> : (0 <=? j) && (j <? 0 + (boundary - dsp)) = false by lia.
    * exists px1; split=> // j i Hj Hi.
      rewrite (H1 _ _ Hj Hi) /x_damping Hzero.
      case: (Z.ltb_spec (dsp + j) boundary) => Hg.
        have -> : (0 <=? j) && (j <? 0 + (boundary - dsp)) = true by lia.
        by congr (damping (IZR _ * _) _ _); lia.
      have -> : (0 <=? j) && (j <? 0 + (boundary - dsp)) = false by lia.
      by have -> : (nx - boundary <=? dsp + j) = false by lia.
- rewrite Einner /=.
  case: Z.ltb_spec => Hright.
  + case: Z.leb_spec => Hall.
    * (* the whole block lies in the right padding *)
      have [||||px1 [E1 Hs1 H1]] :=
        @damp_block_run nz cnt cnt 0
          (fun j => dsp - (nx - boundary) + j + 1) dx
          (IZR boundary * dx)%Re pVel px Hnz Hcnt; try lia.
      rewrite Hz0 in E1; rewrite E1.
      exists px1; split=> // j i Hj Hi; rewrite (H1 _ _ Hj Hi) /x_damping.
      have -> : (0 <=? j) && (j <? 0 + cnt) = true by lia.
      have -> : (dsp + j <? boundary) = false by lia.
      have -> : (nx - boundary <=? dsp + j) = true by lia.
      by congr (damping (IZR _ * _) _ _); lia.
    * have Efirst : mwSize_sub (nx - boundary) dsp
                    = Returned (nx - boundary - dsp).
        by rewrite /mwSize_sub; have -> : (nx - boundary <? dsp) = false by lia.
      rewrite Efirst /=.
      have Hbr : 0 <= dsp + cnt - (nx - boundary) by lia.
      have [||||px2 [E2 Hs2 H2]] :=
        @damp_block_run nz cnt (dsp + cnt - (nx - boundary))
          (nx - boundary - dsp) (fun j => j + 1) dx (IZR boundary * dx)%Re
          pVel px Hnz Hbr; try lia.
      rewrite E2; exists px2; split=> // j i Hj Hi.
      rewrite (H2 _ _ Hj Hi) /x_damping Hzero.
      have -> : (dsp + j <? boundary) = false by lia.
      case: (Z.leb_spec (nx - boundary) (dsp + j)) => Hg'.
        have -> : (nx - boundary - dsp <=? j)
                  && (j <? nx - boundary - dsp + (dsp + cnt - (nx - boundary)))
                  = true by lia.
        by congr (damping (IZR _ * _) _ _); lia.
      by have -> : (nx - boundary - dsp <=? j)
                && (j <? nx - boundary - dsp + (dsp + cnt - (nx - boundary)))
                = false by lia.
  + exists px; split=> // j i Hj Hi; rewrite Hzero /x_damping.
    have -> : (dsp + j <? boundary) = false by lia.
    by have -> : (nx - boundary <=? dsp + j) = false by lia.
Qed.

Lemma xDamp_run (nz nx boundary cnt dsp : Z) (dx dt : R)
    (sendcounts displs : seq Z) (taskId : Z) (pVel : seq R) :
  0 <= taskId < Zsize sendcounts -> 0 <= taskId < Zsize displs ->
  get 0 sendcounts taskId = cnt -> get 0 displs taskId = dsp ->
  0 <= nz -> 0 <= cnt -> 0 <= dsp -> dsp + cnt <= nx ->
  0 <= boundary -> 2 * boundary <= nx ->
  Zsize pVel = nz * cnt ->
  exists pxDamp pxb,
    [/\ xDamp nz nx boundary dx dt sendcounts displs taskId pVel
        = Returned (pxDamp, pxb),
        Zsize pxDamp = nz * cnt /\ Zsize pxb = nz * cnt,
        forall j i, 0 <= j < cnt -> 0 <= i < nz ->
          get 0%Re pxDamp (j * nz + i) =
          x_damping nx boundary dx (dsp + j) (get 0%Re pVel (j * nz + i))
      & forall j i, 0 <= j < cnt -> 0 <= i < nz ->
          get 0%Re pxb (j * nz + i) =
          exp (- get 0%Re pxDamp (j * nz + i) * dt)].
Proof.
move=> Ht1 Ht2 Ecnt Edsp Hnz Hcnt Hdsp Hfit Hb H2b Hvel.
have Hnc : 0 <= nz * cnt by nia.
rewrite /xDamp !load_ok //= Ecnt Edsp !(mxCalloc_ok _ Hnc) /=.
set zn := nseq (Z.to_nat (nz * cnt)) _.
have Hzn : Zsize zn = nz * cnt by rewrite /zn Zsize_nseq.
have Hget0 : forall k, get 0%Re zn k = 0%Re by move=> k; rewrite /zn get_nseq.
have [px [-> Hsx Hx]] /= :=
  xDamp_sides_run dx Hnz Hcnt Hdsp Hfit Hb H2b Hvel Hzn Hget0.
have [|pxb [-> Hsb Hxb _]] /= :=
  @sweep2_run cnt nz (nz * cnt) (fun j i => j * nz + i)
    (fun j i _ => exp (- get 0%Re px (j * nz + i) * dt))
    (fun j i pxb =>
       let* x := load 0%Re px (j * nz + i) in
       store 0%Re pxb (j * nz + i) (exp (- x * dt))%Re)
    zn Hcnt Hnz (@lin2_range nz cnt) (@lin2_range_inj nz cnt) Hzn.
  move=> j i buf Hr Hs _; have Hk := lin2_range Hr.
  by rewrite load_ok ?Hsx //= store_ok ?Hs.
exists px, pxb; split=> //.
by move=> j i Hj Hi; apply: Hxb.
Qed.

Lemma scatter_block_range (nz nx P : Z) (t : scatter_tables) (i : Z) :
  1 <= P <= nx -> scatter_layout nz nx P = Returned t -> 0 <= i < P ->
  [/\ Zsize (sendcounts_block_nx t) = P /\ Zsize (displs_block_nx t) = P,
      1 <= get 0 (sendcounts_block_nx t) i,
      0 <= get 0 (displs_block_nx t) i
    & get 0 (displs_block_nx t) i + get 0 (sendcounts_block_nx t) i <= nx].
Proof.
move=> HP Et Hi.
have [t' [Et' [S1 S2 _ _] _ Hget]] := scatter_layout_run nz HP.
have Ett : t' = t by move: Et'; rewrite Et; case.
rewrite {}Ett in S1 S2 Hget.
have [Hc Hd _ _] := Hget _ Hi.
have HP0 : 0 < P by lia.
have Hnx : 0 <= nx by lia.
have Havg : 1 <= nx / P by apply: Z.div_le_lower_bound; lia.
have Hsz := block_size_bounds nx i HP0.
have H0 : block_offset nx P 0 = 0.
  have Hmod := Z.mod_pos_bound nx P HP0.
  by rewrite /block_offset; lia.
have Hlo : block_offset nx P 0 <= block_offset nx P i.
  by apply: block_offset_mono; lia.
have Hhi : block_offset nx P (i + 1) <= block_offset nx P P.
  by apply: block_offset_mono; lia.
rewrite block_offset_succ block_offset_last // in Hhi.
by rewrite Hc Hd; split=> //; lia.
Qed.

(** For every worker of the scatter layout and paddings that do not overlap
    ([2 * boundary <= nx]), the x-axis damping of the local column [j],
    which is the column [g = displs + j] of the grid, is the quadratic
    profile of [dampPml] for the distance [(boundary - g) * dx] in the left
    padding [g < boundary], for the distance [(g - (nx - boundary) + 1) * dx]
    in the right padding [nx - boundary <= g], both with the width
    [boundary * dx] and the local velocity, and it is zero between the two;
    the decay factors are [exp (- damping * dt)] pointwise, hence 1 outside
    the paddings. *)
Theorem xDamp_side_columns (nz nx numProcesses boundary : Z) (dx dt : R)
    (t : scatter_tables) (taskId : Z) (pVelocityModel_local : seq R) :
  1 <= numProcesses <= nx ->
  scatter_layout nz nx numProcesses = Returned t ->
  0 <= taskId < numProcesses ->
  0 <= nz -> 0 <= boundary -> 2 * boundary <= nx ->
  Zsize pVelocityModel_local = nz * get 0 (sendcounts_block_nx t) taskId ->
  exists pxDamp pxb,
    let cnt := get 0 (sendcounts_block_nx t) taskId in
    let displs := get 0 (displs_block_nx t) taskId in
    let L := (IZR boundary * dx)%Re in
    [/\ xDamp nz nx boundary dx dt (sendcounts_block_nx t)
          (displs_block_nx t) taskId pVelocityModel_local
        = Returned (pxDamp, pxb),
        forall j i, 0 <= j < cnt -> 0 <= i < nz -> displs + j < boundary ->
          get 0%Re pxDamp (j * nz + i) =
          damping (IZR (boundary - (displs + j)) * dx)
                  (get 0%Re pVelocityModel_local (j * nz + i)) L,
        forall j i, 0 <= j < cnt -> 0 <= i < nz ->
          nx - boundary <= displs + j ->
          get 0%Re pxDamp (j * nz + i) =
          damping (IZR (displs + j - (nx - boundary) + 1) * dx)
                  (get 0%Re pVelocityModel_local (j * nz + i)) L,
        forall j i, 0 <= j < cnt -> 0 <= i < nz ->
          boundary <= displs + j < nx - boundary ->
          get 0%Re pxDamp (j * nz + i) = 0%Re
          /\ get 0%Re pxb (j * nz + i) = 1%Re
      & forall j i, 0 <= j < cnt -> 0 <= i < nz ->
          get 0%Re pxb (j * nz + i) =
          exp (- get 0%Re pxDamp (j * nz + i) * dt)].
Proof.
move=> HP Et Htask Hnz Hb H2b Hvel.
have [[S1 S2] Hc1 Hd0 Hfit] := scatter_block_range HP Et Htask.
have Ht1 : 0 <= taskId < Zsize (sendcounts_block_nx t) by rewrite S1.
have Ht2 : 0 <= taskId < Zsize (displs_block_nx t) by rewrite S2.
have Hc0 : 0 <= get 0 (sendcounts_block_nx t) taskId by lia.
have [pxDamp [pxb [E _ Hx Hdecay]]] :=
  xDamp_run dx dt Ht1 Ht2 (erefl _) (erefl _) Hnz Hc0 Hd0 Hfit Hb H2b Hvel.
exists pxDamp, pxb; split=> //.
- move=> j i Hj Hi Hg; rewrite (Hx _ _ Hj Hi) /x_damping.
  by have -> : (get 0 (displs_block_nx t) taskId + j <? boundary) = true by lia.
- move=> j i Hj Hi Hg; rewrite (Hx _ _ Hj Hi) /x_damping.
  have -> : (get 0 (displs_block_nx t) taskId + j <? boundary) = false by lia.
  by have -> : (nx - boundary <=? get 0 (displs_block_nx t) taskId + j) = true
    by lia.
- move=> j i Hj Hi Hg.
  have E0 : get 0%Re pxDamp (j * nz + i) = 0%Re.
    rewrite (Hx _ _ Hj Hi) /x_damping.
    have -> : (get 0 (displs_block_nx t) taskId + j <? boundary) = false by lia.
    by have -> : (nx - boundary <=? get 0 (displs_block_nx t) taskId + j)
                 = false by lia.
  by rewrite (Hdecay _ _ Hj Hi) E0 Ropp_0 Rmult_0_l exp_0.
Qed.

Lemma xDamp_side_columns_witness :
  exists pxDamp pxb,
    xDamp 2 4 1 1%Re 1%Re [:: 4] [:: 0] 0 [:: 1; 2; 3; 4; 5; 6; 7; 8]%Re
    = Returned (pxDamp, pxb)
    /\ get 0%Re pxDamp 2 = 0%Re /\ get 0%Re pxb 5 = 1%Re.
Proof.
have [|||||||pxDamp [pxb [E _ _ Hmid _]]] :=
  @xDamp_side_columns 2 4 1 1 1%Re 1%Re
    (ScatterTables [:: 4] [:: 0] [:: 8] [:: 0] 4) 0
    [:: 1; 2; 3; 4; 5; 6; 7; 8]%Re.
- lia.
- reflexivity.
- lia.
- lia.
- lia.
- lia.
- reflexivity.
- exists pxDamp, pxb; split; first exact: E.
  have C1 : 0 <= 1 < 4 by lia.
  have C2 : 0 <= 2 < 4 by lia.
  have R0 : 0 <= 0 < 2 by lia.
  have R1 : 0 <= 1 < 2 by lia.
  have G1 : 1 <= 0 + 1 < 4 - 1 by lia.
  have G2 : 1 <= 0 + 2 < 4 - 1 by lia.
  have [H1 _] := Hmid 1 0 C1 R0 G1.
  have [_ H2] := Hmid 2 1 C2 R1 G2.
  by split.
Defined.

(** ** Size of the damping and of the decay factors *)

Lemma d0_value_ln (v L : R) :
  d0_value v L = (3 * v / (2 * L) * ln 1000000)%Re.
Proof.
rewrite /d0_value /logR /Rcoef.
have -> : (1 / 1000000 = / 1000000)%Re by field.
have H0 : (0 < 1000000)%Re by lra.
by rewrite (ln_Rinv _ H0) /Rdiv; ring.
Qed.

Lemma ratio_sq_le1 (u L : R) :
  (0 < L -> Rabs u <= L -> 0 <= (u / L) ^ 2 <= 1)%Re.
Proof.
move=> HL Hu; split; first exact: pow2_ge_0.
have HiL : (0 < / L)%Re by apply: Rinv_0_lt_compat.
have Hsq : (Rsqr u <= Rsqr L)%Re.
  by apply: Rsqr_le_abs_1; rewrite (Rabs_pos_eq L); lra.
have -> : ((u / L) ^ 2 = Rsqr u * (/ L * / L))%Re
  by rewrite /Rsqr /Rdiv /=; ring.
have <- : (Rsqr L * (/ L * / L) = 1)%Re by rewrite /Rsqr; field; lra.
apply: Rmult_le_compat_r => //.
by apply: Rlt_le; apply: Rmult_lt_0_compat.
Qed.

Lemma damping_le_d0 (u v L : R) :
  (0 <= v -> 0 < L -> Rabs u <= L -> damping u v L <= d0_value v L)%Re.
Proof.
move=> Hv HL Hu; rewrite /damping.
have H0 := d0_value_nonneg Hv HL.
have [_ H1] := ratio_sq_le1 HL Hu.
rewrite -[X in (_ <= X)%Re]Rmult_1_r.
exact: Rmult_le_compat_l.
Qed.

Lemma damping_at_width (u v L : R) :
  (0 < L -> Rabs u = L -> damping u v L = d0_value v L)%Re.
Proof.
move=> HL Hu; rewrite /damping.
have -> : ((u / L) ^ 2 = 1)%Re; last by ring.
have -> : ((u / L) ^ 2 = Rsqr u * (/ L * / L))%Re
  by rewrite /Rsqr /Rdiv /=; ring.
have -> : Rsqr u = Rsqr L.
  by apply: Rsqr_eq_asb_1; rewrite Hu Rabs_pos_eq; lra.
by rewrite /Rsqr; field; lra.
Qed.

Lemma decay_unit (d dt : R) :
  (0 <= d -> 0 <= dt -> 0 < exp (- d * dt) <= 1)%Re.
Proof.
move=> Hd Hdt; split; first exact: exp_pos.
have Hle : (- d * dt <= 0)%Re by nra.
case: Hle => [Hlt|->]; last by rewrite exp_0; lra.
by rewrite -exp_0; apply: Rlt_le; apply: exp_increasing.
Qed.

(** For a positive width [L], wherever the velocity is non-negative and the
    distance [u] does not exceed the width ([|u| <= L], a point inside the
    padding), the damping returned by [dampPml] lies between zero and
    [3*v/(2*L) * ln(10^6)], and it takes this largest value where
    [|u| = L], at the outer edge of the padding. *)
Theorem dampPml_peak_at_width (u v : handle) (L : R) (h : heap)
    (U V : mxArray) :
  deref h u = Returned U -> deref h v = Returned V ->
  well_formed U -> well_formed V ->
  mxGetDimensions U = mxGetDimensions V ->
  (0 < L)%Re ->
  exists pd : seq R,
    [/\ dampPml u v L h =
        Returned ((size h).+1,
                  rcons (rcons h None)
                        (Some (MxArray [:: mxGetM U; mxGetN U] pd))),
        forall k, 0 <= k < mxGetM U * mxGetN U ->
          (0 <= get 0 (mxGetPr V) k)%Re ->
          (Rabs (get 0 (mxGetPr U) k) <= L)%Re ->
          (0 <= get 0 pd k <= 3 * get 0 (mxGetPr V) k / (2 * L) * ln 1000000)%Re
      & forall k, 0 <= k < mxGetM U * mxGetN U ->
          Rabs (get 0%Re (mxGetPr U) k) = L ->
          get 0%Re pd k = (3 * get 0 (mxGetPr V) k / (2 * L) * ln 1000000)%Re].
Proof.
move=> EU EV WU WV Edims HL.
have [pd [E Hs Hpd]] := dampPml_run L EU EV WU WV Edims.
exists pd; split=> //.
- move=> k Hk Hv Hu; rewrite Hpd // -d0_value_ln; split.
    exact: damping_nonneg.
  exact: damping_le_d0.
- by move=> k Hk Hu; rewrite Hpd // -d0_value_ln; apply: damping_at_width.
Qed.

Lemma dampPml_peak_at_width_witness :
  exists pd : seq R,
    dampPml 0%N 1%N 2%Re (heap_uv [:: 1; 2]%Re [:: 3; 4]%Re) =
    Returned (3%N, rcons (rcons (heap_uv [:: 1; 2]%Re [:: 3; 4]%Re) None)
                         (Some (MxArray [:: 1; 2] pd)))
    /\ get 0%Re pd 1 = (3 * 4 / (2 * 2) * ln 1000000)%Re.
Proof.
have [//|//|//|//|//||pd [E _ Hedge]] :=
  @dampPml_peak_at_width 0%N 1%N 2%Re (heap_uv [:: 1; 2]%Re [:: 3; 4]%Re)
    (MxArray [:: 1; 2] [:: 1; 2]%Re) (MxArray [:: 1; 2] [:: 3; 4]%Re).
  lra.
exists pd; split=> //.
have K : 0 <= 1 < 1 * (2 * 1) by lia.
have A : Rabs (get 0%Re [:: 1; 2]%Re 1) = 2%Re.
  by rewrite /get /= Rabs_pos_eq; lra.
exact: (Hedge 1 K A).
Defined.

Lemma x_damping_nonneg (nx boundary : Z) (dx : R) (g : Z) (v : R) :
  0 <= boundary -> (0 < dx)%Re -> (0 <= v)%Re ->
  (0 <= x_damping nx boundary dx g v)%Re.
Proof.
move=> Hb Hdx Hv; rewrite /x_damping.
case: (Z.eq_dec boundary 0) => [->|NE].
  have Ed : forall u, damping u v (0 * dx) = 0%Re.
    by move=> u; rewrite /damping /d0_value /Rdiv !Rmult_0_l Rmult_0_r Rinv_0;
       ring.
  by rewrite !Ed; case: ifP => _; [|case: ifP => _]; lra.
have HL : (0 < IZR boundary * dx)%Re.
  by apply: Rmult_lt_0_compat => //; apply: IZR_lt; lia.
by case: ifP => _; [|case: ifP => _; [|lra]]; apply: damping_nonneg.
Qed.

(** With a positive grid step [dz], a non-negative time step [dt] and
    non-negative velocities, the z-axis damping of every worker is
    non-negative and its decay factors lie in [(0, 1]]: a time step never
    amplifies the fields. *)
Theorem zDamp_decay_in_unit_interval (nz nx numProcesses boundary : Z)
    (dz dt : R) (t : scatter_tables) (taskId : Z)
    (pVelocityModel_local : seq R) :
  1 <= numProcesses <= nx ->
  scatter_layout nz nx numProcesses = Returned t ->
  0 <= taskId < numProcesses ->
  0 <= boundary <= nz ->
  Zsize pVelocityModel_local = nz * get 0 (sendcounts_block_nx t) taskId ->
  (0 < dz)%Re -> (0 <= dt)%Re ->
  (forall k, 0 <= k < Zsize pVelocityModel_local ->
     (0 <= get 0 pVelocityModel_local k)%Re) ->
  exists pzDamp pzb,
    zDamp nz boundary dz dt (sendcounts_block_nx t) taskId
      pVelocityModel_local = Returned (pzDamp, pzb)
    /\ forall j i, 0 <= j < get 0 (sendcounts_block_nx t) taskId ->
         0 <= i < nz ->
         (0 <= get 0 pzDamp (j * nz + i))%Re
         /\ (0 < get 0 pzb (j * nz + i) <= 1)%Re.
Proof.
move=> HP Et Htask Hb Hvel Hdz Hdt Hpos.
have [[S1 _] Hc1 _ _] := scatter_block_range HP Et Htask.
have Ht1 : 0 <= taskId < Zsize (sendcounts_block_nx t) by rewrite S1.
have Hc0 : 0 <= get 0 (sendcounts_block_nx t) taskId by lia.
have [pzDamp [pzb [E _ Hzero Hbot Hdecay]]] :=
  zDamp_run dz dt Ht1 (erefl _) Hc0 Hb Hvel.
exists pzDamp, pzb; split=> // j i Hj Hi.
have Hd : (0 <= get 0 pzDamp (j * nz + i))%Re.
  case: (Z.lt_ge_cases i (nz - boundary)) => Hrow.
    have Hi0 : 0 <= i < nz - boundary by lia.
    by rewrite (Hzero _ _ Hj Hi0); lra.
  have Hi' : nz - boundary <= i < nz by lia.
  rewrite (Hbot _ _ Hj Hi'); apply: damping_nonneg.
    by apply: Hpos; rewrite Hvel; apply: lin2_bound.
  apply: Rmult_lt_0_compat => //.
  by apply: IZR_lt; lia.
by split=> //; rewrite (Hdecay _ _ Hj Hi); apply: decay_unit.
Qed.

Ltac get_entry :=
  cbv [get Z.to_nat Pos.to_nat Pos.iter_op Init.Nat.add nth]; lra.

Lemma zDamp_decay_in_unit_interval_witness :
  exists pzDamp pzb,
    zDamp 3 1 1%Re 1%Re [:: 2] 0 [:: 1; 2; 3; 4; 5; 6]%Re
    = Returned (pzDamp, pzb)
    /\ (0 < get 0 pzb 2 <= 1)%Re.
Proof.
have [||||||||pzDamp [pzb [E Hall]]] :=
  @zDamp_decay_in_unit_interval 3 2 1 1 1%Re 1%Re
    (ScatterTables [:: 2] [:: 0] [:: 6] [:: 0] 2)
    0 [:: 1; 2; 3; 4; 5; 6]%Re.
- lia.
- reflexivity.
- lia.
- lia.
- reflexivity.
- lra.
- lra.
- move=> k Hk; have Hk' : 0 <= k < 6 by exact: Hk.
  have [->|[->|[->|[->|[->|->]]]]] :
    k = 0 \/ k = 1 \/ k = 2 \/ k = 3 \/ k = 4 \/ k = 5 by lia.
  + get_entry.
  + get_entry.
  + get_entry.
  + get_entry.
  + get_entry.
  + get_entry.
- exists pzDamp, pzb; split; first exact: E.
  have C0 : 0 <= 0 < 2 by lia.
  have R2 : 0 <= 2 < 3 by lia.
  by have [_ H] := Hall 0 2 C0 R2.
Defined.

(** The same for the x axis, for paddings that do not overlap. *)
Theorem xDamp_decay_in_unit_interval (nz nx numProcesses boundary : Z)
    (dx dt : R) (t : scatter_tables) (taskId : Z)
    (pVelocityModel_local : seq R) :
  1 <= numProcesses <= nx ->
  scatter_layout nz nx numProcesses = Returned t ->
  0 <= taskId < numProcesses ->
  0 <= nz -> 0 <= boundary -> 2 * boundary <= nx ->
  Zsize pVelocityModel_local = nz * get 0 (sendcounts_block_nx t) taskId ->
  (0 < dx)%Re -> (0 <= dt)%Re ->
  (forall k, 0 <= k < Zsize pVelocityModel_local ->
     (0 <= get 0 pVelocityModel_local k)%Re) ->
  exists pxDamp pxb,
    xDamp nz nx boundary dx dt (sendcounts_block_nx t) (displs_block_nx t)
      taskId pVelocityModel_local = Returned (pxDamp, pxb)
    /\ forall j i, 0 <= j < get 0 (sendcounts_block_nx t) taskId ->
         0 <= i < nz ->
         (0 <= get 0 pxDamp (j * nz + i))%Re
         /\ (0 < get 0 pxb (j * nz + i) <= 1)%Re.
Proof.
move=> HP Et Htask Hnz Hb H2b Hvel Hdx Hdt Hpos.
have [[S1 S2] Hc1 Hd0 Hfit] := scatter_block_range HP Et Htask.
have Ht1 : 0 <= taskId < Zsize (sendcounts_block_nx t) by rewrite S1.
have Ht2 : 0 <= taskId < Zsize (displs_block_nx t) by rewrite S2.
have Hc0 : 0 <= get 0 (sendcounts_block_nx t) taskId by lia.
have [pxDamp [pxb [E _ Hx Hdecay]]] :=
  xDamp_run dx dt Ht1 Ht2 (erefl _) (erefl _) Hnz Hc0 Hd0 Hfit Hb H2b Hvel.
exists pxDamp, pxb; split=> // j i Hj Hi.
have Hd : (0 <= get 0 pxDamp (j * nz + i))%Re.
  rewrite (Hx _ _ Hj Hi); apply: x_damping_nonneg => //.
  by apply: Hpos; rewrite Hvel; apply: lin2_bound.
by split=> //; rewrite (Hdecay _ _ Hj Hi); apply: decay_unit.
Qed.

Lemma xDamp_decay_in_unit_interval_witness :
  exists pxDamp pxb,
    xDamp 1 2 1 1%Re 1%Re [:: 2] [:: 0] 0 [:: 1; 2]%Re
    = Returned (pxDamp, pxb)
    /\ (0 < get 0 pxb 1 <= 1)%Re.
Proof.
have [||||||||||pxDamp [pxb [E Hall]]] :=
  @xDamp_decay_in_unit_interval 1 2 1 1 1%Re 1%Re
    (ScatterTables [:: 2] [:: 0] [:: 2] [:: 0] 2) 0 [:: 1; 2]%Re.
- lia.
- reflexivity.
- lia.
- lia.
- lia.
- lia.
- reflexivity.
- lra.
- lra.
- move=> k Hk; have Hk' : 0 <= k < 2 by exact: Hk.
  have [->|->] : k = 0 \/ k = 1 by lia.
  + get_entry.
  + get_entry.
- exists pxDamp, pxb; split; first exact: E.
  have C1 : 0 <= 1 < 2 by lia.
  have R0 : 0 <= 0 < 1 by lia.
  by have [_ H] := Hall 1 0 C1 R0.
Defined.

(** ** A padding taller than the grid *)

Lemma for_loop_first {S : Type} (f : Z -> S -> outcome S) (lo hi : Z) (s : S) :
  lo < hi ->
  for_loop lo hi f s = let* s' := f lo s in for_loop (lo + 1) hi f s'.
Proof.
move=> Hlt; rewrite /for_loop.
have -> : Z.to_nat (hi - lo) = (Z.to_nat (hi - (lo + 1))).+1 by lia.
by [].
Qed.

(** When the padding has more rows than the grid ([boundary > nz]), the
    z-axis profile of every worker reads the local velocity model before
    its first element (at row [nz - boundary] of the first column): the run
    is undefined and no profile is returned, whatever the velocities. *)
Theorem zDamp_boundary_above_nz (nz nx numProcesses boundary : Z)
    (dz dt : R) (t : scatter_tables) (taskId : Z)
    (pVelocityModel_local : seq R) :
  1 <= numProcesses <= nx ->
  scatter_layout nz nx numProcesses = Returned t ->
  0 <= taskId < numProcesses ->
  0 <= nz < boundary ->
  zDamp nz boundary dz dt (sendcounts_block_nx t) taskId
    pVelocityModel_local = Undefined.
Proof.
move=> HP Et Htask Hb.
have [[S1 _] Hc1 _ _] := scatter_block_range HP Et Htask.
have Ht1 : 0 <= taskId < Zsize (sendcounts_block_nx t) by rewrite S1.
set cnt := get 0 (sendcounts_block_nx t) taskId in Hc1.
have Hcnt : 0 <= cnt by lia.
have Hb0 : 0 <= boundary by lia.
have Hbc : 0 <= boundary * cnt by nia.
rewrite /zDamp load_ok //= -/cnt !(mxCalloc_ok _ Hbc) /=.
set zb := nseq (Z.to_nat (boundary * cnt)) _.
have Hzb : Zsize zb = boundary * cnt by rewrite /zb Zsize_nseq.
have [|pu [-> Hsu Hu _]] /= :=
  @sweep2_run cnt boundary (boundary * cnt) (fun j i => j * boundary + i)
    (fun j i _ => (IZR (i + 1) * dz)%Re)
    (fun j i pu => store 0%Re pu (j * boundary + i) (IZR (i + 1) * dz)%Re)
    zb Hcnt Hb0 (@lin2_range boundary cnt) (@lin2_range_inj boundary cnt) Hzb.
  move=> j i buf Hr Hs _; have Hk := lin2_range Hr.
  by rewrite store_ok ?Hs.
have Hc : 0 < cnt by lia.
have Hbd : 0 < boundary by lia.
rewrite (for_loop_first _ _ Hc) (for_loop_first _ _ Hbd) /load.
have -> // : in_bounds pVelocityModel_local (0 * nz + (nz - boundary + 0))
             = false.
by apply: in_bounds_false; lia.
Qed.

Lemma zDamp_boundary_above_nz_witness :
  zDamp 1 2 1%Re 1%Re [:: 1] 0 [:: 1]%Re = Undefined.
Proof.
apply: (@zDamp_boundary_above_nz 1 1 1 2 1%Re 1%Re
          (ScatterTables [:: 1] [:: 0] [:: 1] [:: 0] 1) 0 [:: 1]%Re).
- lia.
- reflexivity.
- lia.
- lia.
Defined.

(** ** The bands of the scatter tables *)

(** For [nx >= numProcesses >= 1] and a grid of [nz >= 0] rows: no worker
    is left without a column; the band tables are the block tables times
    [nz]; the bands follow each other without gap or overlap from offset 0
    to [nz * nx]; and the element of row [z] and column [g] of the
    column-major velocity model lies in the band of the worker whose block
    holds the column [g], at the local offset [(g - displs) * nz + z]: a
    band is the worker's whole columns, in order. *)
Theorem scatter_bands_whole_columns (nz nx numProcesses : Z) :
  1 <= numProcesses <= nx -> 0 <= nz ->
  exists t,
    let count := get 0 (sendcounts_block_nx t) in
    let displs := get 0 (displs_block_nx t) in
    let band_count := get 0 (sendcounts_band_nx t) in
    let band_displs := get 0 (displs_band_nx t) in
    [/\ scatter_layout nz nx numProcesses = Returned t,
        forall i, 0 <= i < numProcesses ->
          [/\ 1 <= count i, band_count i = nz * count i
            & band_displs i = nz * displs i],
        [/\ band_displs 0 = 0,
            forall i, 0 <= i -> i + 1 < numProcesses ->
              band_displs (i + 1) = band_displs i + band_count i
          & band_displs (numProcesses - 1) + band_count (numProcesses - 1)
            = nz * nx]
      & forall g z, 0 <= g < nx -> 0 <= z < nz ->
          exists i,
            [/\ 0 <= i < numProcesses,
                displs i <= g < displs i + count i,
                0 <= (g - displs i) * nz + z < band_count i
              & band_displs i + ((g - displs i) * nz + z) = g * nz + z]].
Proof.
move=> HP Hnz.
have [t [E _ _ Hget]] := scatter_layout_run nz HP.
have HP0 : 0 < numProcesses by lia.
have Hmod : 0 <= nx mod numProcesses < numProcesses
  by apply: Z.mod_pos_bound.
exists t; split=> //=.
- move=> i Hi; have [Hc Hd Hbc Hbd] := Hget _ Hi.
  have [_ Hc1 _ _] := scatter_block_range HP E Hi.
  by split=> //; rewrite ?Hbc ?Hbd ?Hc ?Hd.
- split.
  + have [_ _ _ ->] := Hget 0 ltac:(lia).
    by rewrite /block_offset; lia.
  + move=> i Hi Hi1.
    have [_ _ _ ->] := Hget (i + 1) ltac:(lia).
    have [_ _ -> ->] := Hget i ltac:(lia).
    by rewrite block_offset_succ; ring.
  + have [_ _ -> ->] := Hget (numProcesses - 1) ltac:(lia).
    rewrite -Z.mul_add_distr_l -block_offset_succ.
    have -> : numProcesses - 1 + 1 = numProcesses by lia.
    by rewrite block_offset_last.
- move=> g z Hg Hz.
  have [i [Hi Hgi]] := block_cover HP0 Hg.
  have [Hc Hd Hbc Hbd] := Hget _ Hi.
  exists i; split=> //.
  + by rewrite Hc Hd.
  + by rewrite Hbc Hd; nia.
  + by rewrite Hbd Hd; ring.
Qed.

Lemma scatter_bands_whole_columns_witness :
  exists t,
    scatter_layout 5 7 3 = Returned t
    /\ sendcounts_band_nx t = [:: 15; 10; 10]
    /\ displs_band_nx t = [:: 0; 15; 25].
Proof.
have [||t [E _ _ _]] := @scatter_bands_whole_columns 5 7 3; try lia.
exists t; split=> //.
by move: E; vm_compute; case=> <-.
Defined.

(** ** [diffOperator] at the edges of its domain *)

(** [diffOperator] handles arrays of at most three dimensions: on an array
    of four or more it takes the 3-D branch, whose result is created with
    [ndims] extents read from the three-element array [pDimsDiffData], that
    is past its end.  No array is returned, whatever the axis and the
    coefficients. *)
Theorem diffOperator_above_3d (data coeff : handle) (dist : R) (dim : Z)
    (h : heap) (D C : mxArray) :
  deref h data = Returned D -> deref h coeff = Returned C ->
  (4 <= size (mxGetDimensions D))%N ->
  diffOperator data coeff dist dim h = Undefined.
Proof.
move=> ED EC.
rewrite /diffOperator ED EC /= /mxGetNumberOfDimensions.
case: (mxGetDimensions D) => [|n1 [|n2 [|n3 [|n4 ds]]]] //= _.
have H4 : 4 <= Zsize [:: n1, n2, n3, n4 & ds].
  by rewrite /Zsize -[size _]/((size ds).+4); lia.
have -> : (Zsize [:: n1, n2, n3, n4 & ds] <=? 2) = false by lia.
have H0 : 0 <= 0 < Zsize [:: n1, n2, n3, n4 & ds] by lia.
have H1 : 0 <= 1 < Zsize [:: n1, n2, n3, n4 & ds] by lia.
have H2 : 0 <= 2 < Zsize [:: n1, n2, n3, n4 & ds] by lia.
rewrite (load_ok _ H1) /= (load_ok _ H2) /=.
have Ecreate : forall ds3 : seq Z, size ds3 = 3%N ->
    mxCreateNumericArray (Zsize [:: n1, n2, n3, n4 & ds]) ds3 h = Undefined.
  move=> ds3 Hs; rewrite /mxCreateNumericArray.
  have H3 : Zsize ds3 = 3 by rewrite /Zsize Hs.
  by have -> : (Zsize [:: n1, n2, n3, n4 & ds] <=? Zsize ds3) = false by lia.
by case: ifP => _; [|case: ifP => _]; rewrite Ecreate.
Qed.

Lemma diffOperator_above_3d_witness :
  diffOperator 0%N 1%N 2%Re 1
    (heap_dc [:: 2; 1; 1; 1] [:: 1; 2]%Re [:: 3]%Re) = Undefined.
Proof.
exact: (@diffOperator_above_3d 0%N 1%N 2%Re 1
          (heap_dc [:: 2; 1; 1; 1] [:: 1; 2]%Re [:: 3]%Re)
          (MxArray [:: 2; 1; 1; 1] [:: 1; 2]%Re) (MxArray [:: 1; 1] [:: 3]%Re)
          (erefl _) (erefl _) (erefl _)).
Defined.

(** On a 3-D array [diffOperator] takes every axis index below 1 for axis 1
    and every axis index from 3 on for axis 3: the call is the call with
    the clamped index, and whenever the stencil fits the extent of that
    axis it returns the derivative array of that axis: a new array with the
    extent of the axis reduced by [2*order - 1], one entry per point, each
    entry the stencil sum taken along the first, respectively the third,
    axis. *)
Theorem diffOperator_3d_axis_clamped (data coeff : handle) (dist : R)
    (dim : Z) (h : heap) (D C : mxArray) (n1 n2 n3 : Z) :
  deref h data = Returned D -> deref h coeff = Returned C ->
  well_formed D -> well_formed C ->
  mxGetDimensions D = [:: n1; n2; n3] ->
  let order := mxGetNumberOfElements C in
  let l := 2 * order - 1 in
  let term s a b :=
    (get 0 (mxGetPr C) s
     * (get 0 (mxGetPr D) a - get 0 (mxGetPr D) b) / dist)%Re in
  [/\ dim < 1 ->
      diffOperator data coeff dist dim h = diffOperator data coeff dist 1 h,
      3 <= dim ->
      diffOperator data coeff dist dim h = diffOperator data coeff dist 3 h,
      dim < 1 -> l <= n1 ->
      exists pd,
        [/\ diffOperator data coeff dist dim h =
            Returned (size h,
                      rcons h (Some (MxArray [:: n1 - l; n2; n3] pd))),
            Zsize pd = (n1 - l) * n2 * n3
          & forall i j k, 0 <= i < n1 - l -> 0 <= j < n2 -> 0 <= k < n3 ->
              get 0%Re pd (k * ((n1 - l) * n2) + j * (n1 - l) + i) =
              sumR (Z.to_nat order) (fun s =>
                term s (k * (n1 * n2) + j * n1 + (i + order + s))
                       (k * (n1 * n2) + j * n1 + (i + order - 1 - s)))]
    & 3 <= dim -> l <= n3 ->
      exists pd,
        [/\ diffOperator data coeff dist dim h =
            Returned (size h,
                      rcons h (Some (MxArray [:: n1; n2; n3 - l] pd))),
            Zsize pd = n1 * n2 * (n3 - l)
          & forall i j k, 0 <= i < n1 -> 0 <= j < n2 -> 0 <= k < n3 - l ->
              get 0%Re pd (k * (n1 * n2) + j * n1 + i) =
              sumR (Z.to_nat order) (fun s =>
                term s ((k + order + s) * (n1 * n2) + j * n1 + i)
                       ((k + order - 1 - s) * (n1 * n2) + j * n1 + i))]].
Proof.
move=> ED EC WD WC Edims order l term.
have [Hn1 Hn2 Hn3 HsD] := well_formed_3d WD Edims.
split.
- move=> Hdim; rewrite /diffOperator ED EC /= /mxGetNumberOfDimensions Edims /=.
  by have -> : (dim <? 1) = true by lia.
- move=> Hdim; rewrite /diffOperator ED EC /= /mxGetNumberOfDimensions Edims /=.
  have -> : (dim <? 1) = false by lia.
  have -> : (dim =? 1) = false by lia.
  by have -> : (dim =? 2) = false by lia.
- move=> Hdim Hfit.
  have Hd1 : dim <= 1 by lia.
  exact: (@diffOperator_3d_axis1 h data coeff D C dist ED EC WC dim n1 n2 n3
            Edims Hn1 Hn2 Hn3 HsD Hd1 Hfit).
- move=> Hdim Hfit.
  exact: (@diffOperator_3d_axis3 h data coeff D C dist ED EC WC dim n1 n2 n3
            Edims Hn1 Hn2 Hn3 HsD Hdim Hfit).
Qed.

Lemma diffOperator_3d_axis_clamped_witness :
  exists pd,
    diffOperator 0%N 1%N 2%Re 7
      (heap_dc [:: 1; 1; 2] [:: 1; 2]%Re [:: 3]%Re) =
    Returned (2%N, rcons (heap_dc [:: 1; 1; 2] [:: 1; 2]%Re [:: 3]%Re)
                         (Some (MxArray [:: 1; 1; 1] pd)))
    /\ get 0%Re pd 0 = (0 + 3 * (2 - 1) / 2)%Re.
Proof.
have [|||||_ _ _ Hlast] :=
  @diffOperator_3d_axis_clamped 0%N 1%N 2%Re 7
    (heap_dc [:: 1; 1; 2] [:: 1; 2]%Re [:: 3]%Re)
    (MxArray [:: 1; 1; 2] [:: 1; 2]%Re) (MxArray [:: 1; 1] [:: 3]%Re)
    1 1 2.
- reflexivity.
- reflexivity.
- by split.
- by split.
- reflexivity.
- have [||pd [E _ Hpd]] := Hlast.
  + lia.
  + by rewrite /mxGetNumberOfElements /=; lia.
  + exists pd; split; first exact: E.
    have I0 : 0 <= 0 < 1 by lia.
    have K0 : 0 <= 0 < 2 - (2 * mxGetNumberOfElements
                                 (MxArray [:: 1; 1] [:: 3]%Re) - 1).
      by rewrite /mxGetNumberOfElements /=; lia.
    exact: (Hpd 0 0 0 I0 I0 K0).
Defined.

Lemma inside_nth (dims idx : seq Z) (a : nat) :
  inside dims idx -> (a < size dims)%N ->
  0 <= nth 0 idx a < nth 0 dims a.
Proof.
elim: dims idx a => [|n dims IH] [|i idx] //= a.
move=> /andP [/andP [/Z.leb_le H0 /Z.ltb_lt H1] Hin].
case: a => [|a] //= Ha.
exact: IH.
Qed.

Lemma all_nth_nonneg (dims : seq Z) (a : nat) :
  all (Z.leb 0) dims -> 0 <= nth 0 dims a.
Proof.
elim: dims a => [|n dims IH] [|a] //=; try lia.
  by move=> /andP [/Z.leb_le].
by move=> /andP [_ /IH].
Qed.

(** With an empty coefficient vector ([order = 0], hence [2*order - 1 = -1])
    [diffOperator] returns an array that is one entry longer than the input
    along the axis, filled with zeros. *)
Theorem diffOperator_no_coefficient (data coeff : handle) (dist : R)
    (dim : Z) (h : heap) (D C : mxArray) :
  deref h data = Returned D -> deref h coeff = Returned C ->
  well_formed D -> well_formed C ->
  (size (mxGetDimensions D) = 2 \/ size (mxGetDimensions D) = 3)%N ->
  1 <= dim <= Zsize (mxGetDimensions D) ->
  mxGetNumberOfElements C = 0 ->
  let dims := mxGetDimensions D in
  let axis := Z.to_nat (dim - 1) in
  exists pd,
    let odims := set_nth 0 dims axis (nth 0 dims axis + 1) in
    [/\ diffOperator data coeff dist dim h =
        Returned (size h, rcons h (Some (MxArray odims pd))),
        Zsize pd = numel odims
      & forall idx, inside odims idx -> get 0%Re pd (lin odims idx) = 0%Re].
Proof.
move=> ED EC WD WC Hnd Hdim E0 dims axis.
have Hext : 0 <= nth 0 dims axis by apply: all_nth_nonneg; case: WD.
have Hfit : 2 * mxGetNumberOfElements C - 1 <= nth 0 dims axis.
  by rewrite E0; lia.
have [pd [E Hs Hpd]] := diffOperator_run dist ED EC WD WC Hnd Hdim Hfit.
move: E Hs Hpd; rewrite E0 -/dims -/axis.
have -> : nth 0 dims axis - (2 * 0 - 1) = nth 0 dims axis + 1 by lia.
move=> E Hs Hpd.
by exists pd; split=> // idx Hin; rewrite (Hpd idx Hin).
Qed.

Lemma diffOperator_no_coefficient_witness :
  exists pd,
    diffOperator 0%N 1%N 2%Re 1 (heap_dc [:: 2; 1] [:: 1; 2]%Re [::]) =
    Returned (2%N, rcons (heap_dc [:: 2; 1] [:: 1; 2]%Re [::])
                         (Some (MxArray [:: 3; 1] pd)))
    /\ get 0%Re pd 2 = 0%Re.
Proof.
have [|||||||pd [E _ Hpd]] :=
  @diffOperator_no_coefficient 0%N 1%N 2%Re 1
    (heap_dc [:: 2; 1] [:: 1; 2]%Re [::])
    (MxArray [:: 2; 1] [:: 1; 2]%Re) (MxArray [:: 0; 1] [::]).
- reflexivity.
- reflexivity.
- by split.
- by split.
- by left.
- by rewrite /Zsize /=; lia.
- reflexivity.
- exists pd; split; first exact: E.
  exact: (Hpd [:: 2; 0] (erefl _)).
Defined.

(** ** The stencil on polynomial data *)

Lemma sumR_scale (n : nat) (a : R) (f : Z -> R) :
  sumR n (fun k => (a * f k)%Re) = (a * sumR n f)%Re.
Proof. by elim: n => [|n IH] /=; [ring|rewrite IH; ring]. Qed.

Lemma sumR_add (n : nat) (f g : Z -> R) :
  sumR n (fun k => (f k + g k)%Re) = (sumR n f + sumR n g)%Re.
Proof. by elim: n => [|n IH] /=; [ring|rewrite IH; ring]. Qed.

Lemma sumR_exchange (n m : nat) (F : Z -> Z -> R) :
  sumR n (fun k => sumR m (fun i => F k i))
  = sumR m (fun i => sumR n (fun k => F k i)).
Proof.
elim: n => [|n IH] /=; first by rewrite sumR_zero.
by rewrite IH -sumR_add.
Qed.

Lemma system_entry_row0 (g : grid) (j : Z) :
  system_entry g 0 j = IZR (node g j).
Proof. by rewrite /system_entry /=; ring. Qed.

(** The value of the stencil at an output point, read off the differences
    of the data across the midpoint of the stencil. *)
Lemma diffOperator_differences (data coeff : handle) (dist : R) (dim : Z)
    (h : heap) (D C : mxArray) :
  deref h data = Returned D -> deref h coeff = Returned C ->
  well_formed D -> well_formed C ->
  (size (mxGetDimensions D) = 2 \/ size (mxGetDimensions D) = 3)%N ->
  1 <= dim <= Zsize (mxGetDimensions D) ->
  let dims := mxGetDimensions D in
  let order := mxGetNumberOfElements C in
  let axis := Z.to_nat (dim - 1) in
  let extent := nth 0 dims axis in
  2 * order - 1 <= extent ->
  exists pd,
    let odims := set_nth 0 dims axis (extent - (2 * order - 1)) in
    [/\ diffOperator data coeff dist dim h =
        Returned (size h, rcons h (Some (MxArray odims pd))),
        Zsize pd = numel odims
      & forall idx (delta : Z -> R), inside odims idx ->
          (forall q q', 0 <= q' < q -> q < extent ->
             q + q' = 2 * (nth 0 idx axis + order) - 1 ->
             q - q' < 2 * order ->
             (get 0 (mxGetPr D) (lin dims (along axis idx q))
              - get 0 (mxGetPr D) (lin dims (along axis idx q'))
              = delta (q - q')%Z)%Re) ->
          get 0%Re pd (lin odims idx) =
          sumR (Z.to_nat order)
               (fun k => (get 0 (mxGetPr C) k * delta (2 * k + 1)%Z / dist)%Re)].
Proof.
move=> ED EC WD WC Hnd Hdim dims order axis extent Hfit.
have [pd [E Hs Hpd]] := diffOperator_run dist ED EC WD WC Hnd Hdim Hfit.
exists pd; split=> // idx delta Hin Hdelta.
have Haxis : (axis < size dims)%N.
  by apply/ltP; rewrite /axis; move: Hdim; rewrite /Zsize -/dims; lia.
have Hp := @inside_nth _ _ axis Hin.
have Hnth : forall x, nth 0 (set_nth 0 dims axis x) axis = x.
  by move=> x; rewrite nth_set_nth /= eqxx.
rewrite size_set_nth Hnth in Hp.
have {}Hp := Hp ltac:(by rewrite /maxn; case: ifP => //; rewrite ltnS).
have Hord : 0 <= order.
  by rewrite /order /mxGetNumberOfElements; apply: all_nonneg_numel; case: WC.
rewrite (Hpd idx Hin); apply: sumR_ext_in => k Hk.
move: Hp Hdelta Hk Hord; rewrite /extent /order /dims /axis.
move: (nth 0 idx _) (mxGetNumberOfElements C) (nth 0 (mxGetDimensions D) _).
move=> p n e Hp Hdelta Hk Hord.
have Hq : 0 <= p + n - 1 - k < p + n + k by lia.
have Hq' : p + n + k < e by lia.
have Hsum : p + n + k + (p + n - 1 - k) = 2 * (p + n) - 1 by lia.
have Hnear : p + n + k - (p + n - 1 - k) < 2 * n by lia.
rewrite (Hdelta _ _ Hq Hq' Hsum Hnear).
by congr (_ * delta _ / _)%Re; lia.
Qed.

(** The stencil on data that are linear along the axis. *)
Lemma diffOperator_linear_run (data coeff : handle) (dist : R) (dim : Z)
    (h : heap) (D C : mxArray) :
  deref h data = Returned D -> deref h coeff = Returned C ->
  well_formed D -> well_formed C ->
  (size (mxGetDimensions D) = 2 \/ size (mxGetDimensions D) = 3)%N ->
  1 <= dim <= Zsize (mxGetDimensions D) ->
  let dims := mxGetDimensions D in
  let order := mxGetNumberOfElements C in
  let axis := Z.to_nat (dim - 1) in
  let extent := nth 0 dims axis in
  2 * order - 1 <= extent ->
  exists pd,
    let odims := set_nth 0 dims axis (extent - (2 * order - 1)) in
    let value idx q := get 0%Re (mxGetPr D) (lin dims (along axis idx q)) in
    diffOperator data coeff dist dim h =
    Returned (size h, rcons h (Some (MxArray odims pd)))
    /\ forall idx s, inside odims idx ->
         (forall q q', 0 <= q < extent -> 0 <= q' < extent ->
            (value idx q - value idx q' = s * IZR (q - q'))%Re) ->
         get 0%Re pd (lin odims idx) =
         (s / dist
          * sumR (Z.to_nat order)
                 (fun k => IZR (2 * k + 1) * get 0 (mxGetPr C) k))%Re.
Proof.
move=> ED EC WD WC Hnd Hdim dims order axis extent Hfit.
have [pd [E Hs Hpd]] := diffOperator_differences dist ED EC WD WC Hnd Hdim Hfit.
exists pd; split=> // idx s Hin Hs'.
rewrite (Hpd idx (fun d => (s * IZR d)%Re) Hin).
  by move=> q q' Hq Hq' _ _; apply: Hs'; rewrite /extent /dims /axis; lia.
rewrite -sumR_scale; apply: sumR_ext => k.
by rewrite /Rdiv; ring.
Qed.

(** For any coefficients and a non-zero spacing: where the data are linear
    along the axis, with slope [s] per grid step, the output of
    [diffOperator] is [s / dist] times the sum of [(2*k+1) * coeff[k]];
    where the data are constant along the axis, the output is zero. *)
Theorem diffOperator_linear_data (data coeff : handle) (dist : R) (dim : Z)
    (h : heap) (D C : mxArray) :
  deref h data = Returned D -> deref h coeff = Returned C ->
  well_formed D -> well_formed C ->
  (size (mxGetDimensions D) = 2 \/ size (mxGetDimensions D) = 3)%N ->
  1 <= dim <= Zsize (mxGetDimensions D) ->
  let dims := mxGetDimensions D in
  let order := mxGetNumberOfElements C in
  let axis := Z.to_nat (dim - 1) in
  let extent := nth 0 dims axis in
  2 * order - 1 <= extent ->
  dist <> 0%Re ->
  exists pd,
    let odims := set_nth 0 dims axis (extent - (2 * order - 1)) in
    let value idx q := get 0%Re (mxGetPr D) (lin dims (along axis idx q)) in
    [/\ diffOperator data coeff dist dim h =
        Returned (size h, rcons h (Some (MxArray odims pd))),
        forall idx s, inside odims idx ->
          (forall q q', 0 <= q < extent -> 0 <= q' < extent ->
             (value idx q - value idx q' = s * IZR (q - q'))%Re) ->
          get 0%Re pd (lin odims idx) =
          (s / dist
           * sumR (Z.to_nat order)
                  (fun k => IZR (2 * k + 1) * get 0 (mxGetPr C) k))%Re
      & forall idx, inside odims idx ->
          (forall q q', 0 <= q < extent -> 0 <= q' < extent ->
             value idx q = value idx q') ->
          get 0%Re pd (lin odims idx) = 0%Re].
Proof.
move=> ED EC WD WC Hnd Hdim dims order axis extent Hfit Hdist.
have [pd [E Hlin]] := diffOperator_linear_run dist ED EC WD WC Hnd Hdim Hfit.
exists pd; split=> //.
move=> idx Hin Hconst.
have Hs0 : forall q q', 0 <= q < extent -> 0 <= q' < extent ->
    (get 0 (mxGetPr D) (lin dims (along axis idx q))
     - get 0 (mxGetPr D) (lin dims (along axis idx q'))
     = 0 * IZR (q - q'))%Re.
  by move=> q q' Hq Hq'; rewrite (Hconst q q' Hq Hq'); ring.
by rewrite (Hlin idx 0%Re Hin Hs0) /Rdiv; ring.
Qed.

Lemma diffOperator_linear_data_witness :
  exists pd,
    diffOperator 0%N 1%N 2%Re 1
      (heap_dc [:: 4; 1] [:: 5; 5; 5; 5]%Re [:: 3]%Re) =
    Returned (2%N, rcons (heap_dc [:: 4; 1] [:: 5; 5; 5; 5]%Re [:: 3]%Re)
                         (Some (MxArray [:: 3; 1] pd)))
    /\ get 0%Re pd 1 = 0%Re.
Proof.
have [||||||||pd [E _ Hconst]] :=
  @diffOperator_linear_data 0%N 1%N 2%Re 1
    (heap_dc [:: 4; 1] [:: 5; 5; 5; 5]%Re [:: 3]%Re)
    (MxArray [:: 4; 1] [:: 5; 5; 5; 5]%Re) (MxArray [:: 1; 1] [:: 3]%Re).
- reflexivity.
- reflexivity.
- by split.
- by split.
- by left.
- by rewrite /Zsize /=; lia.
- by rewrite /mxGetNumberOfElements /=; lia.
- lra.
- exists pd; split; first exact: E.
  apply: (Hconst [:: 1; 0] (erefl _)) => q q' Hq Hq'.
  have Hq4 : 0 <= q < 4 by exact: Hq.
  have Hq4' : 0 <= q' < 4 by exact: Hq'.
  have [->|[->|[->|->]]] : q = 0 \/ q = 1 \/ q = 2 \/ q = 3 by lia.
  + have [->|[->|[->|->]]] : q' = 0 \/ q' = 1 \/ q' = 2 \/ q' = 3 by lia.
    * reflexivity.
    * reflexivity.
    * reflexivity.
    * reflexivity.
  + have [->|[->|[->|->]]] : q' = 0 \/ q' = 1 \/ q' = 2 \/ q' = 3 by lia.
    * reflexivity.
    * reflexivity.
    * reflexivity.
    * reflexivity.
  + have [->|[->|[->|->]]] : q' = 0 \/ q' = 1 \/ q' = 2 \/ q' = 3 by lia.
    * reflexivity.
    * reflexivity.
    * reflexivity.
    * reflexivity.
  + have [->|[->|[->|->]]] : q' = 0 \/ q' = 1 \/ q' = 2 \/ q' = 3 by lia.
    * reflexivity.
    * reflexivity.
    * reflexivity.
    * reflexivity.
Defined.

Lemma numel_column (n : Z) : numel [:: n; 1] = n.
Proof. by cbv [numel foldr]; lia. Qed.

Lemma well_formed_column (n : Z) (pc : seq R) :
  0 <= n -> Zsize pc = n -> well_formed (MxArray [:: n; 1] pc).
Proof.
move=> Hn Hs; split.
- by [].
- by rewrite /= andbT; apply/Z.leb_le.
- by change (Zsize pc = numel [:: n; 1]); rewrite numel_column.
Qed.

(** The heap after [dCoef]: the cells of the caller, the two emptied cells
    of the system and the coefficient vector. *)
Lemma deref_after_dCoef (h : heap) (p : handle) (a c : mxArray) :
  deref h p = Returned a ->
  deref (rcons (rcons (rcons h None) None) (Some c)) p = Returned a
  /\ deref (rcons (rcons (rcons h None) None) (Some c)) (size h).+2
     = Returned c.
Proof.
move=> Ep; split; first by do 3!apply: deref_rcons.
have <- : size (rcons (rcons h (None : option mxArray)) None) = (size h).+2.
  by rewrite !size_rcons.
exact: deref_rcons_last.
Qed.

(** [dCoef] and [diffOperator] together.  With [mldivide] a solver of
    invertible systems and a non-zero spacing, the stencil built from the
    staggered coefficients [dCoef(order, "s")] differentiates linear data
    exactly: where the data have slope [s] per grid step along the axis,
    the output is [s / dist], for every positive order. *)
Theorem staggered_stencil_exact_on_linear_data
    (mldivide : forall n : nat, 'M[R]_n -> 'cV[R]_n -> 'cV[R]_n)
    (order : Z) (data : handle) (dist : R) (dim : Z) (h : heap)
    (D : mxArray) :
  (forall n (A : 'M[R]_n) (b : 'cV[R]_n),
     A \in unitmx -> (A *m mldivide n A b)%R = b) ->
  0 < order ->
  deref h data = Returned D -> well_formed D ->
  (size (mxGetDimensions D) = 2 \/ size (mxGetDimensions D) = 3)%N ->
  1 <= dim <= Zsize (mxGetDimensions D) ->
  let dims := mxGetDimensions D in
  let axis := Z.to_nat (dim - 1) in
  let extent := nth 0 dims axis in
  2 * order - 1 <= extent ->
  dist <> 0%Re ->
  exists pc pd,
    let h1 := rcons (rcons (rcons h None) None)
                    (Some (MxArray [:: order; 1] pc)) in
    let odims := set_nth 0 dims axis (extent - (2 * order - 1)) in
    let value idx q := get 0%Re (mxGetPr D) (lin dims (along axis idx q)) in
    [/\ dCoef mldivide order "s" h = Returned ((size h).+2, h1),
        diffOperator data (size h).+2 dist dim h1 =
        Returned (size h1, rcons h1 (Some (MxArray odims pd)))
      & forall idx s, inside odims idx ->
          (forall q q', 0 <= q < extent -> 0 <= q' < extent ->
             (value idx q - value idx q' = s * IZR (q - q'))%Re) ->
          get 0%Re pd (lin odims idx) = (s / dist)%Re].
Proof.
move=> Hsolve Hord ED WD Hnd Hdim dims axis extent Hfit Hdist.
have [pc [Ec Hsc Hrow]] := dCoef_solved Staggered h Hsolve Hord.
have WC := @well_formed_column order pc ltac:(lia) Hsc.
have [ED1 EC1] := deref_after_dCoef (MxArray [:: order; 1] pc) ED.
have En : mxGetNumberOfElements (MxArray [:: order; 1] pc) = order.
  exact: numel_column.
have Hfit' : 2 * mxGetNumberOfElements (MxArray [:: order; 1] pc) - 1
             <= nth 0 (mxGetDimensions D) (Z.to_nat (dim - 1)).
  by rewrite En.
have [pd [E Hlin]] :=
  diffOperator_linear_run dist ED1 EC1 WD WC Hnd Hdim Hfit'.
move: E Hlin; rewrite En -/dims -/axis -/extent => E Hlin.
exists pc, pd; split=> // idx s Hin Hs.
rewrite (Hlin idx s Hin Hs).
have -> : sumR (Z.to_nat order)
            (fun k => (IZR (2 * k + 1) * get 0 pc k)%Re) = 1%Re.
  rewrite -[RHS](Hrow 0 ltac:(lia)); apply: sumR_ext => k.
  by rewrite system_entry_row0 /node; congr (IZR _ * _)%Re; lia.
by rewrite Rmult_1_r.
Qed.

Lemma staggered_stencil_exact_on_linear_data_witness :
  exists pc pd,
    dCoef exact_solve 1 "s" [:: Some (MxArray [:: 2; 1] [:: 3; 7]%Re)] =
    Returned (3%N, [:: Some (MxArray [:: 2; 1] [:: 3; 7]%Re); None; None;
                       Some (MxArray [:: 1; 1] pc)])
    /\ diffOperator 0%N 3%N 2%Re 1
         [:: Some (MxArray [:: 2; 1] [:: 3; 7]%Re); None; None;
             Some (MxArray [:: 1; 1] pc)] =
       Returned (4%N,
                 [:: Some (MxArray [:: 2; 1] [:: 3; 7]%Re); None; None;
                     Some (MxArray [:: 1; 1] pc);
                     Some (MxArray [:: 1; 1] pd)])
    /\ get 0%Re pd 0 = (4 / 2)%Re.
Proof.
have [|||||||pc [pd [Ec Ed Hpd]]] :=
  @staggered_stencil_exact_on_linear_data exact_solve 1 0%N 2%Re 1
    [:: Some (MxArray [:: 2; 1] [:: 3; 7]%Re)]
    (MxArray [:: 2; 1] [:: 3; 7]%Re) exact_solve_correct.
- lia.
- reflexivity.
- by split.
- by left.
- by rewrite /Zsize /=; lia.
- by rewrite /=; lia.
- lra.
- exists pc, pd; split; first exact: Ec.
  split; first exact: Ed.
  apply: (Hpd [:: 0; 0] 4%Re (erefl _)) => q q' Hq Hq'.
  have Hq2 : 0 <= q < 2 by exact: Hq.
  have Hq2' : 0 <= q' < 2 by exact: Hq'.
  have [->|->] : q = 0 \/ q = 1 by lia.
  + have [->|->] : q' = 0 \/ q' = 1 by lia.
    * by rewrite /get /=; lra.
    * by rewrite /get /=; lra.
  + have [->|->] : q' = 0 \/ q' = 1 by lia.
    * by rewrite /get /=; lra.
    * by rewrite /get /=; lra.
Defined.

Lemma pow_opp_odd (t : R) (n : nat) :
  ((- t) ^ (2 * n + 1)%N = - t ^ (2 * n + 1)%N)%Re.
Proof.
have -> : (- t = -1 * t)%Re by ring.
have E : (2 * n + 1)%N = S (2 * n)%coq_nat by rewrite addn1.
by rewrite Rpow_mult_distr E pow_1_odd; ring.
Qed.

Lemma pow_opp_even (t : R) (n : nat) :
  ((- t) ^ (2 * n)%N = t ^ (2 * n)%N)%Re.
Proof.
have -> : (- t = -1 * t)%Re by ring.
have E : (2 * n)%N = (2 * n)%coq_nat by [].
by rewrite Rpow_mult_distr E pow_1_even; ring.
Qed.

Lemma sumR_S (n : nat) (f : Z -> R) :
  sumR n.+1 f = (sumR n f + f (Z.of_nat n))%Re.
Proof. by []. Qed.

(** The odd part of a polynomial of degree at most [2 * m]. *)
Lemma poly_value_odd_part (b : Z -> R) (m : nat) (t : R) :
  (poly_value b (2 * m + 1) t - poly_value b (2 * m + 1) (- t))%Re
  = sumR m (fun i => (2 * b (2 * i + 1)%Z * t ^ Z.to_nat (2 * i + 1))%Re).
Proof.
rewrite /poly_value; elim: m => [|m IH].
  by rewrite !sumR_S /=; ring.
have E : (2 * m.+1 + 1)%N = (2 * m + 1).+2 by rewrite mulnS !addn1 add2n.
rewrite E !sumR_S -IH.
have E1 : Z.to_nat (Z.of_nat (2 * m + 1)) = (2 * m + 1)%N by lia.
have E2 : Z.to_nat (Z.of_nat (2 * m + 1).+1) = (2 * m.+1)%N.
  by rewrite Nat2Z.id mulnS addn1 add2n.
have E3 : Z.to_nat (2 * Z.of_nat m + 1) = (2 * m + 1)%N.
  by rewrite -multE -plusE; lia.
have E4 : Z.of_nat (2 * m + 1) = 2 * Z.of_nat m + 1.
  by rewrite -multE -plusE; lia.
rewrite E1 E2 E3 E4 pow_opp_odd pow_opp_even.
by ring.
Qed.

Lemma sumR_pick0 (n : nat) (a : Z -> R) :
  (0 < n)%N ->
  sumR n (fun i => (a i * system_rhs Staggered i)%Re) = a 0.
Proof.
case: n => // n _; elim: n => [|n IH].
  by rewrite sumR_S /= /system_rhs /=; ring.
rewrite sumR_S IH /system_rhs.
have -> : (Z.of_nat n.+1 =? 0) = false by apply/Z.eqb_neq; lia.
by ring.
Qed.

Lemma system_entry_pow (i k : Z) :
  0 <= i -> 0 <= k ->
  system_entry Staggered i k = (IZR (2 * k + 1) ^ Z.to_nat (2 * i + 1))%Re.
Proof.
move=> Hi Hk; rewrite /system_entry /node pow_powerRZ.
have -> : 2 * (k + 1) - 1 = 2 * k + 1 by lia.
by congr (powerRZ _ _); lia.
Qed.

(** The staggered coefficients annihilate the odd powers from the third
    on: on the differences of a polynomial across the midpoint, only the
    linear term is left. *)
Lemma staggered_moments (pc : seq R) (order : Z) (b : Z -> R) (dist : R) :
  0 < order ->
  (forall i, 0 <= i < order ->
     sumR (Z.to_nat order)
          (fun j => (system_entry Staggered i j * get 0 pc j)%Re)
     = system_rhs Staggered i) ->
  sumR (Z.to_nat order) (fun k =>
    (get 0 pc k
     * (poly_value b (2 * Z.to_nat order + 1) (IZR (2 * k + 1) / 2)
        - poly_value b (2 * Z.to_nat order + 1) (- (IZR (2 * k + 1) / 2)))
     / dist)%Re)
  = (b 1%Z / dist)%Re.
Proof.
move=> Hord Hrow.
set n := Z.to_nat order.
pose a (i : Z) := (2 * b (2 * i + 1)%Z / 2 ^ Z.to_nat (2 * i + 1) / dist)%Re.
have Hpow2 : forall m : nat, (2 ^ m <> 0)%Re.
  by move=> m; apply: pow_nonzero; lra.
have Eterm : forall k, 0 <= k < Z.of_nat n ->
    (get 0 pc k
     * (poly_value b (2 * n + 1) (IZR (2 * k + 1) / 2)
        - poly_value b (2 * n + 1) (- (IZR (2 * k + 1) / 2)))
     / dist)%Re
    = sumR n (fun i => (a i * (system_entry Staggered i k * get 0 pc k))%Re).
  move=> k Hk; rewrite poly_value_odd_part.
  have -> : forall x, (get 0 pc k * x / dist = get 0 pc k / dist * x)%Re.
    by move=> x; rewrite /Rdiv; ring.
  rewrite -sumR_scale; apply: sumR_ext_in => i Hi.
  have Hi0 : 0 <= i by lia.
  have Hk0 : 0 <= k by lia.
  rewrite (system_entry_pow Hi0 Hk0) /a /Rdiv Rpow_mult_distr pow_inv.
  by rewrite /Rdiv; ring.
rewrite (sumR_ext_in Eterm) sumR_exchange.
have Erow : forall i, 0 <= i < Z.of_nat n ->
    sumR n (fun k => (a i * (system_entry Staggered i k * get 0 pc k))%Re)
    = (a i * system_rhs Staggered i)%Re.
  by move=> i Hi; rewrite sumR_scale Hrow //; lia.
have Hn : (0 < n)%N by apply/ltP; rewrite /n; lia.
rewrite (sumR_ext_in Erow) (sumR_pick0 _ Hn) /a.
have -> : Z.to_nat (2 * 0 + 1) = 1%N by [].
have -> : (2 * 0 + 1)%Z = 1 by [].
by have -> : (2 * b 1%Z / 2 ^ 1 = b 1%Z)%Re by field.
Qed.

(** [dCoef] and [diffOperator] together, on polynomials.  With [mldivide] a
    solver of invertible systems, the stencil built from the staggered
    coefficients [dCoef(order, "s")] is exact up to degree [2 * order]: if
    the [2 * order] samples that the stencil uses at an output point are
    the values of a polynomial [f(t) = b 0 + b 1 * t + ... ] of degree at
    most [2 * order] at their offsets [t = +-(2*k+1)/2] (in grid steps)
    from the midpoint of the stencil, the output is [f'(0) / dist], that is
    [b 1 / dist]. *)
Theorem staggered_stencil_exact_on_polynomials
    (mldivide : forall n : nat, 'M[R]_n -> 'cV[R]_n -> 'cV[R]_n)
    (order : Z) (data : handle) (dist : R) (dim : Z) (h : heap)
    (D : mxArray) :
  (forall n (A : 'M[R]_n) (b : 'cV[R]_n),
     A \in unitmx -> (A *m mldivide n A b)%R = b) ->
  0 < order ->
  deref h data = Returned D -> well_formed D ->
  (size (mxGetDimensions D) = 2 \/ size (mxGetDimensions D) = 3)%N ->
  1 <= dim <= Zsize (mxGetDimensions D) ->
  let dims := mxGetDimensions D in
  let axis := Z.to_nat (dim - 1) in
  let extent := nth 0 dims axis in
  2 * order - 1 <= extent ->
  exists pc pd,
    let h1 := rcons (rcons (rcons h None) None)
                    (Some (MxArray [:: order; 1] pc)) in
    let odims := set_nth 0 dims axis (extent - (2 * order - 1)) in
    let value idx q := get 0%Re (mxGetPr D) (lin dims (along axis idx q)) in
    [/\ dCoef mldivide order "s" h = Returned ((size h).+2, h1),
        diffOperator data (size h).+2 dist dim h1 =
        Returned (size h1, rcons h1 (Some (MxArray odims pd)))
      & forall idx (b : Z -> R), inside odims idx ->
          let p := nth 0 idx axis in
          let f := poly_value b (2 * Z.to_nat order + 1) in
          (forall k, 0 <= k < order ->
             value idx (p + order + k) = f (IZR (2 * k + 1) / 2)%Re
             /\ value idx (p + order - 1 - k)
                = f (- (IZR (2 * k + 1) / 2))%Re) ->
          get 0%Re pd (lin odims idx) = (b 1%Z / dist)%Re].
Proof.
move=> Hsolve Hord ED WD Hnd Hdim dims axis extent Hfit.
have [pc [Ec Hsc Hrow]] := dCoef_solved Staggered h Hsolve Hord.
have WC := @well_formed_column order pc ltac:(lia) Hsc.
have [ED1 EC1] := deref_after_dCoef (MxArray [:: order; 1] pc) ED.
have En : mxGetNumberOfElements (MxArray [:: order; 1] pc) = order.
  exact: numel_column.
have Hfit' : 2 * mxGetNumberOfElements (MxArray [:: order; 1] pc) - 1
             <= nth 0 (mxGetDimensions D) (Z.to_nat (dim - 1)).
  by rewrite En.
have [pd [E _ Hpd]] := diffOperator_run dist ED1 EC1 WD WC Hnd Hdim Hfit'.
move: E Hpd; rewrite En -/dims -/axis -/extent => E Hpd.
exists pc, pd; split=> // idx b Hin p f Hf.
rewrite (Hpd idx Hin) -(staggered_moments b dist Hord Hrow).
apply: sumR_ext_in => k Hk.
have Hk' : 0 <= k < order by lia.
have [-> ->] := Hf k Hk'.
by [].
Qed.

Lemma staggered_stencil_exact_on_polynomials_witness :
  exists pc pd,
    dCoef exact_solve 1 "s" [:: Some (MxArray [:: 2; 1] [:: 3; 7]%Re)] =
    Returned (3%N, [:: Some (MxArray [:: 2; 1] [:: 3; 7]%Re); None; None;
                       Some (MxArray [:: 1; 1] pc)])
    /\ diffOperator 0%N 3%N 2%Re 1
         [:: Some (MxArray [:: 2; 1] [:: 3; 7]%Re); None; None;
             Some (MxArray [:: 1; 1] pc)] =
       Returned (4%N,
                 [:: Some (MxArray [:: 2; 1] [:: 3; 7]%Re); None; None;
                     Some (MxArray [:: 1; 1] pc);
                     Some (MxArray [:: 1; 1] pd)])
    /\ get 0%Re pd 0 = (4 / 2)%Re.
Proof.
have [||||||pc [pd [Ec Ed Hpd]]] :=
  @staggered_stencil_exact_on_polynomials exact_solve 1 0%N 2%Re 1
    [:: Some (MxArray [:: 2; 1] [:: 3; 7]%Re)]
    (MxArray [:: 2; 1] [:: 3; 7]%Re) exact_solve_correct.
- lia.
- reflexivity.
- by split.
- by left.
- by rewrite /Zsize /=; lia.
- by rewrite /=; lia.
- exists pc, pd; split; first exact: Ec.
  split; first exact: Ed.
  pose b (r : Z) : R :=
    if r =? 0 then 5%Re else if r =? 1 then 4%Re else 0%Re.
  apply: (Hpd [:: 0; 0] b (erefl _)) => k Hk.
  have -> : k = 0 by lia.
  by rewrite /poly_value /get /b /=; split; field.
Defined.

(** ** [dCoef] with order 0 *)

(** With [order = 0] the arrays [A] and [b] are empty.  For a recognised
    type [dCoef] then writes [b[0]] past the end of the empty vector [b]:
    the run is undefined and no coefficient is returned.  For any other
    type it ends with the message of [mexErrMsgTxt], as for a positive
    order. *)
Theorem dCoef_order_zero
    (mldivide : forall n : nat, 'M[R]_n -> 'cV[R]_n -> 'cV[R]_n)
    (type : string) (h : heap) :
  (type = "r" \/ type = "s" -> dCoef mldivide 0 type h = Undefined)
  /\ (type <> "r" -> type <> "s" ->
      dCoef mldivide 0 type h = Failed "Type must be 's' or 'r'!").
Proof.
split; last by apply: dCoef_rejects; lia.
move=> /type_name_cases [g ->].
have H0 : 0 <= 0 by lia.
rewrite /dCoef /dCoef_system (mxCreateDoubleMatrix_ok _ H0 H0) /=.
set hA := with_cell h (size h) [:: 0; 0] [::].
rewrite -(with_cell_fresh hA [:: 0; 1] [::]) !wr_cell.
case: (strcmp_type_name g) => -> ->.
by case: g.
Qed.

Lemma dCoef_order_zero_witness :
  dCoef exact_solve 0 "s" [::] = Undefined
  /\ dCoef exact_solve 0 "x" [::] = Failed "Type must be 's' or 'r'!".
Proof.
have [Hrec Hrej] := @dCoef_order_zero exact_solve "s" [::].
have [_ Hrej'] := @dCoef_order_zero exact_solve "x" [::].
split; first by apply: Hrec; right.
by apply: Hrej'.
Defined.

(** ** [dampPml] on arrays of different shapes *)

(** With the assertions of [mxAssert] in force, [dampPml] ends with the
    message of the first assertion when [u] and [v] differ in their number
    of rows, and with the message of the second when they agree in rows but
    differ in columns (the product of the extents after the first); no
    array is created in either case. *)
Theorem dampPml_shape_mismatch (u v : handle) (L : R) (h : heap)
    (U V : mxArray) :
  deref h u = Returned U -> deref h v = Returned V ->
  (mxGetM U <> mxGetM V ->
   dampPml u v L h = Failed "Rows of u and v should be the same!")
  /\ (mxGetM U = mxGetM V -> mxGetN U <> mxGetN V ->
      dampPml u v L h = Failed "Columns of u and v should be the same!").
Proof.
move=> EU EV; rewrite /dampPml EU EV /=; split.
- by move=> /Z.eqb_neq ->.
- by move=> -> /Z.eqb_neq ->; rewrite Z.eqb_refl.
Qed.

Lemma dampPml_shape_mismatch_witness :
  dampPml 0%N 1%N 1%Re
    [:: Some (MxArray [:: 1; 2] [:: 1; 2]%Re);
        Some (MxArray [:: 2; 1] [:: 3; 4]%Re)]
  = Failed "Rows of u and v should be the same!".
Proof.
have [Hrows _] :=
  @dampPml_shape_mismatch 0%N 1%N 1%Re
    [:: Some (MxArray [:: 1; 2] [:: 1; 2]%Re);
        Some (MxArray [:: 2; 1] [:: 3; 4]%Re)]
    (MxArray [:: 1; 2] [:: 1; 2]%Re) (MxArray [:: 2; 1] [:: 3; 4]%Re)
    (erefl _) (erefl _).
by apply: Hrows.
Defined.

(** ** Superposition *)

(** [diffOperator] is linear in the data: for three arrays of one shape in
    the heap with [data3 = a * data1 + b * data2] pointwise, and the same
    coefficients, spacing and axis, the three results satisfy
    [diff3 = a * diff1 + b * diff2] pointwise. *)
Theorem diffOperator_superposition (data1 data2 data3 coeff : handle)
    (dist : R) (dim : Z) (h : heap) (D1 D2 D3 C : mxArray) (a b : R) :
  deref h data1 = Returned D1 -> deref h data2 = Returned D2 ->
  deref h data3 = Returned D3 -> deref h coeff = Returned C ->
  well_formed D1 -> well_formed D2 -> well_formed D3 -> well_formed C ->
  mxGetDimensions D2 = mxGetDimensions D1 ->
  mxGetDimensions D3 = mxGetDimensions D1 ->
  (size (mxGetDimensions D1) = 2 \/ size (mxGetDimensions D1) = 3)%N ->
  1 <= dim <= Zsize (mxGetDimensions D1) ->
  let dims := mxGetDimensions D1 in
  let order := mxGetNumberOfElements C in
  let axis := Z.to_nat (dim - 1) in
  let extent := nth 0 dims axis in
  2 * order - 1 <= extent ->
  (forall k, get 0%Re (mxGetPr D3) k
             = (a * get 0 (mxGetPr D1) k + b * get 0 (mxGetPr D2) k)%Re) ->
  exists pd1 pd2 pd3,
    let odims := set_nth 0 dims axis (extent - (2 * order - 1)) in
    [/\ diffOperator data1 coeff dist dim h =
        Returned (size h, rcons h (Some (MxArray odims pd1))),
        diffOperator data2 coeff dist dim h =
        Returned (size h, rcons h (Some (MxArray odims pd2))),
        diffOperator data3 coeff dist dim h =
        Returned (size h, rcons h (Some (MxArray odims pd3)))
      & forall idx, inside odims idx ->
          get 0%Re pd3 (lin odims idx) =
          (a * get 0 pd1 (lin odims idx) + b * get 0 pd2 (lin odims idx))%Re].
Proof.
move=> E1 E2 E3 EC W1 W2 W3 WC Ed2 Ed3 Hnd Hdim dims order axis extent Hfit
  Hsum.
have [pd1 [R1 _ H1]] := diffOperator_run dist E1 EC W1 WC Hnd Hdim Hfit.
have Hnd2 : (size (mxGetDimensions D2) = 2 \/ size (mxGetDimensions D2) = 3)%N.
  by rewrite Ed2.
have Hnd3 : (size (mxGetDimensions D3) = 2 \/ size (mxGetDimensions D3) = 3)%N.
  by rewrite Ed3.
have Hdim2 : 1 <= dim <= Zsize (mxGetDimensions D2) by rewrite Ed2.
have Hdim3 : 1 <= dim <= Zsize (mxGetDimensions D3) by rewrite Ed3.
have Hfit2 : 2 * mxGetNumberOfElements C - 1
             <= nth 0 (mxGetDimensions D2) (Z.to_nat (dim - 1)).
  by rewrite Ed2.
have Hfit3 : 2 * mxGetNumberOfElements C - 1
             <= nth 0 (mxGetDimensions D3) (Z.to_nat (dim - 1)).
  by rewrite Ed3.
have [pd2 [R2 _ H2]] := diffOperator_run dist E2 EC W2 WC Hnd2 Hdim2 Hfit2.
have [pd3 [R3 _ H3]] := diffOperator_run dist E3 EC W3 WC Hnd3 Hdim3 Hfit3.
move: R2 H2 R3 H3; rewrite Ed2 Ed3 => R2 H2 R3 H3.
exists pd1, pd2, pd3; split=> // idx Hin.
rewrite (H1 idx Hin) (H2 idx Hin) (H3 idx Hin) -!sumR_scale -sumR_add.
apply: sumR_ext => k.
by rewrite !Hsum /Rdiv; ring.
Qed.

Lemma diffOperator_superposition_witness :
  exists pd1 pd2 pd3,
    let h := [:: Some (MxArray [:: 2; 1] [:: 1; 2]%Re);
                 Some (MxArray [:: 2; 1] [:: 3; 5]%Re);
                 Some (MxArray [:: 2; 1] [:: 5; 9]%Re);
                 Some (MxArray [:: 1; 1] [:: 1]%Re)] in
    diffOperator 2%N 3%N 1%Re 1 h =
    Returned (4%N, rcons h (Some (MxArray [:: 1; 1] pd3)))
    /\ get 0%Re pd3 0 = (2 * get 0 pd1 0 + 1 * get 0 pd2 0)%Re.
Proof.
have [||||||||||||||pd1 [pd2 [pd3 [_ _ E Hpd]]]] :=
  @diffOperator_superposition 0%N 1%N 2%N 3%N 1%Re 1
    [:: Some (MxArray [:: 2; 1] [:: 1; 2]%Re);
        Some (MxArray [:: 2; 1] [:: 3; 5]%Re);
        Some (MxArray [:: 2; 1] [:: 5; 9]%Re);
        Some (MxArray [:: 1; 1] [:: 1]%Re)]
    (MxArray [:: 2; 1] [:: 1; 2]%Re) (MxArray [:: 2; 1] [:: 3; 5]%Re)
    (MxArray [:: 2; 1] [:: 5; 9]%Re) (MxArray [:: 1; 1] [:: 1]%Re)
    2%Re 1%Re.
- reflexivity.
- reflexivity.
- reflexivity.
- reflexivity.
- by split.
- by split.
- by split.
- by split.
- reflexivity.
- reflexivity.
- by left.
- by rewrite /Zsize /=; lia.
- by rewrite /mxGetNumberOfElements /=; lia.
- move=> k; rewrite /get.
  case: (Z.to_nat k) => [|[|n]] /=; try lra.
  by rewrite !nth_nil; lra.
- exists pd1, pd2, pd3; split; first exact: E.
  exact: (Hpd [:: 0; 0] (erefl _)).
Defined.

(** ** Paddings that overlap *)



(** ** The arguments of [mexFunction] *)

Lemma trunc_IZR (z : Z) : trunc (IZR z) = z.
Proof.
rewrite /trunc; case: Rle_dec => H.
  by symmetry; apply: Int_part_spec; lra.
rewrite -opp_IZR -[RHS]Z.opp_involutive; congr (- _).
by symmetry; apply: Int_part_spec; lra.
Qed.

Lemma int_of_double_IZR (z : Z) :
  -2147483648 <= z <= 2147483647 -> int_of_double (IZR z) = Returned z.
Proof.
move=> Hz; rewrite /int_of_double trunc_IZR.
by have -> : (-2147483648 <=? z) && (z <=? 2147483647) = true by lia.
Qed.

Section MexInputsRun.

Variable mldivide : forall n : nat, 'M[R]_n -> 'cV[R]_n -> 'cV[R]_n.
Variables (nrhs : Z) (vm src od bd hz hx ht : handle) (rest : seq handle).
Variables (h : heap) (VM SOURCE OD BD HZ HX HT : mxArray).

Let prhs := [:: vm, src, od, bd, hz, hx, ht & rest].

Hypothesis Hnrhs : 7 <= nrhs.
Hypothesis Evm : deref h vm = Returned VM.
Hypothesis Esrc : deref h src = Returned SOURCE.
Hypothesis Eod : deref h od = Returned OD.
Hypothesis Ebd : deref h bd = Returned BD.
Hypothesis Ehz : deref h hz = Returned HZ.
Hypothesis Ehx : deref h hx = Returned HX.
Hypothesis Eht : deref h ht = Returned HT.
Hypothesis Sod : 0 < Zsize (mxGetPr OD).
Hypothesis Sbd : 0 < Zsize (mxGetPr BD).
Hypothesis Shz : 0 < Zsize (mxGetPr HZ).
Hypothesis Shx : 0 < Zsize (mxGetPr HX).
Hypothesis Sht : 0 < Zsize (mxGetPr HT).

(** The prologue once the seven arguments have been read. *)
Lemma mexFunction_inputs_read :
  mexFunction_inputs mldivide nrhs prhs h =
  let* diffOrder := int_of_double (get 0%Re (mxGetPr OD) 0) in
  let* boundary := int_of_double (get 0%Re (mxGetPr BD) 0) in
  let dz := get 0%Re (mxGetPr HZ) 0 in
  let dx := get 0%Re (mxGetPr HX) 0 in
  let dt := get 0%Re (mxGetPr HT) 0 in
  let pDimsSource := mxGetDimensions SOURCE in
  let* nz := load 0 pDimsSource 0 in
  let* nx := load 0 pDimsSource 1 in
  let* nt := load 0 pDimsSource 2 in
  if ~~ (nz =? mxGetM VM) then
    Failed
      "Velocity model and source grids should have the same z-axis grids!"
  else if ~~ (nx =? mxGetN VM) then
    Failed
      "Velocity model and source grids should have the same x-axis grids!"
  else
    let* '(pCoeff, h) := dCoef mldivide diffOrder "s" h in
    let l := 2 * diffOrder - 1 in
    Returned (MexInputs nz nx nt diffOrder boundary dz dx dt pCoeff l, h).
Proof.
rewrite /mexFunction_inputs; have -> : (nrhs <? 7) = false by lia.
have Hs : 7 <= Zsize prhs.
  by rewrite /Zsize /prhs -[size _]/((size rest).+4.+3); lia.
have B : forall k, 0 <= k < 7 -> 0 <= k < Zsize prhs by move=> k; lia.
rewrite (load_ok _ (B 0 ltac:(lia))) (load_ok _ (B 1 ltac:(lia))).
rewrite (load_ok _ (B 2 ltac:(lia))) (load_ok _ (B 3 ltac:(lia))).
rewrite (load_ok _ (B 4 ltac:(lia))) (load_ok _ (B 5 ltac:(lia))).
rewrite (load_ok _ (B 6 ltac:(lia))).
rewrite -[get _ prhs 0]/vm -[get _ prhs 1]/src -[get _ prhs 2]/od.
rewrite -[get _ prhs 3]/bd -[get _ prhs 4]/hz -[get _ prhs 5]/hx.
rewrite -[get _ prhs 6]/ht.
rewrite [bind _ _]/= Evm Esrc [bind _ _]/= /rd Eod Ebd Ehz Ehx Eht.
rewrite [bind _ _]/=.
have L : forall a : mxArray, 0 < Zsize (mxGetPr a) ->
    load 0%Re (mxGetPr a) 0 = Returned (get 0%Re (mxGetPr a) 0).
  by move=> a Ha; apply: load_ok; lia.
by rewrite (L _ Sod) (L _ Sbd) (L _ Shz) (L _ Shx) (L _ Sht).
Qed.

End MexInputsRun.

(** [mexFunction] checks its arguments before anything else: with fewer
    than seven it ends with the message of [mexErrMsgTxt]; with seven
    readable arguments and a 3-D source of extents [nz x nx x nt] it ends
    with the message of the first assertion when the velocity model does
    not have [nz] rows, and with the message of the second when it has
    [nz] rows but not [nx] columns. *)
Theorem mexFunction_inputs_checked
    (mldivide : forall n : nat, 'M[R]_n -> 'cV[R]_n -> 'cV[R]_n)
    (nrhs : Z) (vm src od bd hz hx ht : handle) (rest : seq handle)
    (h : heap) (VM SOURCE OD BD HZ HX HT : mxArray)
    (nz nx nt diffOrder boundary : Z) :
  (nrhs < 7 ->
   forall prhs,
     mexFunction_inputs mldivide nrhs prhs h =
     Failed "All 7 input arguments shall be provided!")
  /\ (7 <= nrhs ->
      deref h vm = Returned VM -> deref h src = Returned SOURCE ->
      deref h od = Returned OD -> deref h bd = Returned BD ->
      deref h hz = Returned HZ -> deref h hx = Returned HX ->
      deref h ht = Returned HT ->
      0 < Zsize (mxGetPr OD) -> 0 < Zsize (mxGetPr BD) ->
      0 < Zsize (mxGetPr HZ) -> 0 < Zsize (mxGetPr HX) ->
      0 < Zsize (mxGetPr HT) ->
      int_of_double (get 0%Re (mxGetPr OD) 0) = Returned diffOrder ->
      int_of_double (get 0%Re (mxGetPr BD) 0) = Returned boundary ->
      mxGetDimensions SOURCE = [:: nz; nx; nt] ->
      let prhs := [:: vm, src, od, bd, hz, hx, ht & rest] in
      (nz <> mxGetM VM ->
       mexFunction_inputs mldivide nrhs prhs h =
       Failed
         "Velocity model and source grids should have the same z-axis grids!")
      /\ (nz = mxGetM VM -> nx <> mxGetN VM ->
          mexFunction_inputs mldivide nrhs prhs h =
          Failed
            "Velocity model and source grids should have the same x-axis grids!")).
Proof.
split.
  by move=> Hn prhs; rewrite /mexFunction_inputs; have -> : (nrhs <? 7) = true
    by lia.
move=> Hn Evm Esrc Eod Ebd Ehz Ehx Eht Sod Sbd Shz Shx Sht Cod Cbd Edims prhs.
have E := mexFunction_inputs_read mldivide rest Hn Evm Esrc Eod Ebd Ehz Ehx
            Eht Sod Sbd Shz Shx Sht.
rewrite /prhs {}E Cod Cbd [bind _ _]/= Edims.
have L0 : load 0 [:: nz; nx; nt] 0 = Returned nz by [].
have L1 : load 0 [:: nz; nx; nt] 1 = Returned nx by [].
have L2 : load 0 [:: nz; nx; nt] 2 = Returned nt by [].
rewrite L0 L1 L2 [bind _ _]/=; split.
- by move=> /Z.eqb_neq ->.
- by move=> <- /Z.eqb_neq ->; rewrite Z.eqb_refl.
Qed.

Lemma mexFunction_inputs_checked_witness :
  mexFunction_inputs exact_solve 3 [:: 0%N; 1%N; 2%N] [::] =
  Failed "All 7 input arguments shall be provided!"
  /\ mexFunction_inputs exact_solve 7
       [:: 0%N; 1%N; 2%N; 2%N; 2%N; 2%N; 2%N]
       [:: Some (MxArray [:: 2; 1] [:: 1; 1]%Re);
           Some (MxArray [:: 1; 1; 1] [:: 1]%Re);
           Some (MxArray [:: 1; 1] [:: 1]%Re)] =
     Failed
       "Velocity model and source grids should have the same z-axis grids!".
Proof.
split.
- have [Hfew _] :=
    @mexFunction_inputs_checked exact_solve 3 0%N 0%N 0%N 0%N 0%N 0%N 0%N [::]
      [::] (MxArray [::] [::]) (MxArray [::] [::]) (MxArray [::] [::])
      (MxArray [::] [::]) (MxArray [::] [::]) (MxArray [::] [::])
      (MxArray [::] [::]) 0 0 0 0 0.
  by apply: Hfew; lia.
- have [_ Hshape] :=
    @mexFunction_inputs_checked exact_solve 7 0%N 1%N 2%N 2%N 2%N 2%N 2%N [::]
      [:: Some (MxArray [:: 2; 1] [:: 1; 1]%Re);
          Some (MxArray [:: 1; 1; 1] [:: 1]%Re);
          Some (MxArray [:: 1; 1] [:: 1]%Re)]
      (MxArray [:: 2; 1] [:: 1; 1]%Re) (MxArray [:: 1; 1; 1] [:: 1]%Re)
      (MxArray [:: 1; 1] [:: 1]%Re) (MxArray [:: 1; 1] [:: 1]%Re)
      (MxArray [:: 1; 1] [:: 1]%Re) (MxArray [:: 1; 1] [:: 1]%Re)
      (MxArray [:: 1; 1] [:: 1]%Re) 1 1 1 1 1.
  have [||||||||||||||||Hrows _] := Hshape.
  + lia.
  + reflexivity.
  + reflexivity.
  + reflexivity.
  + reflexivity.
  + reflexivity.
  + reflexivity.
  + reflexivity.
  + by [].
  + by [].
  + by [].
  + by [].
  + by [].
  + by apply: (int_of_double_IZR (z := 1)); lia.
  + by apply: (int_of_double_IZR (z := 1)); lia.
  + reflexivity.
  + by apply: Hrows.
Defined.

(** A source array of fewer than three dimensions (MATLAB stores an
    [nz x nx x 1] array as a 2-D one) makes [mexFunction] read the extent
    [pDimsSource[2]] past the end of the extents: with seven readable
    arguments the run is undefined, and no error message is produced. *)
Theorem mexFunction_source_below_3d
    (mldivide : forall n : nat, 'M[R]_n -> 'cV[R]_n -> 'cV[R]_n)
    (nrhs : Z) (vm src od bd hz hx ht : handle) (rest : seq handle)
    (h : heap) (VM SOURCE OD BD HZ HX HT : mxArray) :
  7 <= nrhs ->
  deref h vm = Returned VM -> deref h src = Returned SOURCE ->
  deref h od = Returned OD -> deref h bd = Returned BD ->
  deref h hz = Returned HZ -> deref h hx = Returned HX ->
  deref h ht = Returned HT ->
  0 < Zsize (mxGetPr OD) -> 0 < Zsize (mxGetPr BD) ->
  0 < Zsize (mxGetPr HZ) -> 0 < Zsize (mxGetPr HX) ->
  0 < Zsize (mxGetPr HT) ->
  (size (mxGetDimensions SOURCE) < 3)%N ->
  mexFunction_inputs mldivide nrhs
    [:: vm, src, od, bd, hz, hx, ht & rest] h = Undefined.
Proof.
move=> Hn Evm Esrc Eod Ebd Ehz Ehx Eht Sod Sbd Shz Shx Sht Hdims.
rewrite (mexFunction_inputs_read mldivide rest Hn Evm Esrc Eod Ebd Ehz Ehx
           Eht Sod Sbd Shz Shx Sht).
rewrite /int_of_double.
case: ifP => _ //; case: ifP => _ //.
rewrite [bind _ _]/=.
by case: (mxGetDimensions SOURCE) Hdims => [|n1 [|n2 [|n3 ds]]].
Qed.

Lemma mexFunction_source_below_3d_witness :
  mexFunction_inputs exact_solve 7
    [:: 0%N; 1%N; 2%N; 2%N; 2%N; 2%N; 2%N]
    [:: Some (MxArray [:: 1; 1] [:: 1]%Re);
        Some (MxArray [:: 1; 1] [:: 1]%Re);
        Some (MxArray [:: 1; 1] [:: 1]%Re)] = Undefined.
Proof.
apply: (@mexFunction_source_below_3d exact_solve 7 0%N 1%N 2%N 2%N 2%N 2%N
          2%N [::] _ (MxArray [:: 1; 1] [:: 1]%Re)
          (MxArray [:: 1; 1] [:: 1]%Re) (MxArray [:: 1; 1] [:: 1]%Re)
          (MxArray [:: 1; 1] [:: 1]%Re) (MxArray [:: 1; 1] [:: 1]%Re)
          (MxArray [:: 1; 1] [:: 1]%Re) (MxArray [:: 1; 1] [:: 1]%Re)).
- lia.
- reflexivity.
- reflexivity.
- reflexivity.
- reflexivity.
- reflexivity.
- reflexivity.
- reflexivity.
- by [].
- by [].
- by [].
- by [].
- by [].
- by [].
Defined.

(** With seven readable arguments, a 3-D source of extents
    [nz x nx x nt], a velocity model of [nz] rows and [nx] columns and a
    positive [diffOrder], the prologue of [mexFunction] returns these
    extents, the scalars ([diffOrder] and [boundary] converted to [int]),
    the stencil length [2 * diffOrder - 1] and the coefficient vector of
    [dCoef(diffOrder, "s")], which solves the staggered system when
    [mldivide] solves invertible systems. *)
Theorem mexFunction_inputs_accepted
    (mldivide : forall n : nat, 'M[R]_n -> 'cV[R]_n -> 'cV[R]_n)
    (nrhs : Z) (vm src od bd hz hx ht : handle) (rest : seq handle)
    (h : heap) (VM SOURCE OD BD HZ HX HT : mxArray)
    (nz nx nt diffOrder boundary : Z) :
  (forall n (A : 'M[R]_n) (b : 'cV[R]_n),
     A \in unitmx -> (A *m mldivide n A b)%R = b) ->
  7 <= nrhs ->
  deref h vm = Returned VM -> deref h src = Returned SOURCE ->
  deref h od = Returned OD -> deref h bd = Returned BD ->
  deref h hz = Returned HZ -> deref h hx = Returned HX ->
  deref h ht = Returned HT ->
  0 < Zsize (mxGetPr OD) -> 0 < Zsize (mxGetPr BD) ->
  0 < Zsize (mxGetPr HZ) -> 0 < Zsize (mxGetPr HX) ->
  0 < Zsize (mxGetPr HT) ->
  int_of_double (get 0%Re (mxGetPr OD) 0) = Returned diffOrder ->
  int_of_double (get 0%Re (mxGetPr BD) 0) = Returned boundary ->
  mxGetDimensions SOURCE = [:: nz; nx; nt] ->
  mxGetM VM = nz -> mxGetN VM = nx ->
  0 < diffOrder ->
  exists pc,
    let h1 := rcons (rcons (rcons h None) None)
                    (Some (MxArray [:: diffOrder; 1] pc)) in
    [/\ mexFunction_inputs mldivide nrhs
          [:: vm, src, od, bd, hz, hx, ht & rest] h =
        Returned (MexInputs nz nx nt diffOrder boundary
                    (get 0%Re (mxGetPr HZ) 0) (get 0%Re (mxGetPr HX) 0)
                    (get 0%Re (mxGetPr HT) 0) (size h).+2
                    (2 * diffOrder - 1), h1),
        Zsize pc = diffOrder
      & forall i, 0 <= i < diffOrder ->
          sumR (Z.to_nat diffOrder)
               (fun j => (system_entry Staggered i j * get 0 pc j)%Re)
          = system_rhs Staggered i].
Proof.
move=> Hsolve Hn Evm Esrc Eod Ebd Ehz Ehx Eht Sod Sbd Shz Shx Sht Cod Cbd
  Edims EM EN Hord.
have [pc [Ec Hsc Hrow]] := dCoef_solved Staggered h Hsolve Hord.
exists pc; split=> //.
rewrite (mexFunction_inputs_read mldivide rest Hn Evm Esrc Eod Ebd Ehz Ehx
           Eht Sod Sbd Shz Shx Sht).
rewrite Cod Cbd [bind _ _]/= Edims.
have L0 : load 0 [:: nz; nx; nt] 0 = Returned nz by [].
have L1 : load 0 [:: nz; nx; nt] 1 = Returned nx by [].
have L2 : load 0 [:: nz; nx; nt] 2 = Returned nt by [].
rewrite L0 L1 L2 [bind _ _]/= EM EN !Z.eqb_refl.
by move: Ec; rewrite [type_name _]/= => ->.
Qed.

Lemma mexFunction_inputs_accepted_witness :
  exists r,
    mexFunction_inputs exact_solve 7
      [:: 0%N; 1%N; 2%N; 2%N; 2%N; 2%N; 2%N]
      [:: Some (MxArray [:: 1; 1] [:: 1]%Re);
          Some (MxArray [:: 1; 1; 1] [:: 1]%Re);
          Some (MxArray [:: 1; 1] [:: 1]%Re)] = Returned r.
Proof.
have [|||||||||||||||||||pc [E _ _]] :=
  @mexFunction_inputs_accepted exact_solve 7 0%N 1%N 2%N 2%N 2%N 2%N
    2%N [::]
    [:: Some (MxArray [:: 1; 1] [:: 1]%Re);
        Some (MxArray [:: 1; 1; 1] [:: 1]%Re);
        Some (MxArray [:: 1; 1] [:: 1]%Re)]
    (MxArray [:: 1; 1] [:: 1]%Re)
    (MxArray [:: 1; 1; 1] [:: 1]%Re) (MxArray [:: 1; 1] [:: 1]%Re)
    (MxArray [:: 1; 1] [:: 1]%Re) (MxArray [:: 1; 1] [:: 1]%Re)
    (MxArray [:: 1; 1] [:: 1]%Re) (MxArray [:: 1; 1] [:: 1]%Re)
    1 1 1 1 1 exact_solve_correct.
- lia.
- reflexivity.
- reflexivity.
- reflexivity.
- reflexivity.
- reflexivity.
- reflexivity.
- reflexivity.
- by [].
- by [].
- by [].
- by [].
- by [].
- by apply: (int_of_double_IZR (z := 1)); lia.
- by apply: (int_of_double_IZR (z := 1)); lia.
- reflexivity.
- reflexivity.
- reflexivity.
- lia.
- by eexists; exact: E.
Defined.

(** ** The coefficients do not depend on the solver *)

(** For a positive order and a recognised type, any two solvers that solve
    invertible systems make [dCoef] return the same coefficients: the
    system that [dCoef] builds has exactly one solution. *)
Theorem dCoef_solver_independent
    (mldivide1 mldivide2 : forall n : nat, 'M[R]_n -> 'cV[R]_n -> 'cV[R]_n)
    (order : Z) (type : string) (h : heap) :
  (forall n (A : 'M[R]_n) (b : 'cV[R]_n),
     A \in unitmx -> (A *m mldivide1 n A b)%R = b) ->
  (forall n (A : 'M[R]_n) (b : 'cV[R]_n),
     A \in unitmx -> (A *m mldivide2 n A b)%R = b) ->
  0 < order -> type = "r" \/ type = "s" ->
  dCoef mldivide1 order type h = dCoef mldivide2 order type h.
Proof.
move=> H1 H2 Hord /type_name_cases [g ->].
have [pA1 [pb1 [E1 HA1 Hb1]]] := dCoef_run mldivide1 g h Hord.
have [pA2 [pb2 [E2 HA2 Hb2]]] := dCoef_run mldivide2 g h Hord.
rewrite E1 E2; set n := Z.to_nat order in HA1 Hb1 HA2 Hb2 *.
have EA : mx_of_buf n pA2 = mx_of_buf n pA1.
  by apply/matrixP => i j; rewrite !mxE HA1 HA2.
have Eb : col_of_buf n pb2 = col_of_buf n pb1.
  by apply/matrixP => i j; rewrite !mxE Hb1 Hb2.
have UA := system_unit HA1.
rewrite EA Eb.
set A := mx_of_buf n pA1 in UA *; set b := col_of_buf n pb1.
have -> // : mldivide1 n A b = mldivide2 n A b.
by rewrite -[LHS](mulKmx UA) H1 // -[in LHS](H2 n A b UA) mulKmx.
Qed.

Lemma dCoef_solver_independent_witness :
  dCoef exact_solve 2 "s" [::]
  = dCoef (fun n A b => (invmx A *m (A *m (invmx A *m b)))%R) 2 "s" [::].
Proof.
apply: dCoef_solver_independent.
- exact: exact_solve_correct.
- by move=> n A b UA; rewrite mulKVmx // mulKVmx.
- lia.
- by right.
Defined.

(** ** The two paddings of the x axis mirror each other *)

Lemma x_damping_mirror (nx boundary : Z) (dx : R) (g g' : Z) (v : R) :
  2 * boundary <= nx -> g + g' = nx - 1 ->
  x_damping nx boundary dx g v = x_damping nx boundary dx g' v.
Proof.
move=> H2b Hg; rewrite /x_damping.
case: (Z.ltb_spec g boundary) => H1.
  have -> : (g' <? boundary) = false by lia.
  have -> : (nx - boundary <=? g') = true by lia.
  by congr (damping (IZR _ * _) _ _); lia.
case: (Z.leb_spec (nx - boundary) g) => H2.
  have -> : (g' <? boundary) = true by lia.
  by congr (damping (IZR _ * _) _ _); lia.
have -> : (g' <? boundary) = false by lia.
by have -> : (nx - boundary <=? g') = false by lia.
Qed.

(** For paddings that do not overlap, the x-axis damping is symmetric about
    the middle of the grid: at two points of the same row and of equal
    velocity whose columns [g] and [g'] are mirror images
    ([g + g' = nx - 1]), the workers that hold them compute the same
    damping and the same decay factor. *)
Theorem xDamp_paddings_mirror (nz nx numProcesses boundary : Z) (dx dt : R)
    (t : scatter_tables) (taskId taskId' : Z)
    (pVelocityModel_local pVelocityModel_local' : seq R) :
  1 <= numProcesses <= nx ->
  scatter_layout nz nx numProcesses = Returned t ->
  0 <= taskId < numProcesses -> 0 <= taskId' < numProcesses ->
  0 <= nz -> 0 <= boundary -> 2 * boundary <= nx ->
  Zsize pVelocityModel_local = nz * get 0 (sendcounts_block_nx t) taskId ->
  Zsize pVelocityModel_local' = nz * get 0 (sendcounts_block_nx t) taskId' ->
  exists pxDamp pxb pxDamp' pxb',
    [/\ xDamp nz nx boundary dx dt (sendcounts_block_nx t)
          (displs_block_nx t) taskId pVelocityModel_local
        = Returned (pxDamp, pxb),
        xDamp nz nx boundary dx dt (sendcounts_block_nx t)
          (displs_block_nx t) taskId' pVelocityModel_local'
        = Returned (pxDamp', pxb')
      & forall j j' i,
          0 <= j < get 0 (sendcounts_block_nx t) taskId ->
          0 <= j' < get 0 (sendcounts_block_nx t) taskId' ->
          0 <= i < nz ->
          (get 0 (displs_block_nx t) taskId + j)
          + (get 0 (displs_block_nx t) taskId' + j') = nx - 1 ->
          get 0%Re pVelocityModel_local (j * nz + i)
          = get 0%Re pVelocityModel_local' (j' * nz + i) ->
          get 0%Re pxDamp (j * nz + i) = get 0%Re pxDamp' (j' * nz + i)
          /\ get 0%Re pxb (j * nz + i) = get 0%Re pxb' (j' * nz + i)].
Proof.
move=> HP Et Htask Htask' Hnz Hb H2b Hvel Hvel'.
have [[S1 S2] Hc1 Hd0 Hfit] := scatter_block_range HP Et Htask.
have [_ Hc1' Hd0' Hfit'] := scatter_block_range HP Et Htask'.
have Ht1 : 0 <= taskId < Zsize (sendcounts_block_nx t) by rewrite S1.
have Ht2 : 0 <= taskId < Zsize (displs_block_nx t) by rewrite S2.
have Ht1' : 0 <= taskId' < Zsize (sendcounts_block_nx t) by rewrite S1.
have Ht2' : 0 <= taskId' < Zsize (displs_block_nx t) by rewrite S2.
have Hc0 : 0 <= get 0 (sendcounts_block_nx t) taskId by lia.
have Hc0' : 0 <= get 0 (sendcounts_block_nx t) taskId' by lia.
have [px [pb [E _ Hx Hdecay]]] :=
  xDamp_run dx dt Ht1 Ht2 (erefl _) (erefl _) Hnz Hc0 Hd0 Hfit Hb H2b Hvel.
have [px' [pb' [E' _ Hx' Hdecay']]] :=
  xDamp_run dx dt Ht1' Ht2' (erefl _) (erefl _) Hnz Hc0' Hd0' Hfit' Hb H2b
    Hvel'.
exists px, pb, px', pb'; split=> // j j' i Hj Hj' Hi Hg Hv.
have Ex : get 0%Re px (j * nz + i) = get 0%Re px' (j' * nz + i).
  by rewrite (Hx _ _ Hj Hi) (Hx' _ _ Hj' Hi) Hv; apply: x_damping_mirror.
by split=> //; rewrite (Hdecay _ _ Hj Hi) (Hdecay' _ _ Hj' Hi) Ex.
Qed.

Lemma xDamp_paddings_mirror_witness :
  exists pxDamp pxb,
    xDamp 1 2 1 1%Re 1%Re [:: 2] [:: 0] 0 [:: 3; 3]%Re
    = Returned (pxDamp, pxb)
    /\ get 0%Re pxDamp 0 = get 0%Re pxDamp 1.
Proof.
have [|||||||||px [pb [px' [pb' [E E' Hm]]]]] :=
  @xDamp_paddings_mirror 1 2 1 1 1%Re 1%Re
    (ScatterTables [:: 2] [:: 0] [:: 2] [:: 0] 2) 0 0
    [:: 3; 3]%Re [:: 3; 3]%Re.
- lia.
- reflexivity.
- lia.
- lia.
- lia.
- lia.
- lia.
- reflexivity.
- reflexivity.
- have Epair : (px', pb') = (px, pb).
    by move: E'; rewrite E; case=> -> ->.
  case: Epair Hm => -> _ Hm.
  exists px, pb; split; first exact: E.
  have C0 : 0 <= 0 < 2 by lia.
  have C1 : 0 <= 1 < 2 by lia.
  have R0 : 0 <= 0 < 1 by lia.
  by have [H _] := Hm 0 1 0 C0 C1 R0 (erefl _) (erefl _).
Defined.

(** ** The damping at the outer edge of the paddings *)

Lemma damping_in_padding (k boundary : Z) (step v : R) :
  1 <= k <= boundary -> (0 < step)%Re -> (0 <= v)%Re ->
  (0 <= damping (IZR k * step) v (IZR boundary * step)
     <= 3 * v / (2 * (IZR boundary * step)) * ln 1000000)%Re.
Proof.
move=> Hk Hstep Hv.
have HL : (0 < IZR boundary * step)%Re.
  by apply: Rmult_lt_0_compat => //; apply: IZR_lt; lia.
have Hk0 : (0 <= IZR k)%Re by apply: IZR_le; lia.
have Hkb : (IZR k <= IZR boundary)%Re by apply: IZR_le; lia.
rewrite -d0_value_ln; split; first exact: damping_nonneg.
apply: damping_le_d0 => //.
by rewrite Rabs_pos_eq; nra.
Qed.

Lemma damping_at_edge (boundary : Z) (step v : R) :
  0 < boundary -> (0 < step)%Re ->
  damping (IZR boundary * step) v (IZR boundary * step)
  = (3 * v / (2 * (IZR boundary * step)) * ln 1000000)%Re.
Proof.
move=> Hb Hstep.
have HL : (0 < IZR boundary * step)%Re.
  by apply: Rmult_lt_0_compat => //; apply: IZR_lt.
rewrite -d0_value_ln; apply: damping_at_width => //.
by rewrite Rabs_pos_eq; lra.
Qed.

(** With a positive [dz] and [0 < boundary <= nz], the z-axis damping of
    every worker reaches [3*v/(2*L) * ln(10^6)], with [L = boundary * dz]
    and [v] the local velocity, in the bottom row [nz - 1] of the grid, and
    wherever the velocity is non-negative it stays between zero and this
    expression in every row. *)
Theorem zDamp_peak_in_bottom_row (nz nx numProcesses boundary : Z)
    (dz dt : R) (t : scatter_tables) (taskId : Z)
    (pVelocityModel_local : seq R) :
  1 <= numProcesses <= nx ->
  scatter_layout nz nx numProcesses = Returned t ->
  0 <= taskId < numProcesses ->
  0 < boundary <= nz ->
  Zsize pVelocityModel_local = nz * get 0 (sendcounts_block_nx t) taskId ->
  (0 < dz)%Re ->
  exists pzDamp pzb,
    let cnt := get 0 (sendcounts_block_nx t) taskId in
    let peak v := (3 * v / (2 * (IZR boundary * dz)) * ln 1000000)%Re in
    [/\ zDamp nz boundary dz dt (sendcounts_block_nx t) taskId
          pVelocityModel_local = Returned (pzDamp, pzb),
        forall j, 0 <= j < cnt ->
          get 0%Re pzDamp (j * nz + (nz - 1))
          = peak (get 0%Re pVelocityModel_local (j * nz + (nz - 1)))
      & forall j i, 0 <= j < cnt -> 0 <= i < nz ->
          (0 <= get 0 pVelocityModel_local (j * nz + i))%Re ->
          (0 <= get 0 pzDamp (j * nz + i)
             <= peak (get 0 pVelocityModel_local (j * nz + i)))%Re].
Proof.
move=> HP Et Htask Hb Hvel Hdz.
have [[S1 _] Hc1 _ _] := scatter_block_range HP Et Htask.
have Ht1 : 0 <= taskId < Zsize (sendcounts_block_nx t) by rewrite S1.
have Hc0 : 0 <= get 0 (sendcounts_block_nx t) taskId by lia.
have Hb' : 0 <= boundary <= nz by lia.
have [pzDamp [pzb [E _ Hzero Hbot _]]] :=
  zDamp_run dz dt Ht1 (erefl _) Hc0 Hb' Hvel.
have HL : (0 < IZR boundary * dz)%Re.
  by apply: Rmult_lt_0_compat => //; apply: IZR_lt; lia.
exists pzDamp, pzb; split=> //.
- move=> j Hj.
  have Hi : nz - boundary <= nz - 1 < nz by lia.
  rewrite (Hbot _ _ Hj Hi).
  have -> : nz - 1 - (nz - boundary) + 1 = boundary by lia.
  by apply: damping_at_edge => //; lia.
- move=> j i Hj Hi Hv.
  case: (Z.lt_ge_cases i (nz - boundary)) => Hrow.
    have Hi0 : 0 <= i < nz - boundary by lia.
    rewrite (Hzero _ _ Hj Hi0) -d0_value_ln; split; first lra.
    exact: d0_value_nonneg.
  have Hi' : nz - boundary <= i < nz by lia.
  by rewrite (Hbot _ _ Hj Hi'); apply: damping_in_padding => //; lia.
Qed.

Lemma zDamp_peak_in_bottom_row_witness :
  exists pzDamp pzb,
    zDamp 3 1 1%Re 1%Re [:: 2] 0 [:: 1; 2; 3; 4; 5; 6]%Re
    = Returned (pzDamp, pzb)
    /\ get 0%Re pzDamp 5 = (3 * 6 / (2 * (1 * 1)) * ln 1000000)%Re.
Proof.
have [||||||pzDamp [pzb [E Hpeak _]]] :=
  @zDamp_peak_in_bottom_row 3 2 1 1 1%Re 1%Re
    (ScatterTables [:: 2] [:: 0] [:: 6] [:: 0] 2)
    0 [:: 1; 2; 3; 4; 5; 6]%Re.
- lia.
- reflexivity.
- lia.
- lia.
- reflexivity.
- lra.
- exists pzDamp, pzb; split; first exact: E.
  have C1 : 0 <= 1 < 2 by lia.
  exact: (Hpeak 1 C1).
Defined.

(** With a positive [dx] and paddings that do not overlap
    ([0 < boundary], [2 * boundary <= nx]), the x-axis damping reaches
    [3*v/(2*L) * ln(10^6)], with [L = boundary * dx] and [v] the local
    velocity, in the first and in the last column of the grid, at the
    workers that hold them, and wherever the velocity is non-negative it
    stays between zero and this expression in every column. *)
Theorem xDamp_peak_in_outer_columns (nz nx numProcesses boundary : Z)
    (dx dt : R) (t : scatter_tables) (taskId : Z)
    (pVelocityModel_local : seq R) :
  1 <= numProcesses <= nx ->
  scatter_layout nz nx numProcesses = Returned t ->
  0 <= taskId < numProcesses ->
  0 <= nz -> 0 < boundary -> 2 * boundary <= nx ->
  Zsize pVelocityModel_local = nz * get 0 (sendcounts_block_nx t) taskId ->
  (0 < dx)%Re ->
  exists pxDamp pxb,
    let cnt := get 0 (sendcounts_block_nx t) taskId in
    let displs := get 0 (displs_block_nx t) taskId in
    let peak v := (3 * v / (2 * (IZR boundary * dx)) * ln 1000000)%Re in
    [/\ xDamp nz nx boundary dx dt (sendcounts_block_nx t)
          (displs_block_nx t) taskId pVelocityModel_local
        = Returned (pxDamp, pxb),
        forall j i, 0 <= j < cnt -> 0 <= i < nz ->
          displs + j = 0 \/ displs + j = nx - 1 ->
          get 0%Re pxDamp (j * nz + i)
          = peak (get 0%Re pVelocityModel_local (j * nz + i))
      & forall j i, 0 <= j < cnt -> 0 <= i < nz ->
          (0 <= get 0 pVelocityModel_local (j * nz + i))%Re ->
          (0 <= get 0 pxDamp (j * nz + i)
             <= peak (get 0 pVelocityModel_local (j * nz + i)))%Re].
Proof.
move=> HP Et Htask Hnz Hb H2b Hvel Hdx.
have [[S1 S2] Hc1 Hd0 Hfit] := scatter_block_range HP Et Htask.
have Ht1 : 0 <= taskId < Zsize (sendcounts_block_nx t) by rewrite S1.
have Ht2 : 0 <= taskId < Zsize (displs_block_nx t) by rewrite S2.
have Hc0 : 0 <= get 0 (sendcounts_block_nx t) taskId by lia.
have Hb0 : 0 <= boundary by lia.
have [pxDamp [pxb [E _ Hx _]]] :=
  xDamp_run dx dt Ht1 Ht2 (erefl _) (erefl _) Hnz Hc0 Hd0 Hfit Hb0 H2b Hvel.
have HL : (0 < IZR boundary * dx)%Re.
  by apply: Rmult_lt_0_compat => //; apply: IZR_lt.
set dsp := get 0 (displs_block_nx t) taskId in Hd0 Hfit Hx *.
exists pxDamp, pxb; split=> //.
- move=> j i Hj Hi Hg; rewrite (Hx _ _ Hj Hi) /x_damping.
  case: Hg => Hg.
    have -> : (dsp + j <? boundary) = true by lia.
    have -> : boundary - (dsp + j) = boundary by lia.
    exact: damping_at_edge.
  have -> : (dsp + j <? boundary) = false by lia.
  have -> : (nx - boundary <=? dsp + j) = true by lia.
  have -> : dsp + j - (nx - boundary) + 1 = boundary by lia.
  exact: damping_at_edge.
- move=> j i Hj Hi Hv; rewrite (Hx _ _ Hj Hi) /x_damping.
  case: Z.ltb_spec => Hg1.
    by apply: damping_in_padding => //; lia.
  case: Z.leb_spec => Hg2.
    by apply: damping_in_padding => //; lia.
  rewrite -d0_value_ln; split; first lra.
  exact: d0_value_nonneg.
Qed.

Lemma xDamp_peak_in_outer_columns_witness :
  exists pxDamp pxb,
    xDamp 1 2 1 1%Re 1%Re [:: 2] [:: 0] 0 [:: 3; 5]%Re
    = Returned (pxDamp, pxb)
    /\ get 0%Re pxDamp 1 = (3 * 5 / (2 * (1 * 1)) * ln 1000000)%Re.
Proof.
have [||||||||pxDamp [pxb [E Hpeak _]]] :=
  @xDamp_peak_in_outer_columns 1 2 1 1 1%Re 1%Re
    (ScatterTables [:: 2] [:: 0] [:: 2] [:: 0] 2) 0 [:: 3; 5]%Re.
- lia.
- reflexivity.
- lia.
- lia.
- lia.
- lia.
- reflexivity.
- lra.
- exists pxDamp, pxb; split; first exact: E.
  have C1 : 0 <= 1 < 2 by lia.
  have R0 : 0 <= 0 < 1 by lia.
  by apply: (Hpeak 1 0 C1 R0); right.
Defined.

(** ** The system of [dCoef] and its solution *)

(** For every positive order and each of the two recognised types, [dCoef]
    builds the generating system with the entries
    [A[i][j] = (j+1)^(2*(i+1)-1)], [b = [0.5, 0, ...]] (type ["r"]) or
    [A[i][j] = (2*(j+1)-1)^(2*(i+1)-1)], [b = [1, 0, ...]] (type ["s"]);
    the matrix is invertible; [dCoef] returns the vector that [mldivide]
    gives for this system and leaves the cells of [A] and [b] emptied; and
    if that solve is exact ([A * c = b] in real arithmetic), the returned
    vector satisfies every row of the generating system. *)
Theorem dCoef_system_and_solution
    (mldivide : forall n : nat, 'M[R]_n -> 'cV[R]_n -> 'cV[R]_n)
    (g : grid) (order : Z) (h : heap) :
  0 < order ->
  exists pA pb,
    let n := Z.to_nat order in
    let A := mx_of_buf n pA in
    let b := col_of_buf n pb in
    let c := buf_of_col (mldivide n A b) in
    [/\ dCoef_system order (type_name g) h =
        Returned (size h, (size h).+1,
                  rcons (rcons h (Some (MxArray [:: order; order] pA)))
                        (Some (MxArray [:: order; 1] pb))),
        (forall i j, 0 <= i < order -> 0 <= j < order ->
           get 0%Re pA (j * order + i) = system_entry g i j)
        /\ (forall i, 0 <= i < order -> get 0%Re pb i = system_rhs g i),
        A \in unitmx,
        dCoef mldivide order (type_name g) h =
        Returned ((size h).+2,
                  rcons (rcons (rcons h None) None)
                        (Some (MxArray [:: order; 1] c)))
      & (A *m mldivide n A b)%R = b ->
        forall i, 0 <= i < order ->
          sumR n (fun j => (system_entry g i j * get 0 c j)%Re)
          = system_rhs g i].
Proof.
move=> Hord.
have [pA [pb [Esys [HsA Hsb] HA Hb]]] := dCoef_system_run g h Hord.
have [pA' [pb' [E HA' Hb']]] := dCoef_run mldivide g h Hord.
exists pA, pb => n A b c.
have HAn : forall i j : 'I_n,
    nth 0%Re pA (j * n + i) = system_entry g (Z.of_nat i) (Z.of_nat j).
  move=> i j.
  have Hi : 0 <= Z.of_nat i < order by have := ltn_ord i => /ltP; lia.
  have Hj : 0 <= Z.of_nat j < order by have := ltn_ord j => /ltP; lia.
  rewrite -(HA _ _ Hi Hj) /get; congr (nth _ _ _).
  by rewrite -multE -plusE /n; nia.
have Hbn : forall i : 'I_n, nth 0%Re pb i = system_rhs g (Z.of_nat i).
  move=> i.
  have Hi : 0 <= Z.of_nat i < order by have := ltn_ord i => /ltP; lia.
  by rewrite -(Hb _ Hi) /get Nat2Z.id.
have EA : mx_of_buf (Z.to_nat order) pA' = A.
  by apply/matrixP => i j; rewrite !mxE HA' HAn.
have Eb : col_of_buf (Z.to_nat order) pb' = b.
  by apply/matrixP => i j; rewrite !mxE Hb' Hbn.
split=> //.
- exact: (system_unit HAn).
- by move: E; rewrite EA Eb.
- move=> Ec i Hi.
  have Hlt : (Z.to_nat i < n)%N by apply/ltP; rewrite /n; lia.
  have := solved_rows HAn Hbn Ec (Ordinal Hlt).
  by rewrite /= (Z2Nat.id i ltac:(lia)).
Qed.

Lemma dCoef_system_and_solution_witness :
  exists pA pb,
    dCoef_system 2 "r" [::] =
    Returned (0%N, 1%N, [:: Some (MxArray [:: 2; 2] pA);
                            Some (MxArray [:: 2; 1] pb)])
    /\ get 0%Re pA (1 * 2 + 1) = system_entry Regular 1 1
    /\ mx_of_buf 2 pA \in unitmx.
Proof.
have [|pA [pb [E [HA _] UA _ _]]] :=
  @dCoef_system_and_solution exact_solve Regular 2 [::].
  lia.
exists pA, pb; split; first exact: E.
split; last exact: UA.
by apply: HA; lia.
Defined.
